(** * Tangerine: the suggestion workflow, the metadata client and the list store

    A shallow embedding of the parts of the movie tracker that carry state
    or interpret untrusted text:

    - [src/api/mistralApi.js]: [parseResponseJson], [getSuggestions],
      [getReplacementSuggestion];
    - [src/api/omdbApi.js]: [searchMovieByTitle], [fetchMovieDetails];
    - [src/models/mediaData.js]: the store and its list operations;
    - [src/services/suggestionService.js]: [getMovieSuggestions],
      [replaceSuggestion];
    - the rest of the store ([removeMovie], [updateMovieRating],
      [filterMovies], import and loading), the search client
      ([searchMovies], [enhanceSearchResults]), the buttons of a suggestion
      card, the rating modal and two utilities ([createStarRating],
      [shuffleArray]).

    JavaScript strings are sequences of UTF-16 code units, so they are
    lists of [N] here.  Exceptions are an explicit [Throw] outcome; the
    store, local storage and the observable calls (callbacks, requests,
    saves) are threaded through a state-and-exception monad. *)

From Stdlib Require Import List String Ascii NArith ZArith Bool Arith Lia
  Permutation DecimalString.
From Stdlib Require QArith Qround.
Import ListNotations.

Set Warnings "-register-all".

Local Open Scope N_scope.

(** ** Strings as code units *)

Definition jsstring := list N.

Definition u (s : string) : jsstring :=
  map N_of_ascii (list_ascii_of_string s).

Fixpoint str_eqb (a b : jsstring) : bool :=
  match a, b with
  | [], [] => true
  | x :: a', y :: b' => (x =? y) && str_eqb a' b'
  | _, _ => false
  end.

(** The double quote and the apostrophe, by code. *)
Definition dq : N := 34.
Definition sq : N := 39.

(** [q s] is [s] between double quotes. *)
Definition q (s : string) : jsstring := dq :: u s ++ [dq].

(** ** Exceptions *)

Inductive error :=
| Error (message : string)
| ApiStatusError (status : Z)   (* Error(`API responded with status ${status}`) *)
| ServiceError (text : jsstring) (* Error(data.Error) *)
| SyntaxError                   (* JSON.parse, response.json() *)
| TypeError                     (* property of null/undefined, call of a non-function *)
| FetchFailed.                  (* fetch() rejected: network failure *)

Inductive completion (A : Type) :=
| Normal (a : A)
| Throw (e : error).
Arguments Normal {A} a.
Arguments Throw {A} e.

Definition try_catch {A} (body : completion A) (handler : error -> completion A)
  : completion A :=
  match body with
  | Normal a => Normal a
  | Throw e => handler e
  end.

(** ** Values produced by JSON.parse and by the regular-expression fallback *)

Inductive value :=
| VUndefined
| VNull
| VBool (b : bool)
| VNum (lexeme : jsstring)      (* a number, kept as its source text *)
| VStr (s : jsstring)
| VArr (items : list value)
| VObj (props : list (jsstring * value)).

(** [obj.key]: [undefined] when absent, a [TypeError] on [null] and
    [undefined].  None of the keys read by the program ([title], [year],
    [reason]) exists on the prototypes of arrays, strings, numbers or
    booleans. *)
Fixpoint lookup_prop (props : list (jsstring * value)) (key : jsstring) : value :=
  match props with
  | [] => VUndefined
  | (k, v) :: rest => if str_eqb k key then v else lookup_prop rest key
  end.

Definition get_prop (v : value) (key : jsstring) : completion value :=
  match v with
  | VUndefined | VNull => Throw TypeError
  | VObj props => Normal (lookup_prop props key)
  | _ => Normal VUndefined
  end.

(** Truthiness.  A number is falsy when it is zero: no non-zero digit in its
    mantissa (a literal that underflows to zero in floating point is beyond
    this model). *)
Definition is_digit (c : N) : bool := (48 <=? c) && (c <=? 57).

Fixpoint mantissa_nonzero (lexeme : jsstring) : bool :=
  match lexeme with
  | [] => false
  | c :: rest =>
      if (c =? 101) || (c =? 69) then false            (* e, E *)
      else if is_digit c && negb (c =? 48) then true
      else mantissa_nonzero rest
  end.

Definition truthy (v : value) : bool :=
  match v with
  | VUndefined | VNull => false
  | VBool b => b
  | VNum lexeme => mantissa_nonzero lexeme
  | VStr s => match s with [] => false | _ => true end
  | VArr _ | VObj _ => true
  end.

(** [a || b] on values. *)
Definition js_or (a b : value) : value := if truthy a then a else b.

(** ** Regular expressions

    The fragment of ECMAScript regular expressions the program uses:
    quantifiers are only ever applied to a single character class, so the
    backtracking matcher is structurally recursive, on the expression and,
    inside a quantifier, on the input.  Alternatives and quantifiers are
    tried in the order of the ECMAScript semantics (left alternative first;
    greedy: longest first; lazy: shortest first). *)

Inductive cclass :=
| CChar (c : N)        (* a literal character *)
| CQuote               (* the class of the two quote characters *)
| CSpace               (* \s *)
| CDigit               (* \d *)
| CDot                 (* .  without the s flag: no line terminator *)
| CAny.                (* .  with the s flag *)

Definition is_line_terminator (c : N) : bool :=
  (c =? 10) || (c =? 13) || (c =? 8232) || (c =? 8233).

(** WhiteSpace and LineTerminator of ECMA-262. *)
Definition is_space (c : N) : bool :=
  ((9 <=? c) && (c <=? 13)) || (c =? 32) || (c =? 160) || (c =? 5760)
  || ((8192 <=? c) && (c <=? 8202)) || (c =? 8232) || (c =? 8233)
  || (c =? 8239) || (c =? 8287) || (c =? 12288) || (c =? 65279).

Definition accepts (cc : cclass) (c : N) : bool :=
  match cc with
  | CChar x => c =? x
  | CQuote => (c =? dq) || (c =? sq)
  | CSpace => is_space c
  | CDigit => is_digit c
  | CDot => negb (is_line_terminator c)
  | CAny => true
  end.

Inductive regex :=
| Atom (cc : cclass)               (* cc *)
| Opt (cc : cclass)                (* cc? *)
| Star (cc : cclass)               (* cc* *)
| StarLazy (cc : cclass)           (* cc*? *)
| PlusLazy (cc : cclass)           (* cc+? *)
| Rep (n : nat) (cc : cclass)      (* cc{n} *)
| Seq (r1 r2 : regex)
| Alt (r1 r2 : regex)              (* r1|r2 *)
| Group (i : nat) (r : regex).     (* the i-th capturing group *)

Definition captures := list (nat * jsstring).

Section Matcher.
Context {A : Type}.

Fixpoint star_greedy (cc : cclass) (k : jsstring -> option A) (s : jsstring)
  : option A :=
  match s with
  | c :: s' =>
      if accepts cc c then
        match star_greedy cc k s' with
        | Some r => Some r
        | None => k s
        end
      else k s
  | [] => k s
  end.

Fixpoint star_lazy (cc : cclass) (k : jsstring -> option A) (s : jsstring)
  : option A :=
  match k s with
  | Some r => Some r
  | None =>
      match s with
      | c :: s' => if accepts cc c then star_lazy cc k s' else None
      | [] => None
      end
  end.

Definition one (cc : cclass) (k : jsstring -> option A) (s : jsstring)
  : option A :=
  match s with
  | c :: s' => if accepts cc c then k s' else None
  | [] => None
  end.

Fixpoint repeat_exact (n : nat) (cc : cclass) (k : jsstring -> option A)
  : jsstring -> option A :=
  match n with
  | O => k
  | S n' => one cc (repeat_exact n' cc k)
  end.

(** [run r k s cs]: match [r] at the head of [s], then continue with [k]
    on what is left; [None] makes the matcher backtrack. *)
Fixpoint run (r : regex) (k : jsstring -> captures -> option A)
         (s : jsstring) (cs : captures) : option A :=
  match r with
  | Atom cc => one cc (fun s' => k s' cs) s
  | Opt cc =>
      match one cc (fun s' => k s' cs) s with
      | Some x => Some x
      | None => k s cs
      end
  | Star cc => star_greedy cc (fun s' => k s' cs) s
  | StarLazy cc => star_lazy cc (fun s' => k s' cs) s
  | PlusLazy cc => one cc (star_lazy cc (fun s' => k s' cs)) s
  | Rep n cc => repeat_exact n cc (fun s' => k s' cs) s
  | Seq r1 r2 => run r1 (fun s' cs' => run r2 k s' cs') s cs
  | Alt r1 r2 =>
      match run r1 k s cs with
      | Some x => Some x
      | None => run r2 k s cs
      end
  | Group i r1 =>
      run r1 (fun s' cs' =>
                k s' ((i, firstn (List.length s - List.length s')%nat s) :: cs')) s cs
  end.
End Matcher.

Fixpoint group_count (r : regex) : nat :=
  match r with
  | Seq r1 r2 | Alt r1 r2 => (group_count r1 + group_count r2)%nat
  | Group _ r1 => S (group_count r1)
  | _ => O
  end.

Fixpoint capture (cs : captures) (i : nat) : value :=
  match cs with
  | [] => VUndefined
  | (j, s) :: rest => if Nat.eqb i j then VStr s else capture rest i
  end.

(** A match array: index 0 is the matched text, index i the i-th group. *)
Definition match_array := list value.

Definition match_at (r : regex) (s : jsstring) : option (match_array * jsstring) :=
  run r (fun rest cs =>
           Some (VStr (firstn (List.length s - List.length rest)%nat s)
                   :: map (capture cs) (seq 1%nat (group_count r)), rest))
      s [].

(** The leftmost match, with the text that follows it. *)
Fixpoint search (r : regex) (s : jsstring) : option (match_array * jsstring) :=
  match match_at r s with
  | Some m => Some m
  | None =>
      match s with
      | _ :: s' => search r s'
      | [] => None
      end
  end.

(** [s.match(r)] for a regex without the g flag. *)
Definition String_match (s : jsstring) (r : regex) : option match_array :=
  option_map fst (search r s).

(** [s.matchAll(r)] for a regex with the g flag, run to the end.  After an
    empty match the search resumes one code unit further. *)
Fixpoint matchAll_from (fuel : nat) (r : regex) (s : jsstring) : list match_array :=
  match fuel with
  | O => []
  | S fuel' =>
      match search r s with
      | None => []
      | Some (m, rest) =>
          m :: match nth 0%nat m VUndefined, rest with
               | VStr [], [] => []
               | VStr [], _ :: rest' => matchAll_from fuel' r rest'
               | _, _ => matchAll_from fuel' r rest
               end
      end
  end.

Definition String_matchAll (s : jsstring) (r : regex) : list match_array :=
  matchAll_from (S (List.length s)) r s.

(** [m[i]]. *)
Definition at_index (m : match_array) (i : nat) : value := nth i m VUndefined.

Definition lit (s : string) : regex :=
  match map (fun c => Atom (CChar c)) (u s) with
  | [] => Rep 0%nat CAny
  | r :: rs => fold_left Seq rs r
  end.

Fixpoint seqs (rs : list regex) : regex :=
  match rs with
  | [] => Rep 0%nat CAny
  | [r] => r
  | r :: rest => Seq r (seqs rest)
  end.

(** ** JSON.parse

    The JSON grammar of ECMA-262 over code units.  Numbers keep their source
    text.  A repeated key overwrites the earlier value.  The fuel bounds the
    nesting depth; [JSON_parse] gives more fuel than the text has
    characters (see [parse_value_fuel]). *)

Definition is_json_ws (c : N) : bool :=
  (c =? 9) || (c =? 10) || (c =? 13) || (c =? 32).

Fixpoint skip_ws (s : jsstring) : jsstring :=
  match s with
  | c :: r => if is_json_ws c then skip_ws r else s
  | [] => []
  end.

Fixpoint take_digits (s : jsstring) : jsstring * jsstring :=
  match s with
  | c :: r =>
      if is_digit c then let (d, r') := take_digits r in (c :: d, r')
      else ([], s)
  | [] => ([], [])
  end.

(** One or more digits. *)
Definition lex_digits (s : jsstring) : option (jsstring * jsstring) :=
  match take_digits s with
  | ([], _) => None
  | (d, r) => Some (d, r)
  end.

(** An optional fraction: a dot and digits. *)
Definition lex_fraction (s : jsstring) : option (jsstring * jsstring) :=
  match s with
  | c :: r =>
      if c =? 46 then
        match lex_digits r with
        | Some (d, r') => Some (c :: d, r')
        | None => None
        end
      else Some ([], s)
  | [] => Some ([], s)
  end.

(** An optional exponent: e or E, an optional sign, digits. *)
Definition lex_exponent (s : jsstring) : option (jsstring * jsstring) :=
  match s with
  | c :: r =>
      if (c =? 101) || (c =? 69) then
        let (sign, r1) :=
          match r with
          | x :: r' => if (x =? 43) || (x =? 45) then ([x], r') else ([], r)
          | [] => ([], r)
          end in
        match lex_digits r1 with
        | Some (d, r2) => Some (c :: sign ++ d, r2)
        | None => None
        end
      else Some ([], s)
  | [] => Some ([], s)
  end.

Definition lex_number (s : jsstring) : option (jsstring * jsstring) :=
  let (sign, s1) :=
    match s with
    | c :: r => if c =? 45 then ([c], r) else ([], s)
    | [] => ([], s)
    end in
  match s1 with
  | c :: r1 =>
      if is_digit c then
        let (int, s2) := if c =? 48 then ([c], r1) else take_digits s1 in
        match lex_fraction s2 with
        | Some (frac, s3) =>
            match lex_exponent s3 with
            | Some (ex, s4) => Some (sign ++ int ++ frac ++ ex, s4)
            | None => None
            end
        | None => None
        end
      else None
  | [] => None
  end.

Definition hex_value (c : N) : option N :=
  if is_digit c then Some (c - 48)
  else if (97 <=? c) && (c <=? 102) then Some (c - 87)
  else if (65 <=? c) && (c <=? 70) then Some (c - 55)
  else None.

(** The character after a backslash: quote, backslash, slash, b f n r t. *)
Definition simple_escape (c : N) : option N :=
  if (c =? 34) || (c =? 92) || (c =? 47) then Some c
  else if c =? 98 then Some 8
  else if c =? 102 then Some 12
  else if c =? 110 then Some 10
  else if c =? 114 then Some 13
  else if c =? 116 then Some 9
  else None.

(** A string, from after its opening quote: its content and what follows
    the closing quote. *)
Fixpoint lex_string (s : jsstring) : option (jsstring * jsstring) :=
  match s with
  | [] => None
  | c :: r =>
      if c =? dq then Some ([], r)
      else if c =? 92 then
        match r with
        | [] => None
        | e :: r' =>
            if e =? 117 then
              match r' with
              | h1 :: h2 :: h3 :: h4 :: r'' =>
                  match hex_value h1, hex_value h2, hex_value h3, hex_value h4 with
                  | Some a, Some b, Some c', Some d =>
                      match lex_string r'' with
                      | Some (t, rest) =>
                          Some (((a * 16 + b) * 16 + c') * 16 + d :: t, rest)
                      | None => None
                      end
                  | _, _, _, _ => None
                  end
              | _ => None
              end
            else
              match simple_escape e with
              | Some x =>
                  match lex_string r' with
                  | Some (t, rest) => Some (x :: t, rest)
                  | None => None
                  end
              | None => None
              end
        end
      else if c <? 32 then None
      else
        match lex_string r with
        | Some (t, rest) => Some (c :: t, rest)
        | None => None
        end
  end.

Fixpoint strip_prefix (p s : jsstring) : option jsstring :=
  match p, s with
  | [], _ => Some s
  | x :: p', y :: s' => if x =? y then strip_prefix p' s' else None
  | _ :: _, [] => None
  end.

(** A member name and its colon. *)
Definition parse_key (s : jsstring) : option (jsstring * jsstring) :=
  match skip_ws s with
  | c :: r =>
      if c =? dq then
        match lex_string r with
        | Some (k, r1) =>
            match skip_ws r1 with
            | c1 :: r2 => if c1 =? 58 then Some (k, r2) else None
            | [] => None
            end
        | None => None
        end
      else None
  | [] => None
  end.

Fixpoint obj_set (props : list (jsstring * value)) (k : jsstring) (v : value)
  : list (jsstring * value) :=
  match props with
  | [] => [(k, v)]
  | (k', v') :: rest =>
      if str_eqb k' k then (k', v) :: rest else (k', v') :: obj_set rest k v
  end.

Definition parse_scalar (s : jsstring) : option (value * jsstring) :=
  match strip_prefix (u "true") s with
  | Some rest => Some (VBool true, rest)
  | None =>
  match strip_prefix (u "false") s with
  | Some rest => Some (VBool false, rest)
  | None =>
  match strip_prefix (u "null") s with
  | Some rest => Some (VNull, rest)
  | None =>
  match lex_number s with
  | Some (lexeme, rest) => Some (VNum lexeme, rest)
  | None => None
  end end end end.

Fixpoint parse_value (fuel : nat) (s : jsstring) {struct fuel}
  : option (value * jsstring) :=
  match fuel with
  | O => None
  | S f =>
      match skip_ws s with
      | [] => None
      | c :: r =>
          if c =? 91 then                       (* an array *)
            match skip_ws r with
            | [] => None
            | c2 :: r2 =>
                if c2 =? 93 then Some (VArr [], r2)
                else
                  match parse_value f r with
                  | Some (v, r3) => parse_elements f r3 [v]
                  | None => None
                  end
            end
          else if c =? 123 then                 (* an object *)
            match skip_ws r with
            | [] => None
            | c2 :: r2 =>
                if c2 =? 125 then Some (VObj [], r2)
                else
                  match parse_key r with
                  | Some (k, r3) =>
                      match parse_value f r3 with
                      | Some (v, r4) => parse_members f r4 [(k, v)]
                      | None => None
                      end
                  | None => None
                  end
            end
          else if c =? dq then
            match lex_string r with
            | Some (t, rest) => Some (VStr t, rest)
            | None => None
            end
          else parse_scalar (c :: r)
      end
  end

with parse_elements (fuel : nat) (s : jsstring) (acc : list value) {struct fuel}
  : option (value * jsstring) :=
  match fuel with
  | O => None
  | S f =>
      match skip_ws s with
      | [] => None
      | c :: r =>
          if c =? 93 then Some (VArr (rev acc), r)
          else if c =? 44 then
            match parse_value f r with
            | Some (v, r') => parse_elements f r' (v :: acc)
            | None => None
            end
          else None
      end
  end

with parse_members (fuel : nat) (s : jsstring) (acc : list (jsstring * value))
       {struct fuel} : option (value * jsstring) :=
  match fuel with
  | O => None
  | S f =>
      match skip_ws s with
      | [] => None
      | c :: r =>
          if c =? 125 then Some (VObj acc, r)
          else if c =? 44 then
            match parse_key r with
            | Some (k, r1) =>
                match parse_value f r1 with
                | Some (v, r2) => parse_members f r2 (obj_set acc k v)
                | None => None
                end
            | None => None
            end
          else None
      end
  end.

Definition JSON_parse (text : jsstring) : completion value :=
  match parse_value (S (List.length text)) text with
  | Some (v, rest) =>
      match skip_ws rest with
      | [] => Normal v
      | _ :: _ => Throw SyntaxError
      end
  | None => Throw SyntaxError
  end.

(** ** src/api/mistralApi.js: parseResponseJson *)

(** The regular expressions of [parseResponseJson], in source order. *)

(** An opening bracket, anything, a closing bracket; or the same with
    braces; s flag. *)
Definition re_json : regex :=
  Alt (seqs [Atom (CChar 91); Star CAny; Atom (CChar 93)])
      (seqs [Atom (CChar 123); Star CAny; Atom (CChar 125)]).

(** Optionally quoted [title], colon, quoted text (group 1), then lazily
    on to [year] and four digits (group 2), then lazily on to [reason] and
    quoted text (group 3); g and s flags. *)
Definition re_movie : regex :=
  seqs [ Opt CQuote; lit "title"; Opt CQuote; Star CSpace; Atom (CChar 58);
         Star CSpace; Atom CQuote; Group 1 (PlusLazy CAny); Atom CQuote;
         StarLazy CAny;
         Opt CQuote; lit "year"; Opt CQuote; Star CSpace; Atom (CChar 58);
         Star CSpace; Opt CQuote; Group 2 (Rep 4 CDigit); Opt CQuote;
         StarLazy CAny;
         Opt CQuote; lit "reason"; Opt CQuote; Star CSpace; Atom (CChar 58);
         Star CSpace; Atom CQuote; Group 3 (PlusLazy CAny); Atom CQuote ].

(** The three single-field expressions; no flags, so the dot stops at a
    line terminator. *)
Definition re_title : regex :=
  seqs [ lit "title"; Opt CQuote; Star CSpace; Atom (CChar 58); Star CSpace;
         Atom CQuote; Group 1 (PlusLazy CDot); Atom CQuote ].

Definition re_year : regex :=
  seqs [ lit "year"; Opt CQuote; Star CSpace; Atom (CChar 58); Star CSpace;
         Opt CQuote; Group 1 (Rep 4 CDigit); Opt CQuote ].

Definition re_reason : regex :=
  seqs [ lit "reason"; Opt CQuote; Star CSpace; Atom (CChar 58); Star CSpace;
         Atom CQuote; Group 1 (PlusLazy CDot); Atom CQuote ].

Definition default_reason : value := VStr (u "Recommended based on your taste").

(** The object literal with the three keys, in source order. *)
Definition suggestion_object (title year reason : value) : value :=
  VObj [(u "title", title); (u "year", year); (u "reason", reason)].

(** The body of the [try]: the first bracketed or braced span, parsed. *)
Definition parse_literal (content : jsstring) : completion value :=
  match String_match content re_json with
  | Some jsonMatch =>
      match at_index jsonMatch 0 with
      | VStr text => JSON_parse text
      | _ => Throw SyntaxError
      end
  | None => Throw (Error "No JSON found in response")
  end.

(** The loop over [matchAll]: one object per match of at least four
    entries. *)
Definition extract_movies (content : jsstring) : list value :=
  flat_map (fun m =>
              if (4 <=? List.length m)%nat
              then [suggestion_object (at_index m 1) (at_index m 2) (at_index m 3)]
              else [])
           (String_matchAll content re_movie).

(** The body of the [catch]. *)
Definition extract_by_pattern (content : jsstring) : completion value :=
  let suggestions := extract_movies content in
  if (0 <? List.length suggestions)%nat then Normal (VArr suggestions)
  else
    let titleMatch := String_match content re_title in
    let yearMatch := String_match content re_year in
    let reasonMatch := String_match content re_reason in
    match titleMatch, yearMatch with
    | Some t, Some y =>
        Normal (suggestion_object
                  (at_index t 1) (at_index y 1)
                  (match reasonMatch with
                   | Some r => at_index r 1
                   | None => default_reason
                   end))
    | _, _ => Throw (Error "Could not extract movie suggestion(s) from response")
    end.

Definition parseResponseJson (content : jsstring) : completion value :=
  try_catch (parse_literal content) (fun _ => extract_by_pattern content).

Definition dune_text : jsstring :=
  u "title: " ++ q "Dune" ++ u ", year: " ++ q "2021" ++ u ", reason: " ++ q "epic scale".


(** ** Movie records and the store (src/models/mediaData.js) *)

(** A movie as the metadata service delivers it, with the two fields the
    application adds.  Records are values: the one in-place update of the
    program ([userRating] in [markAsWatched]) touches a field that no
    property below reads through an alias. *)
Record Movie := mkMovie {
  imdbID : jsstring;
  Title : jsstring;
  Year : jsstring;
  Genre : option jsstring;
  userRating : option Z;
  reason : value
}.

Definition with_reason (m : Movie) (r : value) : Movie :=
  mkMovie (imdbID m) (Title m) (Year m) (Genre m) (userRating m) r.

Definition with_userRating (m : Movie) (r : option Z) : Movie :=
  mkMovie (imdbID m) (Title m) (Year m) (Genre m) r (reason m).

(** The global [mediaData] object. *)
Record MediaData := mkMediaData {
  toWatch : list Movie;
  watched : list Movie;
  selectedMovie : option Movie;
  searchResults : list Movie;
  suggestions : list Movie
}.

(** What the running page holds: the global object and the blob under the
    key [moviePickerData] of local storage ([JSON.stringify] of the whole
    object, kept here as the object it encodes). *)
Record Store := mkStore {
  mediaData : MediaData;
  localStorage : option MediaData
}.

Inductive listName := toWatchList | watchedList.

(** ** Observable calls *)

Inductive rating_text := Rated (r : Z) | NotRated.

(** One entry of [movieSample]. *)
Record SampleEntry := mkSample {
  sample_title : jsstring;
  sample_year : jsstring;
  sample_genre : jsstring;
  sample_rating : rating_text
}.

Inductive prompt_kind :=
| PromptMany (count : nat)     (* recommend EXACTLY count different movies *)
| PromptOne.                   (* recommend ONE movie *)

(** The POST to the chat-completions endpoint: what the prompt is built
    from, and the temperature in hundredths. *)
Record MistralRequest := mkMistralRequest {
  req_kind : prompt_kind;
  req_sample : list SampleEntry;
  req_excluded : list jsstring;
  req_temperature : Z
}.

(** The GET requests to the metadata service, by their query string:
    [t=title] with an optional [y=year]; [s=title]; [i=id] with an optional
    [plot=full]. *)
Inductive OmdbRequest :=
| ByTitle (title : value) (year : option value)
| BySearch (title : value)
| ById (id : jsstring) (plot_full : bool).

Inductive event :=
| LoadStart                                   (* onLoadStart() *)
| LoadComplete (l : list Movie)               (* onLoadComplete(l) *)
| ReplaceStart (id : jsstring)                (* onReplaceStart(id) *)
| ReplaceComplete (id : jsstring) (m : Movie) (* onReplaceComplete(id, m) *)
| OnError (e : error)                         (* onError(e) *)
| CallMistral (r : MistralRequest)            (* fetch(MISTRAL_API_URL, ...) *)
| CallOmdb (r : OmdbRequest)                  (* fetch(API_URL + query) *)
| SavedSuggestions (l : list Movie)           (* saveSuggestions(l) *)
| UIUpdate (which : option listName)          (* triggerUIUpdate; None is both *)
| ShowDetails (m : Movie) (l : listName).     (* showMovieDetails(m, l) *)

(** ** The world outside the page *)

(** What [fetch] gives: a rejection (network failure), or a response with
    its [ok] flag, its status and the result of [response.json()] ([None]
    when the body is not JSON of the expected shape, so that reading it
    throws). *)
Record response (B : Type) := mkResponse {
  ok : bool;
  status : Z;
  json : option B
}.
Arguments mkResponse {B} ok status json.
Arguments ok {B} r.
Arguments status {B} r.
Arguments json {B} r.

Inductive fetched (B : Type) :=
| Rejected
| Responded (r : response B).
Arguments Rejected {B}.
Arguments Responded {B} r.

(** The part of a chat-completions body that is read:
    [data.choices[0].message.content]. *)
Record MistralBody := mkMistralBody { content : jsstring }.

(** A body of the metadata service: the envelope fields and the object
    itself seen as a movie. *)
Record OmdbBody := mkOmdbBody {
  Response : jsstring;
  ErrorText : jsstring;
  Search : option (list Movie);
  as_movie : Movie
}.

(** The two services, each given by its answer to every request, and what
    the other event handlers of the page do to the store while an operation
    is suspended at its i-th [await]. *)
Record World := mkWorld {
  mistral : MistralRequest -> fetched MistralBody;
  omdb : OmdbRequest -> fetched OmdbBody;
  interference : nat -> Store -> Store
}.

Definition quiet (w : World) : Prop := forall i s, interference w i s = s.

(** ** The monad of the page: a store, a log of observable calls, and
    exceptions *)

Definition M (A : Type) : Type :=
  Store -> list event -> completion A * Store * list event.

Definition ret {A} (a : A) : M A := fun s t => (Normal a, s, t).

Definition bind {A B} (m : M A) (k : A -> M B) : M B :=
  fun s t =>
    match m s t with
    | (Normal a, s', t') => k a s' t'
    | (Throw e, s', t') => (Throw e, s', t')
    end.

Definition throw {A} (e : error) : M A := fun s t => (Throw e, s, t).

Definition try_catchM {A} (body : M A) (handler : error -> M A) : M A :=
  fun s t =>
    match body s t with
    | (Normal a, s', t') => (Normal a, s', t')
    | (Throw e, s', t') => handler e s' t'
    end.

Definition lift {A} (c : completion A) : M A := fun s t => (c, s, t).

Definition emit (e : event) : M unit := fun s t => (Normal tt, s, t ++ [e]).

Definition read : M MediaData := fun s t => (Normal (mediaData s), s, t).

Definition write (d : MediaData) : M unit :=
  fun s t => (Normal tt, mkStore d (localStorage s), t).

(** [await] of the i-th suspension point: the awaited computation runs, and
    before its outcome is delivered the rest of the page has had its turn. *)
Definition await {A} (w : World) (i : nat) (m : M A) : M A :=
  fun s t =>
    match m s t with
    | (c, s', t') => (c, interference w i s', t')
    end.

Declare Scope monad_scope.
Delimit Scope monad_scope with monad.
Notation "x <- m ;; k" := (bind m (fun x => k))
  (at level 61, m at next level, right associativity) : monad_scope.
Notation "m ;; k" := (bind m (fun _ => k))
  (at level 61, right associativity) : monad_scope.
Local Open Scope monad_scope.

(** [if (typeof f === 'function') f(...)]. *)
Definition call_if_function (is_function : bool) (e : event) : M unit :=
  if is_function then emit e else ret tt.

Fixpoint mapM {A B} (f : A -> M B) (l : list A) : M (list B) :=
  match l with
  | [] => ret []
  | a :: l' => b <- f a ;; bs <- mapM f l' ;; ret (b :: bs)
  end.

(** ** src/models/mediaData.js *)

Definition set_toWatch (d : MediaData) (l : list Movie) : MediaData :=
  mkMediaData l (watched d) (selectedMovie d) (searchResults d) (suggestions d).

Definition set_watched (d : MediaData) (l : list Movie) : MediaData :=
  mkMediaData (toWatch d) l (selectedMovie d) (searchResults d) (suggestions d).

Definition set_selectedMovie (d : MediaData) (m : option Movie) : MediaData :=
  mkMediaData (toWatch d) (watched d) m (searchResults d) (suggestions d).

Definition set_suggestions (d : MediaData) (l : list Movie) : MediaData :=
  mkMediaData (toWatch d) (watched d) (selectedMovie d) (searchResults d) l.

(** [localStorage.setItem('moviePickerData', JSON.stringify(mediaData))]. *)
Definition saveToLocalStorage : M unit :=
  fun s t => (Normal tt, mkStore (mediaData s) (Some (mediaData s)), t).

Definition triggerUIUpdate (which : option listName) : M unit :=
  emit (UIUpdate which).

Definition getMovies (name : listName) : M (list Movie) :=
  d <- read ;;
  ret (match name with toWatchList => toWatch d | watchedList => watched d end).

(** [l.findIndex(p)]; [None] stands for -1. *)
Fixpoint findIndex {A} (p : A -> bool) (l : list A) : option nat :=
  match l with
  | [] => None
  | a :: l' => if p a then Some O else option_map S (findIndex p l')
  end.

(** [l.find(p)]. *)
Definition find_first {A} (p : A -> bool) (l : list A) : option A :=
  List.find p l.

(** [l.splice(i, 1)]. *)
Fixpoint splice1 {A} (i : nat) (l : list A) : list A :=
  match i, l with
  | _, [] => []
  | O, _ :: l' => l'
  | S i', a :: l' => a :: splice1 i' l'
  end.

Definition has_id (id : jsstring) (m : Movie) : bool := str_eqb (imdbID m) id.

Definition findMovieInLists (id : jsstring) : M (option Movie) :=
  d <- read ;;
  match find_first (has_id id) (toWatch d) with
  | Some inToWatch => ret (Some inToWatch)
  | None =>
      match find_first (has_id id) (watched d) with
      | Some inWatched => ret (Some inWatched)
      | None => ret None
      end
  end.

Definition addToWatchList (movie : Movie) : M bool :=
  found <- findMovieInLists (imdbID movie) ;;
  match found with
  | Some _ => ret false
  | None =>
      d <- read ;;
      write (set_toWatch d (movie :: toWatch d)) ;;
      saveToLocalStorage ;;
      triggerUIUpdate (Some toWatchList) ;;
      ret true
  end.

(** The tail shared by the two moves: if the moved movie is the selected
    one, select the moved record and show it.  This runs after the save. *)
Definition refresh_selected (id : jsstring) (movie : Movie) (l : listName)
  : M unit :=
  d <- read ;;
  match selectedMovie d with
  | Some sel =>
      if has_id id sel then
        write (set_selectedMovie d (Some movie)) ;;
        emit (ShowDetails movie l)
      else ret tt
  | None => ret tt
  end.

Definition markAsWatched (id : jsstring) (rating : option Z) : M unit :=
  d <- read ;;
  match findIndex (has_id id) (toWatch d) with
  | None => ret tt
  | Some movieIndex =>
      match nth_error (toWatch d) movieIndex with
      | None => throw TypeError   (* not reached: the index was just found *)
      | Some movie0 =>
          let movie :=
            match rating with
            | Some r => with_userRating movie0 (Some r)
            | None => movie0
            end in
          write (set_toWatch d (splice1 movieIndex (toWatch d))) ;;
          d1 <- read ;;
          write (set_watched d1 (movie :: watched d1)) ;;
          saveToLocalStorage ;;
          triggerUIUpdate None ;;
          refresh_selected id movie watchedList
      end
  end.

Definition markAsUnwatched (id : jsstring) : M unit :=
  d <- read ;;
  match findIndex (has_id id) (watched d) with
  | None => ret tt
  | Some movieIndex =>
      match nth_error (watched d) movieIndex with
      | None => throw TypeError   (* not reached: the index was just found *)
      | Some movie0 =>
          let movie := with_userRating movie0 None in
          write (set_watched d (splice1 movieIndex (watched d))) ;;
          d1 <- read ;;
          write (set_toWatch d1 (movie :: toWatch d1)) ;;
          saveToLocalStorage ;;
          triggerUIUpdate None ;;
          refresh_selected id movie toWatchList
      end
  end.

Definition saveSuggestions (l : list Movie) : M unit :=
  d <- read ;;
  write (set_suggestions d l) ;;
  saveToLocalStorage ;;
  emit (SavedSuggestions l).

Definition getCurrentSuggestions : M (list Movie) :=
  d <- read ;; ret (suggestions d).

(** ** src/api/omdbApi.js *)

Definition fetch_omdb (w : World) (r : OmdbRequest) : M (response OmdbBody) :=
  emit (CallOmdb r) ;;
  match omdb w r with
  | Rejected => throw FetchFailed
  | Responded resp => ret resp
  end.

(** [await response.json()]. *)
Definition response_json {B} (resp : response B) : M B :=
  match json resp with
  | Some body => ret body
  | None => throw SyntaxError
  end.

Definition is_True (s : jsstring) : bool := str_eqb s (u "True").
Definition is_False (s : jsstring) : bool := str_eqb s (u "False").

(** [searchMovieByTitle(title, year = '')]: [Some] is the returned object,
    [None] is [null]. *)
Definition searchMovieByTitle (w : World) (title year : value)
  : M (option Movie) :=
  let year := match year with VUndefined => VStr [] | _ => year end in
  try_catchM
    (response <- fetch_omdb w
                   (ByTitle title (if truthy year then Some year else None)) ;;
     data <- response_json response ;;
     if is_True (Response data) then ret (Some (as_movie data))
     else
       searchResponse <- fetch_omdb w (BySearch title) ;;
       searchData <- response_json searchResponse ;;
       match is_True (Response searchData), Search searchData with
       | true, Some (firstResult :: _) =>
           detailsResponse <- fetch_omdb w (ById (imdbID firstResult) false) ;;
           details <- response_json detailsResponse ;;
           ret (Some (as_movie details))
       | _, _ => ret None
       end)
    (fun _ => ret None).

Definition fetchMovieDetails (w : World) (id : jsstring) : M (option Movie) :=
  try_catchM
    (response <- fetch_omdb w (ById id true) ;;
     data <- response_json response ;;
     if is_False (Response data) then throw (ServiceError (ErrorText data))
     else ret (Some (as_movie data)))
    (fun _ => ret None).

(** ** src/api/mistralApi.js: the two requests *)

Definition fetch_mistral (w : World) (r : MistralRequest)
  : M (response MistralBody) :=
  emit (CallMistral r) ;;
  match mistral w r with
  | Rejected => throw FetchFailed
  | Responded resp => ret resp
  end.

(** [getSuggestions(movieSample, existingMovieTitles, count = 5)]. *)
Definition getSuggestions (w : World) (movieSample : list SampleEntry)
           (existingMovieTitles : list jsstring) (count : nat) : M value :=
  try_catchM
    (response <- fetch_mistral w
                   (mkMistralRequest (PromptMany count) movieSample
                                     existingMovieTitles 90) ;;
     if negb (ok response) then throw (ApiStatusError (status response))
     else
       data <- response_json response ;;
       lift (parseResponseJson (content data)))
    (fun error => throw error).

Definition getReplacementSuggestion (w : World) (movieSample : list SampleEntry)
           (existingMovieTitles : list jsstring) : M value :=
  try_catchM
    (response <- fetch_mistral w
                   (mkMistralRequest PromptOne movieSample
                                     existingMovieTitles 95) ;;
     if negb (ok response) then throw (ApiStatusError (status response))
     else
       data <- response_json response ;;
       parsedResult <- lift (parseResponseJson (content data)) ;;
       ret (match parsedResult with
            | VArr items => nth 0%nat items VUndefined
            | _ => parsedResult
            end))
    (fun error => throw error).

(** ** src/services/suggestionService.js *)

(** Which of the three callbacks are functions. *)
Record callbacks := mkCallbacks {
  on_start : bool;
  on_complete : bool;
  on_error : bool
}.

(** [s.toLowerCase()], exact on the Basic Latin block. *)
Definition toLowerCase (s : jsstring) : jsstring :=
  map (fun c => if (65 <=? c) && (c <=? 90) then c + 32 else c) s.

(** One entry of the sample sent with the prompt. *)
Definition sample_of (movie : Movie) : SampleEntry :=
  mkSample (Title movie) (Year movie)
           (match Genre movie with
            | Some (c :: g) => c :: g
            | _ => u "Unknown"
            end)
           (match userRating movie with
            | Some r => if (r =? 0)%Z then NotRated else Rated r
            | None => NotRated
            end).

(** [ids.includes(id)]. *)
Definition includes (ids : list jsstring) (id : jsstring) : bool :=
  existsb (str_eqb id) ids.

(** The callback mapped over the candidates in [getMovieSuggestions]:
    [None] is the [null] that the filter removes afterwards. *)
Definition resolve_candidate (w : World) (existingMovieIds : list jsstring)
           (suggestion : value) : M (option Movie) :=
  try_catchM
    (title <- lift (get_prop suggestion (u "title")) ;;
     year <- lift (get_prop suggestion (u "year")) ;;
     movieDetails <- searchMovieByTitle w title year ;;
     match movieDetails with
     | Some details =>
         if includes existingMovieIds (imdbID details) then ret None
         else
           r <- lift (get_prop suggestion (u "reason")) ;;
           ret (Some (with_reason details (js_or r default_reason)))
     | None => ret None
     end)
    (fun _ => ret None).

(** [suggestionData.slice(0, 5)] followed by [.map]: a [TypeError] unless
    the data is an array. *)
Definition slice_0_5 (suggestionData : value) : completion (list value) :=
  match suggestionData with
  | VArr items => Normal (firstn 5 items)
  | _ => Throw TypeError
  end.

(** [l.filter(s => s !== null)]. *)
Fixpoint non_null {A} (l : list (option A)) : list A :=
  match l with
  | [] => []
  | Some a :: l' => a :: non_null l'
  | None :: l' => non_null l'
  end.

(** The candidates are resolved here one after the other, in the order of
    the array, which is the order of the results of [Promise.all]. *)
Definition getMovieSuggestions (w : World) (cb : callbacks) : M unit :=
  try_catchM
    (call_if_function (on_start cb) LoadStart ;;
     toWatchMovies <- getMovies toWatchList ;;
     watchedMovies <- getMovies watchedList ;;
     let hasMovies :=
       (0 <? List.length toWatchMovies)%nat
       || (0 <? List.length watchedMovies)%nat in
     if negb hasMovies then
       call_if_function (on_complete cb) (LoadComplete [])
     else
       let allMovies := toWatchMovies ++ watchedMovies in
       let existingMovieIds := map imdbID allMovies in
       let existingMovieTitles :=
         map (fun movie => toLowerCase (Title movie)) allMovies in
       let toWatchSample := firstn 5 toWatchMovies in
       let watchedSample := firstn 5 watchedMovies in
       let movieSample := map sample_of (toWatchSample ++ watchedSample) in
       suggestionData <-
         await w 0 (getSuggestions w movieSample existingMovieTitles 5) ;;
       candidates <- lift (slice_0_5 suggestionData) ;;
       suggestionsWithDetails <-
         await w 1 (mapM (resolve_candidate w existingMovieIds) candidates) ;;
       let validSuggestions := non_null suggestionsWithDetails in
       saveSuggestions validSuggestions ;;
       call_if_function (on_complete cb) (LoadComplete validSuggestions))
    (fun error => call_if_function (on_error cb) (OnError error)).

(** What [replaceSuggestion] returns. *)
Inductive replaced :=
| NewSuggestion (m : Movie)
| ReturnedNull
| ReturnedUndefined.

(** [l[i] = x] on a copy of [l], for an index inside [l]. *)
Fixpoint set_index {A} (i : nat) (x : A) (l : list A) : list A :=
  match i, l with
  | _, [] => []
  | O, _ :: l' => x :: l'
  | S i', a :: l' => a :: set_index i' x l'
  end.

Definition not_resolved : error :=
  Error "Could not get movie details for suggestion".

Definition replaceSuggestion (w : World) (id : jsstring) (cb : callbacks)
  : M replaced :=
  try_catchM
    (call_if_function (on_start cb) (ReplaceStart id) ;;
     toWatchMovies <- getMovies toWatchList ;;
     watchedMovies <- getMovies watchedList ;;
     suggestions0 <- getCurrentSuggestions ;;
     let allMovies := toWatchMovies ++ watchedMovies in
     let existingMovieIds := map imdbID allMovies ++ map imdbID suggestions0 in
     let existingMovieTitles :=
       map (fun movie => toLowerCase (Title movie)) allMovies
       ++ map (fun movie => toLowerCase (Title movie)) suggestions0 in
     let movieSample := map sample_of (firstn 10 allMovies) in
     suggestionData <-
       await w 0 (getReplacementSuggestion w movieSample existingMovieTitles) ;;
     title <- lift (get_prop suggestionData (u "title")) ;;
     year <- lift (get_prop suggestionData (u "year")) ;;
     movieDetails <- await w 1 (searchMovieByTitle w title year) ;;
     match movieDetails with
     | Some details =>
         if includes existingMovieIds (imdbID details) then
           call_if_function (on_error cb)
             (OnError (Error "Suggested movie already in lists")) ;;
           ret ReturnedUndefined
         else
           r <- lift (get_prop suggestionData (u "reason")) ;;
           let newSuggestion := with_reason details (js_or r default_reason) in
           currentSuggestions <- getCurrentSuggestions ;;
           match findIndex (has_id id) currentSuggestions with
           | Some index =>
               saveSuggestions (set_index index newSuggestion currentSuggestions) ;;
               call_if_function (on_complete cb)
                 (ReplaceComplete id newSuggestion) ;;
               ret (NewSuggestion newSuggestion)
           | None => throw not_resolved
           end
     | None => throw not_resolved
     end)
    (fun error =>
       call_if_function (on_error cb) (OnError error) ;;
       ret ReturnedNull).

(** * Vocabulary of the properties *)

(** ** Computations that only talk to the services

    The two API modules never touch the store: whatever the store and the
    log, such a computation gives the same outcome, leaves the store alone
    and appends the same requests to the log. *)

Definition empty_store : Store := mkStore (mkMediaData [] [] None [] []) None.

Definition result_of {A} (m : M A) : completion A := fst (fst (m empty_store [])).

Definition calls_of {A} (m : M A) : list event := snd (m empty_store []).

Definition is_request (e : event) : bool :=
  match e with
  | CallMistral _ | CallOmdb _ => true
  | _ => false
  end.

Definition client {A} (m : M A) : Prop :=
  (forall s t, m s t = (result_of m, s, t ++ calls_of m))
  /\ forallb is_request (calls_of m) = true.

(** ** Lists, logs and parsed values *)

Definition ids (l : list Movie) : list jsstring := map imdbID l.

(** The identifiers of the two user lists. *)
Definition list_ids (d : MediaData) : list jsstring :=
  ids (toWatch d ++ watched d).

(** No identifier is in both lists. *)
Definition exclusive (d : MediaData) : Prop :=
  forall id, In id (ids (toWatch d)) -> In id (ids (watched d)) -> False.

(** No identifier occurs twice in the two lists taken together. *)
Definition distinct_ids (d : MediaData) : Prop := NoDup (list_ids d).

(** The record that [markAsWatched] puts in the watched list. *)
Definition rated (rating : option Z) (m : Movie) : Movie :=
  match rating with
  | Some r => with_userRating m (Some r)
  | None => m
  end.

Inductive list_op :=
| MarkWatched (id : jsstring) (rating : option Z)
| MarkUnwatched (id : jsstring).

Definition run_op (o : list_op) : M unit :=
  match o with
  | MarkWatched id rating => markAsWatched id rating
  | MarkUnwatched id => markAsUnwatched id
  end.

Fixpoint run_ops (ops : list list_op) : M unit :=
  match ops with
  | [] => ret tt
  | o :: rest => run_op o ;; run_ops rest
  end.

(** The log records a save, a completion call, an error call. *)
Definition is_save (e : event) : bool :=
  match e with SavedSuggestions _ => true | _ => false end.

Definition is_complete (e : event) : bool :=
  match e with LoadComplete _ | ReplaceComplete _ _ => true | _ => false end.

Definition is_error (e : event) : bool :=
  match e with OnError _ => true | _ => false end.

(** One event if the callback is a function. *)
Definition notified (is_function : bool) (e : event) : list event :=
  if is_function then [e] else [].

(** The groups that every match of an expression has set. *)
Fixpoint sure_groups (r : regex) : list nat :=
  match r with
  | Seq r1 r2 => sure_groups r1 ++ sure_groups r2
  | Group i r1 => i :: sure_groups r1
  | _ => []
  end.

(** Group [i] is set in [cs]. *)
Definition captured (cs : captures) (i : nat) : Prop :=
  exists text, capture cs i = VStr text.

(** A value that carries a title and a year. *)
Definition has_title_year (v : value) : bool :=
  match v with
  | VObj props =>
      match lookup_prop props (u "title"), lookup_prop props (u "year") with
      | VUndefined, _ | _, VUndefined => false
      | _, _ => true
      end
  | _ => false
  end.

(** The outcome of a parsing strategy holds at least one title-year pair. *)
Definition yields_pair (c : completion value) : bool :=
  match c with
  | Normal (VArr items) => existsb has_title_year items
  | Normal v => has_title_year v
  | Throw _ => false
  end.

(** What [getMovieSuggestions] sends from a store: the sample and the
    excluded titles. *)
Definition bulk_sample (d : MediaData) : list SampleEntry :=
  map sample_of (firstn 5 (toWatch d) ++ firstn 5 (watched d)).

Definition bulk_excluded (d : MediaData) : list jsstring :=
  map (fun movie => toLowerCase (Title movie)) (toWatch d ++ watched d).

(** The answer of the suggestion client to that request. *)
Definition bulk_call (w : World) (d : MediaData) : M value :=
  getSuggestions w (bulk_sample d) (bulk_excluded d) 5.

(** What [replaceSuggestion] sends, and the identifiers it excludes: those
    of the two lists and of the current suggestions. *)
Definition single_sample (d : MediaData) : list SampleEntry :=
  map sample_of (firstn 10 (toWatch d ++ watched d)).

Definition single_excluded (d : MediaData) : list jsstring :=
  map (fun movie => toLowerCase (Title movie)) (toWatch d ++ watched d)
  ++ map (fun movie => toLowerCase (Title movie)) (suggestions d).

Definition single_call (w : World) (d : MediaData) : M value :=
  getReplacementSuggestion w (single_sample d) (single_excluded d).

Definition known_ids (d : MediaData) : list jsstring :=
  list_ids d ++ ids (suggestions d).

(** The store after [saveSuggestions(l)]. *)
Definition saved (s : Store) (l : list Movie) : Store :=
  mkStore (set_suggestions (mediaData s) l)
          (Some (set_suggestions (mediaData s) l)).

(** At least one of the two lists is not empty. *)
Definition has_movies (d : MediaData) : bool :=
  (0 <? List.length (toWatch d))%nat || (0 <? List.length (watched d))%nat.

(** A resolved candidate, if any, is not among the known identifiers. *)
Definition fresh (known : list jsstring) (r : option Movie) : Prop :=
  match r with
  | Some m => ~ In (imdbID m) known
  | None => True
  end.

(** The first request of [searchMovieByTitle(title, year)]. *)
Definition title_request (title year : value) : OmdbRequest :=
  let year := match year with VUndefined => VStr [] | _ => year end in
  ByTitle title (if truthy year then Some year else None).

(** ** Concrete stores and worlds for the examples *)

Definition movie (id title year : string) : Movie :=
  mkMovie (u id) (u title) (u year) None None VUndefined.

Definition alien : Movie := movie "tt0078748" "Alien" "1979".
Definition brazil : Movie := movie "tt0088846" "Brazil" "1985".
Definition contact : Movie := movie "tt0118884" "Contact" "1997".
Definition dune : Movie := movie "tt1160419" "Dune" "2021".
Definition heat : Movie := movie "tt0113277" "Heat" "1995".

Definition store_of (tw wd sg : list Movie) : Store :=
  mkStore (mkMediaData tw wd None [] sg) None.

Definition all_callbacks : callbacks := mkCallbacks true true true.

(** A chat completion whose message content is [text]. *)
Definition completion_with (text : jsstring) : fetched MistralBody :=
  Responded (mkResponse true 200%Z (Some (mkMistralBody text))).

(** The metadata service finds [m]. *)
Definition found (m : Movie) : fetched OmdbBody :=
  Responded (mkResponse true 200%Z (Some (mkOmdbBody (u "True") [] None m))).

(** The text of a candidate object with its three members. *)
Definition candidate_text (title year why : string) : jsstring :=
  u "{" ++ q "title" ++ u ": " ++ q title ++ u ", " ++ q "year" ++ u ": "
    ++ q year ++ u ", " ++ q "reason" ++ u ": " ++ q why ++ u "}".

Definition no_interference (i : nat) (s : Store) : Store := s.

(** Both services unreachable. *)
Definition offline : World :=
  mkWorld (fun _ => Rejected) (fun _ => Rejected) no_interference.

(** The metadata service answers every request with status 500 and a body
    that is not JSON. *)
Definition metadata_down : World :=
  mkWorld (fun _ => Rejected)
          (fun _ => Responded (mkResponse false 500%Z None))
          no_interference.

(** The metadata service knows no title: every answer is the not-found
    body. *)
Definition not_found_body : OmdbBody :=
  mkOmdbBody (u "False") (u "Movie not found!") None (movie "" "" "").

Definition nothing_found : World :=
  mkWorld (fun _ => Rejected)
          (fun _ => Responded (mkResponse true 200%Z (Some not_found_body)))
          no_interference.

(** The model proposes Dune twice, under two titles; the metadata service
    resolves both to the same record. *)
Definition twice_dune : World :=
  mkWorld
    (fun _ => completion_with
                (u "[" ++ candidate_text "Dune" "2021" "epic scale" ++ u ", "
                   ++ candidate_text "Dune: Part One" "2021" "desert politics"
                   ++ u "]"))
    (fun _ => found dune)
    no_interference.

(** The two candidates of [twice_dune], parsed. *)
Definition dune_candidates : list value :=
  [ suggestion_object (VStr (u "Dune")) (VStr (u "2021"))
                      (VStr (u "epic scale"));
    suggestion_object (VStr (u "Dune: Part One")) (VStr (u "2021"))
                      (VStr (u "desert politics")) ].

(** The model answers with prose that holds no candidate. *)
Definition no_candidates : World :=
  mkWorld (fun _ => completion_with (u "I cannot recommend anything today."))
          (fun _ => found dune)
          no_interference.

(** The model proposes Dune, as a single object; the metadata service
    finds it. *)
Definition one_dune : World :=
  mkWorld
    (fun _ => completion_with (candidate_text "Dune" "2021" "epic scale"))
    (fun _ => found dune)
    no_interference.

(** The same record twice in the to-watch list, as an imported file can
    have it. *)
Definition alien_twice : Store := store_of [alien; alien] [] [].

Definition dune_suggested : Movie := with_reason dune (VStr (u "epic scale")).

(** * The rest of the application *)

(** ** src/models/mediaData.js: the other list operations *)

Definition list_of (name : listName) (d : MediaData) : list Movie :=
  match name with
  | toWatchList => toWatch d
  | watchedList => watched d
  end.

Definition set_list (name : listName) (d : MediaData) (l : list Movie)
  : MediaData :=
  match name with
  | toWatchList => set_toWatch d l
  | watchedList => set_watched d l
  end.

(** [removeMovie(imdbID, list)].  [details_panel] tells whether the
    document has an element with the id [movie-details]: the last
    statement reads its [classList], a [TypeError] when the element is
    missing. *)
Definition removeMovie (details_panel : bool) (id : jsstring)
           (name : listName) : M unit :=
  d <- read ;;
  match findIndex (has_id id) (list_of name d) with
  | None => ret tt
  | Some movieIndex =>
      write (set_list name d (splice1 movieIndex (list_of name d))) ;;
      saveToLocalStorage ;;
      triggerUIUpdate (Some name) ;;
      d1 <- read ;;
      match selectedMovie d1 with
      | Some sel =>
          if has_id id sel then
            write (set_selectedMovie d1 None) ;;
            if details_panel then ret tt else throw TypeError
          else ret tt
      | None => ret tt
      end
  end.

(** [f] applied to the first element that satisfies [p]: an object found
    with [find] and changed where it stands. *)
Fixpoint update_first {A} (p : A -> bool) (f : A -> A) (l : list A) : list A :=
  match l with
  | [] => []
  | a :: l' => if p a then f a :: l' else a :: update_first p f l'
  end.

(** [updateMovieRating(imdbID, rating)]. *)
Definition updateMovieRating (id : jsstring) (rating : Z) : M unit :=
  d <- read ;;
  match find_first (has_id id) (watched d) with
  | None => ret tt
  | Some movie0 =>
      let movie := with_userRating movie0 (Some rating) in
      write (set_watched d
               (update_first (has_id id)
                             (fun m => with_userRating m (Some rating))
                             (watched d))) ;;
      saveToLocalStorage ;;
      triggerUIUpdate (Some watchedList) ;;
      refresh_selected id movie watchedList
  end.

(** [s.includes(sub)]: [sub] occurs in [s]. *)
Fixpoint String_includes (s sub : jsstring) : bool :=
  match strip_prefix sub s with
  | Some _ => true
  | None =>
      match s with
      | [] => false
      | _ :: s' => String_includes s' sub
      end
  end.



(** Every operation of the module that changes the two lists. *)
Inductive store_op :=
| Add (movie : Movie)
| Watch (id : jsstring) (rating : option Z)
| Unwatch (id : jsstring)
| Remove (details_panel : bool) (id : jsstring) (name : listName)
| Rate (id : jsstring) (rating : Z).

Definition run_store_op (o : store_op) : M unit :=
  match o with
  | Add movie => addToWatchList movie ;; ret tt
  | Watch id rating => markAsWatched id rating
  | Unwatch id => markAsUnwatched id
  | Remove panel id name => removeMovie panel id name
  | Rate id rating => updateMovieRating id rating
  end.

(** A sequence of calls, each made whatever the previous one did: a call
    that throws, as an event handler does, does not stop the page. *)
Fixpoint run_store_ops (ops : list store_op) : M unit :=
  match ops with
  | [] => ret tt
  | o :: rest =>
      try_catchM (run_store_op o) (fun _ => ret tt) ;; run_store_ops rest
  end.

Definition other_list (name : listName) : listName :=
  match name with
  | toWatchList => watchedList
  | watchedList => toWatchList
  end.

(** The selected movie carries the identifier. *)
Definition selected (id : jsstring) (d : MediaData) : bool :=
  match selectedMovie d with
  | Some sel => has_id id sel
  | None => false
  end.

(** The saved blob holds the lists of the page as they are. *)
Definition lists_saved (s : Store) : Prop :=
  exists blob,
    localStorage s = Some blob
    /\ toWatch blob = toWatch (mediaData s)
    /\ watched blob = watched (mediaData s)
    /\ suggestions blob = suggestions (mediaData s).

(** The operations that only move or rate: no record enters or leaves. *)
Definition keeps_records (o : store_op) : bool :=
  match o with
  | Watch _ _ | Unwatch _ | Rate _ _ => true
  | Add _ | Remove _ _ _ => false
  end.

(** The log records a refresh of the lists. *)
Definition is_ui_update (e : event) : bool :=
  match e with UIUpdate _ => true | _ => false end.

(** ** src/api/omdbApi.js: search and enhancement *)

(** The requests of [searchMovies] and [enhanceSearchResults], by their
    query string: [s], [y] and [type], each present when its value is
    truthy; [i=id] with [plot=short]. *)
Inductive CatalogRequest :=
| SearchFor (query year type : option jsstring)
| ShortDetails (id : jsstring).

(** The metadata service, by its answer to each of these requests. *)
Definition Catalog := CatalogRequest -> fetched OmdbBody.

(** A string parameter as appended to the query: absent when empty. *)
Definition if_truthy (s : jsstring) : option jsstring :=
  match s with
  | [] => None
  | _ => Some s
  end.

Definition request_failed (status : Z) : error :=
  Error ("API request failed with status "
           ++ NilZero.string_of_int (Z.to_int status)).

(** [searchMovies(query, options)], with [options.year] and
    [options.type] as strings, empty when absent. *)
Definition searchMovies (catalog : Catalog) (query year type : jsstring)
  : completion (list Movie) :=
  try_catch
    (match catalog (SearchFor (if_truthy query) (if_truthy year)
                              (if_truthy type)) with
     | Rejected => Throw FetchFailed
     | Responded response =>
         if negb (ok response) then Throw (request_failed (status response))
         else
           match json response with
           | None => Throw SyntaxError
           | Some data =>
               if is_True (Response data) then
                 match Search data with
                 | Some results => Normal results
                 | None =>
                     match Title (as_movie data) with
                     | [] => Normal []
                     | _ => Normal [as_movie data]
                     end
                 end
               else Normal []
           end
     end)
    (fun error => Throw error).

(** The callback mapped over the first five results. *)
Definition enhance_one (catalog : Catalog) (movie : Movie) : completion Movie :=
  try_catch
    (match catalog (ShortDetails (imdbID movie)) with
     | Rejected => Throw FetchFailed
     | Responded response =>
         match json response with
         | None => Throw SyntaxError
         | Some details =>
             if is_True (Response details) then Normal (as_movie details)
             else Normal movie
         end
     end)
    (fun _ => Normal movie).

(** [Promise.all] over completions: the first exception, or all the
    values. *)
Fixpoint all_of {A} (l : list (completion A)) : completion (list A) :=
  match l with
  | [] => Normal []
  | Normal a :: l' =>
      match all_of l' with
      | Normal r => Normal (a :: r)
      | Throw e => Throw e
      end
  | Throw e :: _ => Throw e
  end.

Definition enhanceSearchResults (catalog : Catalog) (movies : list Movie)
  : completion (list Movie) :=
  let moviesToEnhance := firstn 5 movies in
  match all_of (map (enhance_one catalog) moviesToEnhance) with
  | Normal enhancedMovies => Normal (enhancedMovies ++ skipn 5 movies)
  | Throw e => Throw e
  end.

(** A service that answers nothing. *)
Definition unreachable : Catalog := fun _ => Rejected.

(** A service that finds [results] for any search and knows the details
    of no title. *)
Definition finds (results : list Movie) : Catalog :=
  fun r =>
    match r with
    | SearchFor _ _ _ =>
        Responded (mkResponse true 200%Z
                     (Some (mkOmdbBody (u "True") [] (Some results)
                                       (movie "" "" ""))))
    | ShortDetails _ =>
        Responded (mkResponse true 200%Z (Some not_found_body))
    end.

(** ** The suggestion service: what a candidate resolves to *)

(** What a candidate resolves to, read off the candidate and the answer of
    the lookup: the record to suggest, if any. *)
Definition resolved_by_lookup (w : World) (known : list jsstring)
           (candidate : value) : option Movie :=
  match get_prop candidate (u "title"), get_prop candidate (u "year"),
        get_prop candidate (u "reason") with
  | Normal title, Normal year, Normal r =>
      match result_of (searchMovieByTitle w title year) with
      | Normal (Some details) =>
          if includes known (imdbID details) then None
          else Some (with_reason details (js_or r default_reason))
      | _ => None
      end
  | _, _, _ => None
  end.

Definition already_in_lists : error := Error "Suggested movie already in lists".

(** ** The buttons of a suggestion card (components/suggestions.js)

    What the two click handlers do to the store; notifications and changes
    to the card are display only.  The handlers start the replacement
    without waiting for it; here it runs to its end. *)





(** ** src/components/ratings.js

    The two variables of the module, passed explicitly; the modal itself is
    display only. *)

Record RatingState := mkRatingState {
  currentMovie : option Movie;
  currentRating : option Z        (* a number; [None] is NaN *)
}.

Definition setRating (value : option Z) (r : RatingState) : RatingState :=
  mkRatingState (currentMovie r) value.

Definition showRatingModal (movie : Movie) (r : RatingState) : RatingState :=
  mkRatingState (Some movie) (Some 0%Z).

Definition hideRatingModal (r : RatingState) : RatingState :=
  mkRatingState None (Some 0%Z).

(** [currentRating > 0]: false for NaN. *)
Definition is_positive (n : option Z) : bool :=
  match n with
  | Some z => (0 <? z)%Z
  | None => false
  end.

Definition saveRating (r : RatingState) : M RatingState :=
  match currentMovie r with
  | None => ret r
  | Some movie =>
      match currentRating r with
      | Some rating =>
          if is_positive (Some rating) then
            let scaledRating := (rating * 2)%Z in
            markAsWatched (imdbID movie) (Some scaledRating)
          else markAsWatched (imdbID movie) (Some 10%Z)
      | None => markAsWatched (imdbID movie) (Some 10%Z)
      end ;;
      ret (hideRatingModal r)
  end.

(** The click on a star whose [data-value] parses to [value], followed by
    the timer it sets. *)
Definition on_star_click (value : option Z) (r : RatingState) : M RatingState :=
  let r1 := setRating value r in
  r2 <- saveRating r1 ;;
  ret (hideRatingModal r2).

(** ** src/utils/uiUtils.js: createStarRating

    The five stars, each filled or not.  [Math.round(rating / 2)] for an
    integer rating: halves round up. *)
Definition round_half (rating : Z) : Z := ((rating + 1) / 2)%Z.

Definition createStarRating (rating : Z) : list bool :=
  let scaledRating := round_half rating in
  map (fun i => (i <=? scaledRating)%Z) [1; 2; 3; 4; 5]%Z.

(** The number of filled stars. *)
Definition filled (stars : list bool) : nat :=
  List.length (filter (fun b => b) stars).

(** ** src/models/mediaData.js: import and loading

    Here the store is the JavaScript object it is, its properties any
    values: nothing in the two functions makes them lists of movies.  As
    above, writing to the local storage succeeds. *)














(** ** src/utils/uiUtils.js: shuffleArray

    [Math.random()] is a sequence of rationals, one per turn of the loop;
    the theorems take them in the interval from 0 to 1, 1 excluded. *)

Definition Q := QArith_base.Q.

(** [Math.floor(r * (i + 1))]. *)
Definition random_index (r : Q) (i : nat) : nat :=
  Z.to_nat (Qround.Qfloor
              (QArith_base.Qmult r (QArith_base.inject_Z (Z.of_nat (i + 1))))).

Definition unit_interval (r : Q) : Prop :=
  QArith_base.Qle (QArith_base.inject_Z 0) r
  /\ QArith_base.Qlt r (QArith_base.inject_Z 1).

(** The destructuring swap of two elements: both are read, then both are
    written.  [None] stands for an index outside the array, where the
    assignment would extend the array with [undefined]. *)
Definition swap {A} (i j : nat) (l : list A) : option (list A) :=
  match nth_error l i, nth_error l j with
  | Some x, Some y => Some (set_index j x (set_index i y l))
  | _, _ => None
  end.

(** The loop, from [i] down to 1. *)
Fixpoint shuffle_from {A} (random : nat -> Q) (i : nat) (newArray : list A)
  : option (list A) :=
  match i with
  | O => Some newArray
  | S i' =>
      let j := random_index (random i) i in
      match swap i j newArray with
      | Some swapped => shuffle_from random i' swapped
      | None => None
      end
  end.

Definition shuffleArray {A} (random : nat -> Q) (array : list A)
  : option (list A) :=
  shuffle_from random (List.length array - 1) array.

(** * Properties *)

(** ** Computations that only talk to the services *)

Lemma client_intro {A} (m : M A) (c : completion A) (evs : list event) :
  (forall s t, m s t = (c, s, t ++ evs)) ->
  forallb is_request evs = true ->
  client m.
Proof.
  intros Hrun Hreq.
  assert (Hc : result_of m = c) by (unfold result_of; now rewrite Hrun).
  assert (He : calls_of m = evs) by (unfold calls_of; now rewrite Hrun).
  split; [intros s t; now rewrite Hc, He | now rewrite He].
Qed.

Lemma client_run {A} (m : M A) :
  client m -> forall s t, m s t = (result_of m, s, t ++ calls_of m).
Proof. now intros [H _]. Qed.

Lemma client_ret {A} (a : A) : client (ret a).
Proof.
  apply client_intro with (c := Normal a) (evs := []); [|reflexivity].
  intros s t. unfold ret. now rewrite app_nil_r.
Qed.

Lemma client_throw {A} (e : error) : client (@throw A e).
Proof.
  apply client_intro with (c := Throw e) (evs := []); [|reflexivity].
  intros s t. unfold throw. now rewrite app_nil_r.
Qed.

Lemma client_lift {A} (c : completion A) : client (lift c).
Proof.
  apply client_intro with (c := c) (evs := []); [|reflexivity].
  intros s t. unfold lift. now rewrite app_nil_r.
Qed.

Lemma client_bind {A B} (m : M A) (k : A -> M B) :
  client m -> (forall a, client (k a)) -> client (bind m k).
Proof.
  intros [Hm Hmr] Hk.
  destruct (result_of m) as [a|e] eqn:Er.
  - destruct (Hk a) as [Hka Hkr].
    apply client_intro
      with (c := result_of (k a)) (evs := calls_of m ++ calls_of (k a)).
    + intros s t. unfold bind. rewrite Hm, ?Er, Hka. now rewrite app_assoc.
    + rewrite forallb_app, Hmr, Hkr. reflexivity.
  - apply client_intro with (c := Throw e) (evs := calls_of m); [|exact Hmr].
    intros s t. unfold bind. now rewrite Hm, ?Er.
Qed.

Lemma client_try {A} (m : M A) (h : error -> M A) :
  client m -> (forall e, client (h e)) -> client (try_catchM m h).
Proof.
  intros [Hm Hmr] Hh.
  destruct (result_of m) as [a|e] eqn:Er.
  - apply client_intro with (c := Normal a) (evs := calls_of m); [|exact Hmr].
    intros s t. unfold try_catchM. now rewrite Hm, ?Er.
  - destruct (Hh e) as [Hhe Hhr].
    apply client_intro
      with (c := result_of (h e)) (evs := calls_of m ++ calls_of (h e)).
    + intros s t. unfold try_catchM. rewrite Hm, ?Er, Hhe. now rewrite app_assoc.
    + rewrite forallb_app, Hmr, Hhr. reflexivity.
Qed.

Lemma client_mapM {A B} (f : A -> M B) (l : list A) :
  (forall a, client (f a)) -> client (mapM f l).
Proof.
  intros Hf. induction l as [|a l IH]; simpl.
  - apply client_ret.
  - apply client_bind; [apply Hf|]. intros b.
    apply client_bind; [apply IH|]. intros bs. apply client_ret.
Qed.

Lemma client_fetch_omdb (w : World) (r : OmdbRequest) : client (fetch_omdb w r).
Proof.
  unfold fetch_omdb.
  destruct (omdb w r) as [|resp].
  - apply client_intro with (c := Throw FetchFailed) (evs := [CallOmdb r]);
      [|reflexivity].
    intros s t. reflexivity.
  - apply client_intro with (c := Normal resp) (evs := [CallOmdb r]);
      [|reflexivity].
    intros s t. reflexivity.
Qed.

Lemma client_fetch_mistral (w : World) (r : MistralRequest) :
  client (fetch_mistral w r).
Proof.
  unfold fetch_mistral.
  destruct (mistral w r) as [|resp].
  - apply client_intro with (c := Throw FetchFailed) (evs := [CallMistral r]);
      [|reflexivity].
    intros s t. reflexivity.
  - apply client_intro with (c := Normal resp) (evs := [CallMistral r]);
      [|reflexivity].
    intros s t. reflexivity.
Qed.

Lemma client_response_json {B} (resp : response B) : client (response_json resp).
Proof.
  unfold response_json. destruct (json resp); [apply client_ret | apply client_throw].
Qed.

Create HintDb client discriminated.
#[export] Hint Resolve client_ret client_throw client_lift client_fetch_omdb
  client_fetch_mistral client_response_json : client.

Ltac client_step :=
  match goal with
  | |- client (bind _ _) => apply client_bind; [|intros ?]
  | |- client (try_catchM _ _) => apply client_try; [|intros ?]
  | |- client (mapM _ _) => apply client_mapM; intros ?
  | |- client (if ?b then _ else _) => destruct b
  | |- client (match ?x with _ => _ end) => destruct x
  | |- client _ => solve [auto with client]
  end.

Lemma client_searchMovieByTitle (w : World) (title year : value) :
  client (searchMovieByTitle w title year).
Proof. unfold searchMovieByTitle. repeat client_step. Qed.

Lemma client_fetchMovieDetails (w : World) (id : jsstring) :
  client (fetchMovieDetails w id).
Proof. unfold fetchMovieDetails. repeat client_step. Qed.

Lemma client_getSuggestions (w : World) sample titles count :
  client (getSuggestions w sample titles count).
Proof. unfold getSuggestions. repeat client_step. Qed.

Lemma client_getReplacementSuggestion (w : World) sample titles :
  client (getReplacementSuggestion w sample titles).
Proof. unfold getReplacementSuggestion. repeat client_step. Qed.

Lemma client_resolve_candidate (w : World) ids suggestion :
  client (resolve_candidate w ids suggestion).
Proof.
  unfold resolve_candidate.
  repeat (client_step || apply client_searchMovieByTitle).
Qed.

(** ** Strings *)

Lemma str_eqb_eq (a b : jsstring) : str_eqb a b = true <-> a = b.
Proof.
  revert b. induction a as [|x a IH]; intros [|y b]; simpl; split;
    try congruence; try reflexivity.
  - intros H. apply andb_true_iff in H as [Hx Hab].
    apply N.eqb_eq in Hx. apply IH in Hab. congruence.
  - intros H. injection H as -> ->. rewrite N.eqb_refl. simpl. now apply IH.
Qed.

Lemma str_eqb_refl (a : jsstring) : str_eqb a a = true.
Proof. now apply str_eqb_eq. Qed.

Lemma str_eqb_neq (a b : jsstring) : str_eqb a b = false <-> a <> b.
Proof.
  split.
  - intros H E. apply str_eqb_eq in E. congruence.
  - intros H. destruct (str_eqb a b) eqn:E; [|reflexivity].
    apply str_eqb_eq in E. contradiction.
Qed.

Lemma includes_In (l : list jsstring) (id : jsstring) :
  includes l id = true <-> In id l.
Proof.
  unfold includes. rewrite existsb_exists. split.
  - intros [x [Hin Heq]]. apply str_eqb_eq in Heq. now subst.
  - intros Hin. exists id. split; [assumption | apply str_eqb_refl].
Qed.

Lemma includes_not_In (l : list jsstring) (id : jsstring) :
  includes l id = false <-> ~ In id l.
Proof.
  rewrite <- includes_In. destruct (includes l id); split; congruence.
Qed.

(** ** getMovieSuggestions without any movie *)

Lemma getMovieSuggestions_empty_run (w : World) (cb : callbacks) (s : Store)
      (t : list event) :
  toWatch (mediaData s) = [] ->
  watched (mediaData s) = [] ->
  getMovieSuggestions w cb s t
  = (Normal tt, s,
     t ++ notified (on_start cb) LoadStart
       ++ notified (on_complete cb) (LoadComplete [])).
Proof.
  intros Htw Hwd.
  unfold getMovieSuggestions, try_catchM, bind, call_if_function, getMovies,
    read, ret, emit, notified.
  destruct (on_start cb), (on_complete cb); simpl; rewrite Htw, Hwd; simpl;
    rewrite <- ?app_assoc, ?app_nil_r; reflexivity.
Qed.

(** C7: with both lists empty, [getMovieSuggestions] hands the empty list to
    the completion callback and returns; its log holds no request to the
    suggestion service or to the metadata service and no call of the error
    callback. *)
Theorem getMovieSuggestions_no_input (w : World) (cb : callbacks) (s : Store)
        (t : list event) :
  toWatch (mediaData s) = [] ->
  watched (mediaData s) = [] ->
  exists calls,
    getMovieSuggestions w cb s t = (Normal tt, s, t ++ calls)
    /\ calls = notified (on_start cb) LoadStart
               ++ notified (on_complete cb) (LoadComplete [])
    /\ existsb is_request calls = false
    /\ existsb is_error calls = false.
Proof.
  intros Htw Hwd. eexists. split; [now apply getMovieSuggestions_empty_run|].
  split; [reflexivity|].
  destruct (on_start cb), (on_complete cb); split; reflexivity.
Qed.

Lemma getMovieSuggestions_no_input_witness :
  exists calls,
    getMovieSuggestions offline all_callbacks (store_of [] [] [heat]) [] 
    = (Normal tt, store_of [] [] [heat], [] ++ calls)
    /\ calls = [LoadStart; LoadComplete []]
    /\ existsb is_request calls = false
    /\ existsb is_error calls = false.
Proof.
  apply (getMovieSuggestions_no_input offline all_callbacks
           (store_of [] [] [heat]) []); reflexivity.
Defined.

(** C10: with both lists empty, [getMovieSuggestions] leaves the store as
    it was, the stored suggestions and the saved blob included:
    [saveSuggestions] is not called, though the completion callback
    receives an empty list. *)
Theorem getMovieSuggestions_no_input_frame (w : World) (cb : callbacks)
        (s : Store) (t : list event) :
  toWatch (mediaData s) = [] ->
  watched (mediaData s) = [] ->
  let '(_, s', t') := getMovieSuggestions w cb s t in
  s' = s
  /\ suggestions (mediaData s') = suggestions (mediaData s)
  /\ localStorage s' = localStorage s
  /\ (exists calls, t' = t ++ calls /\ existsb is_save calls = false)
  /\ (on_complete cb = true -> In (LoadComplete []) t').
Proof.
  intros Htw Hwd. rewrite getMovieSuggestions_empty_run by assumption.
  repeat split.
  - eexists. split; [reflexivity|].
    destruct (on_start cb), (on_complete cb); reflexivity.
  - intros ->. rewrite !in_app_iff. right. right. simpl. now left.
Qed.

Lemma getMovieSuggestions_no_input_frame_witness :
  let '(_, s', t') :=
    getMovieSuggestions twice_dune all_callbacks (store_of [] [] [heat]) [] in
  s' = store_of [] [] [heat]
  /\ suggestions (mediaData s') = [heat]
  /\ localStorage s' = None
  /\ (exists calls, t' = [] ++ calls /\ existsb is_save calls = false)
  /\ (true = true -> In (LoadComplete []) t').
Proof.
  apply (getMovieSuggestions_no_input_frame twice_dune all_callbacks
           (store_of [] [] [heat]) []); reflexivity.
Defined.

(** ** Arrays *)

Lemma findIndex_split {A} (p : A -> bool) (l : list A) (i : nat) :
  findIndex p l = Some i ->
  exists pre x post,
    l = pre ++ x :: post
    /\ List.length pre = i
    /\ p x = true
    /\ Forall (fun y => p y = false) pre
    /\ nth_error l i = Some x
    /\ splice1 i l = pre ++ post
    /\ (forall z, set_index i z l = pre ++ z :: post).
Proof.
  revert i. induction l as [|a l IH]; intros i H; simpl in H; [discriminate|].
  destruct (p a) eqn:Pa.
  - injection H as <-. exists [], a, l. repeat split; auto.
  - destruct (findIndex p l) as [j|] eqn:Fj; simpl in H; [|discriminate].
    injection H as <-.
    destruct (IH j eq_refl)
      as (pre & x & post & -> & Hlen & Px & Hpre & Hnth & Hsp & Hset).
    exists (a :: pre), x, post. simpl. repeat split; auto.
    + now rewrite <- Hsp.
    + intros z. now rewrite Hset.
Qed.

Lemma findIndex_None {A} (p : A -> bool) (l : list A) :
  findIndex p l = None <-> Forall (fun y => p y = false) l.
Proof.
  induction l as [|a l IH]; simpl.
  - split; auto.
  - destruct (p a) eqn:Pa.
    + split; [discriminate|]. intros H. inversion H; congruence.
    + destruct (findIndex p l); simpl.
      * split; [discriminate|]. intros H. inversion H; subst.
        match goal with X : Forall _ l |- _ => apply IH in X; discriminate end.
      * split; auto. intros _. constructor; auto. now apply IH.
Qed.

Lemma has_id_true (id : jsstring) (m : Movie) :
  has_id id m = true <-> imdbID m = id.
Proof. apply str_eqb_eq. Qed.

Lemma has_id_none (id : jsstring) (l : list Movie) :
  Forall (fun y => has_id id y = false) l <-> ~ In id (ids l).
Proof.
  unfold ids. induction l as [|a l IH]; simpl.
  - split; auto.
  - split.
    + intros H. inversion H as [|? ? Ha Hl]; subst.
      apply str_eqb_neq in Ha. apply IH in Hl. intros [E|E]; auto.
    + intros H. constructor.
      * apply str_eqb_neq. intros E. apply H. now left.
      * apply IH. intros E. apply H. now right.
Qed.

(** ** The two moves between the lists *)

Lemma imdbID_rated (rating : option Z) (m : Movie) :
  imdbID (rated rating m) = imdbID m.
Proof. now destruct rating. Qed.

(** What [markAsWatched] does: nothing when the identifier is not in the
    to-watch list; otherwise the first record with that identifier leaves
    the to-watch list and heads the watched list. *)
Lemma markAsWatched_run (id : jsstring) (rating : option Z) (s : Store)
      (t : list event) :
  exists s' t',
    markAsWatched id rating s t = (Normal tt, s', t')
    /\ ((~ In id (ids (toWatch (mediaData s))) /\ s' = s /\ t' = t)
        \/ (exists pre m post,
              toWatch (mediaData s) = pre ++ m :: post
              /\ imdbID m = id
              /\ ~ In id (ids pre)
              /\ toWatch (mediaData s') = pre ++ post
              /\ watched (mediaData s') = rated rating m :: watched (mediaData s)
              /\ suggestions (mediaData s') = suggestions (mediaData s))).
Proof.
  unfold markAsWatched, bind, read.
  destruct (findIndex (has_id id) (toWatch (mediaData s))) as [i|] eqn:Fi.
  - destruct (findIndex_split _ _ _ Fi)
      as (pre & m & post & Hl & Hlen & Pm & Hpre & Hnth & Hsp & _).
    apply has_id_true in Pm. apply has_id_none in Hpre.
    rewrite Hnth.
    unfold write, saveToLocalStorage, triggerUIUpdate, emit, refresh_selected,
      bind, read, ret. simpl.
    destruct (selectedMovie (mediaData s)) as [sel|];
      [destruct (has_id id sel)|]; simpl;
      (do 2 eexists; split; [reflexivity|]; right; exists pre, m, post; simpl;
       rewrite Hsp; repeat split; auto).
  - apply findIndex_None, has_id_none in Fi.
    exists s, t. split; [reflexivity|]. now left.
Qed.

(** The same for [markAsUnwatched], from the watched list to the head of
    the to-watch list, the rating removed. *)
Lemma markAsUnwatched_run (id : jsstring) (s : Store) (t : list event) :
  exists s' t',
    markAsUnwatched id s t = (Normal tt, s', t')
    /\ ((~ In id (ids (watched (mediaData s))) /\ s' = s /\ t' = t)
        \/ (exists pre m post,
              watched (mediaData s) = pre ++ m :: post
              /\ imdbID m = id
              /\ ~ In id (ids pre)
              /\ watched (mediaData s') = pre ++ post
              /\ toWatch (mediaData s')
                 = with_userRating m None :: toWatch (mediaData s)
              /\ suggestions (mediaData s') = suggestions (mediaData s))).
Proof.
  unfold markAsUnwatched, bind, read.
  destruct (findIndex (has_id id) (watched (mediaData s))) as [i|] eqn:Fi.
  - destruct (findIndex_split _ _ _ Fi)
      as (pre & m & post & Hl & Hlen & Pm & Hpre & Hnth & Hsp & _).
    apply has_id_true in Pm. apply has_id_none in Hpre.
    rewrite Hnth.
    unfold write, saveToLocalStorage, triggerUIUpdate, emit, refresh_selected,
      bind, read, ret. simpl.
    destruct (selectedMovie (mediaData s)) as [sel|];
      [destruct (has_id id sel)|]; simpl;
      (do 2 eexists; split; [reflexivity|]; right; exists pre, m, post; simpl;
       rewrite Hsp; repeat split; auto).
  - apply findIndex_None, has_id_none in Fi.
    exists s, t. split; [reflexivity|]. now left.
Qed.

Lemma NoDup_app_disjoint {A} (l1 l2 : list A) :
  NoDup (l1 ++ l2) -> forall x, In x l1 -> In x l2 -> False.
Proof.
  induction l1 as [|a l1 IH]; simpl; intros H x H1 H2; [contradiction|].
  inversion H as [|? ? Hnot Hrest]; subst. destruct H1 as [->|H1].
  - apply Hnot. apply in_or_app. now right.
  - now apply (IH Hrest x).
Qed.

Lemma distinct_exclusive (d : MediaData) : distinct_ids d -> exclusive d.
Proof.
  unfold distinct_ids, exclusive, list_ids, ids. rewrite map_app.
  intros H id. now apply NoDup_app_disjoint.
Qed.

Lemma move_keeps_distinct (pre post other : list jsstring) (id : jsstring) :
  NoDup ((pre ++ id :: post) ++ other) ->
  NoDup ((pre ++ post) ++ id :: other)
  /\ NoDup ((id :: other) ++ pre ++ post).
Proof.
  intros H.
  assert (P : Permutation ((pre ++ id :: post) ++ other)
                          (id :: (pre ++ post) ++ other)).
  { rewrite <- !app_assoc. simpl. symmetry. apply Permutation_middle. }
  apply (Permutation_NoDup P) in H. split.
  - apply (Permutation_NoDup (Permutation_middle _ _ _) H).
  - simpl. eapply Permutation_NoDup; [|exact H].
    constructor. apply Permutation_app_comm.
Qed.

Lemma run_op_distinct (o : list_op) (s : Store) (t : list event) :
  distinct_ids (mediaData s) ->
  exists s' t', run_op o s t = (Normal tt, s', t')
                /\ distinct_ids (mediaData s').
Proof.
  unfold distinct_ids, list_ids, ids. intros H.
  destruct o as [id rating|id]; simpl.
  - destruct (markAsWatched_run id rating s t) as (s' & t' & Hrun & Hcase).
    exists s', t'. split; [exact Hrun|].
    destruct Hcase as [(_ & -> & _)|(pre & m & post & Htw & Hid & _ & Htw' & Hwd' & _)];
      [exact H|].
    rewrite Htw', Hwd'. rewrite Htw in H.
    rewrite !map_app in *. simpl in *. rewrite imdbID_rated.
    now apply move_keeps_distinct.
  - destruct (markAsUnwatched_run id s t) as (s' & t' & Hrun & Hcase).
    exists s', t'. split; [exact Hrun|].
    destruct Hcase as [(_ & -> & _)|(pre & m & post & Hwd & Hid & _ & Hwd' & Htw' & _)];
      [exact H|].
    rewrite Htw', Hwd'. rewrite Hwd in H.
    rewrite !map_app in *. simpl in *.
    apply (Permutation_NoDup (Permutation_app_comm _ _)) in H.
    apply move_keeps_distinct in H as [_ H].
    exact H.
Qed.

(** Insertion keeps the identifiers distinct: [addToWatchList] refuses a
    movie whose identifier is in one of the lists. *)
Lemma addToWatchList_distinct (movie : Movie) (s : Store) (t : list event) :
  distinct_ids (mediaData s) ->
  exists added s' t',
    addToWatchList movie s t = (Normal added, s', t')
    /\ distinct_ids (mediaData s')
    /\ (added = false -> s' = s).
Proof.
  unfold distinct_ids, list_ids, ids. intros H.
  unfold addToWatchList, findMovieInLists, find_first, bind, read, ret.
  destruct (find (has_id (imdbID movie)) (toWatch (mediaData s))) eqn:Etw;
    simpl; [exists false, s, t; now repeat split|].
  destruct (find (has_id (imdbID movie)) (watched (mediaData s))) eqn:Ewd;
    simpl; [exists false, s, t; now repeat split|].
  do 3 eexists. split; [reflexivity|]. split; [|discriminate].
  simpl. constructor; [|exact H].
  rewrite map_app, in_app_iff. intros [Hin|Hin];
    apply in_map_iff in Hin as (m & Hid & Hm).
  - apply (find_none _ _ Etw) in Hm. apply str_eqb_neq in Hm. contradiction.
  - apply (find_none _ _ Ewd) in Hm. apply str_eqb_neq in Hm. contradiction.
Qed.

Lemma run_ops_distinct (ops : list list_op) (s : Store) (t : list event) :
  distinct_ids (mediaData s) ->
  exists s' t', run_ops ops s t = (Normal tt, s', t')
                /\ distinct_ids (mediaData s').
Proof.
  revert s t. induction ops as [|o ops IH]; intros s t H; simpl.
  - exists s, t. now split.
  - destruct (run_op_distinct o s t H) as (s1 & t1 & Hrun & H1).
    destruct (IH s1 t1 H1) as (s2 & t2 & Hrest & H2).
    exists s2, t2. split; [|exact H2].
    unfold bind. now rewrite Hrun.
Qed.

(** C8, as amended: from a store in which no identifier occurs twice in the
    two lists taken together, every sequence of [markAsWatched] and
    [markAsUnwatched] runs to the end and leaves a store with the same
    property, so that no identifier is in both lists; and each operation
    either does nothing (identifier absent from the source list) or takes
    the first record with that identifier out of the source list and puts
    it at the head of the other. *)
Theorem moves_keep_lists_exclusive (s : Store) (t : list event) :
  distinct_ids (mediaData s) ->
  (forall ops, exists s' t',
      run_ops ops s t = (Normal tt, s', t')
      /\ distinct_ids (mediaData s')
      /\ exclusive (mediaData s'))
  /\ (forall id rating, exists s' t',
         markAsWatched id rating s t = (Normal tt, s', t')
         /\ ((~ In id (ids (toWatch (mediaData s))) /\ s' = s /\ t' = t)
             \/ (exists pre m post,
                    toWatch (mediaData s) = pre ++ m :: post
                    /\ imdbID m = id
                    /\ ~ In id (ids pre)
                    /\ toWatch (mediaData s') = pre ++ post
                    /\ watched (mediaData s')
                       = rated rating m :: watched (mediaData s))))
  /\ (forall id, exists s' t',
         markAsUnwatched id s t = (Normal tt, s', t')
         /\ ((~ In id (ids (watched (mediaData s))) /\ s' = s /\ t' = t)
             \/ (exists pre m post,
                    watched (mediaData s) = pre ++ m :: post
                    /\ imdbID m = id
                    /\ ~ In id (ids pre)
                    /\ watched (mediaData s') = pre ++ post
                    /\ toWatch (mediaData s')
                       = with_userRating m None :: toWatch (mediaData s)))).
Proof.
  intros H. repeat split.
  - intros ops. destruct (run_ops_distinct ops s t H) as (s' & t' & Hrun & H').
    exists s', t'. repeat split; auto using distinct_exclusive.
  - intros id rating.
    destruct (markAsWatched_run id rating s t) as (s' & t' & Hrun & Hcase).
    exists s', t'. split; [exact Hrun|].
    destruct Hcase as [?|(pre & m & post & ? & ? & ? & ? & ? & _)];
      [now left|right]. now exists pre, m, post.
  - intros id.
    destruct (markAsUnwatched_run id s t) as (s' & t' & Hrun & Hcase).
    exists s', t'. split; [exact Hrun|].
    destruct Hcase as [?|(pre & m & post & ? & ? & ? & ? & ? & _)];
      [now left|right]. now exists pre, m, post.
Qed.

Lemma moves_keep_lists_exclusive_witness :
  distinct_ids (mediaData (store_of [alien; contact] [brazil] []))
  /\ forall ops, exists s' t',
      run_ops ops (store_of [alien; contact] [brazil] []) []
      = (Normal tt, s', t')
      /\ distinct_ids (mediaData s')
      /\ exclusive (mediaData s').
Proof.
  assert (H : distinct_ids (mediaData (store_of [alien; contact] [brazil] []))).
  { unfold distinct_ids. repeat constructor; simpl; intuition discriminate. }
  split; [exact H|].
  exact (proj1 (moves_keep_lists_exclusive
                  (store_of [alien; contact] [brazil] []) [] H)).
Defined.

(** C8 as stated fails: with the same identifier twice in the to-watch
    list, no identifier is in both lists, and one [markAsWatched] later it
    is in both. *)
Lemma exclusive_not_preserved :
  exclusive (mediaData alien_twice)
  /\ exists s' t',
      run_ops [MarkWatched (imdbID alien) None] alien_twice []
      = (Normal tt, s', t')
      /\ toWatch (mediaData s') = [alien]
      /\ watched (mediaData s') = [alien]
      /\ ~ exclusive (mediaData s').
Proof.
  split.
  - intros id _ H. exact H.
  - do 2 eexists. split; [cbv; reflexivity|]. split; [reflexivity|].
    split; [reflexivity|].
    intros H. apply (H (imdbID alien)); simpl; now left.
Qed.

(** ** The metadata client *)

Lemma client_result {A} (m : M A) (s : Store) (t : list event) :
  client m -> exists calls, m s t = (result_of m, s, t ++ calls).
Proof. intros [H _]. exists (calls_of m). apply H. Qed.

Lemma searchMovieByTitle_total (w : World) (title year : value) :
  exists r, result_of (searchMovieByTitle w title year) = Normal r.
Proof.
  unfold result_of, searchMovieByTitle, try_catchM, bind, fetch_omdb, emit,
    response_json, ret, throw.
  destruct (omdb w _) as [|r1]; simpl; [now eexists|].
  destruct (json r1) as [data|]; simpl; [|now eexists].
  destruct (is_True (Response data)); simpl; [now eexists|].
  destruct (omdb w (BySearch title)) as [|r2]; simpl; [now eexists|].
  destruct (json r2) as [searchData|]; simpl; [|now eexists].
  destruct (is_True (Response searchData)); simpl; [|now eexists].
  destruct (Search searchData) as [[|firstResult rest]|]; simpl;
    try now eexists.
  destruct (omdb w (ById _ false)) as [|r3]; simpl; [now eexists|].
  destruct (json r3) as [details|]; simpl; now eexists.
Qed.

Lemma fetchMovieDetails_result (w : World) (id : jsstring) :
  result_of (fetchMovieDetails w id)
  = Normal match omdb w (ById id true) with
           | Rejected => None
           | Responded r =>
               match json r with
               | None => None
               | Some data =>
                   if is_False (Response data) then None
                   else Some (as_movie data)
               end
           end.
Proof.
  unfold result_of, fetchMovieDetails, try_catchM, bind, fetch_omdb, emit,
    response_json, ret, throw.
  destruct (omdb w _) as [|r1]; simpl; [reflexivity|].
  destruct (json r1) as [data|]; simpl; [|reflexivity].
  destruct (is_False (Response data)); reflexivity.
Qed.

Lemma searchMovieByTitle_first_failed (w : World) (title year : value) :
  match omdb w (title_request title year) with
  | Rejected => True
  | Responded r => json r = None
  end ->
  result_of (searchMovieByTitle w title year) = Normal None.
Proof.
  unfold title_request, result_of, searchMovieByTitle, try_catchM, bind,
    fetch_omdb, emit, response_json, ret, throw.
  destruct (omdb w _) as [|r1]; simpl; [reflexivity|].
  intros H. cbv beta iota. rewrite H. reflexivity.
Qed.

Lemma searchMovieByTitle_not_found (w : World) (title year : value)
      (r1 r2 : response OmdbBody) (data searchData : OmdbBody) :
  omdb w (title_request title year) = Responded r1 ->
  json r1 = Some data ->
  is_True (Response data) = false ->
  omdb w (BySearch title) = Responded r2 ->
  json r2 = Some searchData ->
  is_True (Response searchData) = false ->
  result_of (searchMovieByTitle w title year) = Normal None.
Proof.
  unfold title_request, result_of, searchMovieByTitle, try_catchM, bind,
    fetch_omdb, emit, response_json, ret, throw.
  intros H1 H2 H3 H4 H5 H6.
  rewrite H1. simpl. rewrite H2. simpl. rewrite H3. simpl.
  rewrite H4. simpl. rewrite H5. simpl. rewrite H6. reflexivity.
Qed.

(** C9, as amended: the two lookups never raise.  Whatever the service
    does, [searchMovieByTitle] and [fetchMovieDetails] complete normally and
    leave the store alone; a rejected request and a response whose body
    cannot be read give [null], as a not-found answer does (for
    [searchMovieByTitle]: not found by title and by search). *)
Theorem metadata_lookups_never_throw (w : World) :
  (forall title year s t, exists r calls,
      searchMovieByTitle w title year s t = (Normal r, s, t ++ calls))
  /\ (forall id s t, exists r calls,
         fetchMovieDetails w id s t = (Normal r, s, t ++ calls))
  /\ (forall title year,
         match omdb w (title_request title year) with
         | Rejected => True
         | Responded r => json r = None
         end ->
         result_of (searchMovieByTitle w title year) = Normal None)
  /\ (forall title year r1 r2 data searchData,
         omdb w (title_request title year) = Responded r1 ->
         json r1 = Some data ->
         is_True (Response data) = false ->
         omdb w (BySearch title) = Responded r2 ->
         json r2 = Some searchData ->
         is_True (Response searchData) = false ->
         result_of (searchMovieByTitle w title year) = Normal None)
  /\ (forall id,
         match omdb w (ById id true) with
         | Rejected => True
         | Responded r =>
             match json r with
             | None => True
             | Some data => is_False (Response data) = true
             end
         end ->
         result_of (fetchMovieDetails w id) = Normal None).
Proof.
  repeat split.
  - intros title year s t.
    destruct (searchMovieByTitle_total w title year) as [r Hr].
    destruct (client_result _ s t (client_searchMovieByTitle w title year))
      as [calls Hrun].
    exists r, calls. now rewrite Hrun, Hr.
  - intros id s t.
    destruct (client_result _ s t (client_fetchMovieDetails w id))
      as [calls Hrun].
    rewrite fetchMovieDetails_result in Hrun. eauto.
  - apply searchMovieByTitle_first_failed.
  - intros. eapply searchMovieByTitle_not_found; eassumption.
  - intros id H. rewrite fetchMovieDetails_result.
    destruct (omdb w (ById id true)) as [|r]; [reflexivity|].
    destruct (json r) as [data|]; [|reflexivity]. now rewrite H.
Qed.

Lemma metadata_lookups_never_throw_witness :
  result_of (searchMovieByTitle offline (VStr (u "Dune")) (VStr (u "2021")))
  = Normal None
  /\ result_of (searchMovieByTitle nothing_found (VStr (u "Dune")) VUndefined)
     = Normal None
  /\ result_of (fetchMovieDetails nothing_found (u "tt1160419")) = Normal None.
Proof.
  split; [|split].
  - apply (proj1 (proj2 (proj2 (metadata_lookups_never_throw offline)))).
    exact I.
  - apply (proj1 (proj2 (proj2 (proj2
             (metadata_lookups_never_throw nothing_found))))
             (VStr (u "Dune")) VUndefined
             (mkResponse true 200%Z (Some not_found_body))
             (mkResponse true 200%Z (Some not_found_body))
             not_found_body not_found_body); reflexivity.
  - apply (proj2 (proj2 (proj2 (proj2
             (metadata_lookups_never_throw nothing_found))))).
    reflexivity.
Defined.

(** C9 as stated fails: with the network down, and with the service
    answering 500, both lookups return [null] and nothing is raised. *)
Lemma metadata_failure_returns_null :
  omdb offline (title_request (VStr (u "Dune")) (VStr (u "2021"))) = Rejected
  /\ searchMovieByTitle offline (VStr (u "Dune")) (VStr (u "2021"))
                        empty_store []
     = (Normal None, empty_store,
        [CallOmdb (ByTitle (VStr (u "Dune")) (Some (VStr (u "2021"))))])
  /\ fetchMovieDetails offline (u "tt1160419") empty_store []
     = (Normal None, empty_store, [CallOmdb (ById (u "tt1160419") true)])
  /\ result_of (searchMovieByTitle metadata_down (VStr (u "Dune"))
                                   (VStr (u "2021"))) = Normal None
  /\ result_of (fetchMovieDetails metadata_down (u "tt1160419")) = Normal None.
Proof. repeat split. Qed.

(** ** The two operations of the suggestion service, run symbolically *)

Lemma call_if_function_run (b : bool) (e : event) (s : Store) (t : list event) :
  call_if_function b e s t = (Normal tt, s, t ++ notified b e).
Proof.
  destruct b; unfold call_if_function, emit, ret, notified; simpl;
    now rewrite ?app_nil_r.
Qed.

Lemma replaceSuggestion_run (w : World) (id : jsstring) (cb : callbacks)
      (s : Store) (t : list event) :
  replaceSuggestion w id cb s t
  = let d := mediaData s in
    let s1 := interference w 0 s in
    let s2 := interference w 1 s1 in
    let t1 := t ++ notified (on_start cb) (ReplaceStart id)
                ++ calls_of (single_call w d) in
    let failed e st tr :=
      (Normal ReturnedNull, st, tr ++ notified (on_error cb) (OnError e)) in
    match result_of (single_call w d) with
    | Throw e => failed e s1 t1
    | Normal suggestionData =>
        match get_prop suggestionData (u "title"),
              get_prop suggestionData (u "year"),
              get_prop suggestionData (u "reason") with
        | Normal title, Normal year, Normal r =>
            let lookup := searchMovieByTitle w title year in
            let t2 := t1 ++ calls_of lookup in
            match result_of lookup with
            | Throw e => failed e s2 t2
            | Normal None => failed not_resolved s2 t2
            | Normal (Some details) =>
                if includes (known_ids d) (imdbID details) then
                  (Normal ReturnedUndefined, s2,
                   t2 ++ notified (on_error cb)
                           (OnError (Error "Suggested movie already in lists")))
                else
                  let newSuggestion :=
                    with_reason details (js_or r default_reason) in
                  match findIndex (has_id id) (suggestions (mediaData s2)) with
                  | None => failed not_resolved s2 t2
                  | Some index =>
                      let updated :=
                        set_index index newSuggestion
                                  (suggestions (mediaData s2)) in
                      (Normal (NewSuggestion newSuggestion), saved s2 updated,
                       t2 ++ [SavedSuggestions updated]
                          ++ notified (on_complete cb)
                               (ReplaceComplete id newSuggestion))
                  end
            end
        | _, _, _ => failed TypeError s1 t1
        end
    end.
Proof.
  cbv beta iota zeta delta [replaceSuggestion try_catchM bind await getMovies
    getCurrentSuggestions read ret lift throw saveSuggestions write
    saveToLocalStorage emit].
  rewrite call_if_function_run.
  rewrite (client_run _ (client_getReplacementSuggestion w _ _)).
  fold (single_sample (mediaData s)). fold (single_excluded (mediaData s)).
  fold (single_call w (mediaData s)). fold (list_ids (mediaData s)).
  fold (ids (suggestions (mediaData s))). fold (known_ids (mediaData s)).
  destruct (result_of (single_call w (mediaData s))) as [sd|e];
    [|rewrite call_if_function_run; now rewrite <- !app_assoc].
  destruct sd; cbn [get_prop]; cbv iota;
    try (rewrite call_if_function_run; now rewrite <- !app_assoc);
    rewrite (client_run _ (client_searchMovieByTitle w _ _));
    (destruct (result_of (searchMovieByTitle w _ _)) as [[details|]|e];
     [destruct (includes _ _);
      [|destruct (findIndex _ _)]|..]);
    rewrite ?call_if_function_run; unfold saved; simpl;
    now rewrite <- !app_assoc.
Qed.

Lemma getMovieSuggestions_run (w : World) (cb : callbacks) (s : Store)
      (t : list event) :
  has_movies (mediaData s) = true ->
  getMovieSuggestions w cb s t
  = let d := mediaData s in
    let t0 := t ++ notified (on_start cb) LoadStart ++ calls_of (bulk_call w d) in
    let s1 := interference w 0 s in
    match result_of (bulk_call w d) with
    | Throw e => (Normal tt, s1, t0 ++ notified (on_error cb) (OnError e))
    | Normal suggestionData =>
        match slice_0_5 suggestionData with
        | Throw e => (Normal tt, s1, t0 ++ notified (on_error cb) (OnError e))
        | Normal candidates =>
            let resolve := mapM (resolve_candidate w (list_ids d)) candidates in
            let s2 := interference w 1 s1 in
            match result_of resolve with
            | Throw e =>
                (Normal tt, s2,
                 t0 ++ calls_of resolve ++ notified (on_error cb) (OnError e))
            | Normal found =>
                (Normal tt, saved s2 (non_null found),
                 t0 ++ calls_of resolve
                    ++ [SavedSuggestions (non_null found)]
                    ++ notified (on_complete cb) (LoadComplete (non_null found)))
            end
        end
    end.
Proof.
  intros Hm. unfold has_movies in Hm.
  pose proof call_if_function_run as Hstart.
  cbv beta iota zeta delta [getMovieSuggestions try_catchM bind await getMovies
    read ret lift saveSuggestions write saveToLocalStorage emit].
  rewrite Hstart, Hm. change (negb true) with false. cbv beta iota.
  fold (list_ids (mediaData s)).
  rewrite (client_run _ (client_getSuggestions w _ _ _)).
  fold (bulk_sample (mediaData s)). fold (bulk_excluded (mediaData s)).
  fold (bulk_call w (mediaData s)).
  destruct (result_of (bulk_call w (mediaData s))) as [suggestionData|e].
  2:{ rewrite Hstart. now rewrite <- !app_assoc. }
  destruct (slice_0_5 suggestionData) as [candidates|e].
  2:{ rewrite Hstart. now rewrite <- !app_assoc. }
  rewrite (client_run _ (client_mapM _ candidates (client_resolve_candidate w _))).
  destruct (result_of (mapM _ candidates)) as [found|e].
  2:{ rewrite Hstart. now rewrite <- !app_assoc. }
  rewrite Hstart. unfold saved. simpl. now rewrite <- !app_assoc.
Qed.

(** ** Resolving the candidates *)

Lemma result_of_bind {A B} (m : M A) (k : A -> M B) :
  client m -> (forall a, client (k a)) ->
  result_of (bind m k)
  = match result_of m with
    | Normal a => result_of (k a)
    | Throw e => Throw e
    end.
Proof.
  intros Hm Hk. unfold result_of at 1, bind.
  rewrite (client_run m Hm).
  destruct (result_of m) as [a|e]; [|reflexivity].
  now rewrite (client_run (k a) (Hk a)).
Qed.

Lemma resolve_candidate_result (w : World) (known : list jsstring) (c : value) :
  exists r, result_of (resolve_candidate w known c) = Normal r /\ fresh known r.
Proof.
  unfold result_of.
  cbv beta iota zeta delta [resolve_candidate try_catchM bind lift ret].
  destruct (get_prop c (u "title")) as [title|e];
    [|exists None; now split].
  destruct (get_prop c (u "year")) as [year|e];
    [|exists None; now split].
  rewrite (client_run _ (client_searchMovieByTitle w title year)).
  destruct (searchMovieByTitle_total w title year) as [[details|] ->];
    [|exists None; now split].
  destruct (includes known (imdbID details)) eqn:Hin;
    [exists None; now split|].
  apply includes_not_In in Hin.
  destruct (get_prop c (u "reason")) as [r|e]; [|exists None; now split].
  eexists. split; [reflexivity|]. exact Hin.
Qed.

Lemma mapM_resolve_result (w : World) (known : list jsstring) (cs : list value) :
  exists found,
    result_of (mapM (resolve_candidate w known) cs) = Normal found
    /\ List.length found = List.length cs
    /\ Forall (fresh known) found.
Proof.
  induction cs as [|c cs (found & Hf & Hlen & Hall)]; simpl mapM.
  - exists []. repeat split. constructor.
  - destruct (resolve_candidate_result w known c) as (r & Hr & Hfresh).
    exists (r :: found).
    rewrite result_of_bind;
      [|apply client_resolve_candidate
       |intros; apply client_bind;
        [apply client_mapM; intros; apply client_resolve_candidate
        |intros; apply client_ret]].
    rewrite Hr.
    rewrite result_of_bind;
      [|apply client_mapM; intros; apply client_resolve_candidate
       |intros; apply client_ret].
    rewrite Hf. split; [reflexivity|]. split; [simpl; now rewrite Hlen|].
    now constructor.
Qed.

Lemma non_null_length {A} (l : list (option A)) :
  (List.length (non_null l) <= List.length l)%nat.
Proof. induction l as [|[a|] l IH]; simpl; lia. Qed.

Lemma non_null_fresh (known : list jsstring) (l : list (option Movie)) :
  Forall (fresh known) l ->
  Forall (fun m => ~ In (imdbID m) known) (non_null l).
Proof.
  induction 1 as [|[a|] l Ha Hl IH]; simpl; auto.
Qed.

Lemma has_movies_iff (d : MediaData) :
  has_movies d = true <-> toWatch d <> [] \/ watched d <> [].
Proof.
  unfold has_movies.
  destruct (toWatch d), (watched d); simpl; split; intros H;
    try reflexivity; try discriminate;
    try (left; discriminate); try (right; discriminate).
  destruct H as [H|H]; now elim H.
Qed.

Lemma client_bulk_call (w : World) (d : MediaData) : client (bulk_call w d).
Proof. apply client_getSuggestions. Qed.

Lemma client_single_call (w : World) (d : MediaData) : client (single_call w d).
Proof. apply client_getReplacementSuggestion. Qed.

Lemma client_resolve_all (w : World) known cs :
  client (mapM (resolve_candidate w known) cs).
Proof. apply client_mapM. intros. apply client_resolve_candidate. Qed.

(** What the suggestion client answers, by what the service did. *)
Lemma getSuggestions_result (w : World) sample titles count :
  result_of (getSuggestions w sample titles count)
  = match mistral w (mkMistralRequest (PromptMany count) sample titles 90) with
    | Rejected => Throw FetchFailed
    | Responded r =>
        if negb (ok r) then Throw (ApiStatusError (status r))
        else
          match json r with
          | None => Throw SyntaxError
          | Some data => parseResponseJson (content data)
          end
    end.
Proof.
  unfold result_of, getSuggestions, try_catchM, bind, fetch_mistral, emit,
    response_json, ret, throw, lift.
  destruct (mistral w _) as [|r]; simpl; [reflexivity|].
  destruct (ok r); simpl; [|reflexivity].
  destruct (json r) as [data|]; simpl; [|reflexivity].
  now destruct (parseResponseJson (content data)).
Qed.

(** ** getMovieSuggestions with movies in the lists *)

(** C1: from a store with a movie in one of the two lists, a run of
    [getMovieSuggestions] in which the suggestion client returns a list (the
    one case where no error is reported, see [getMovieSuggestions_run])
    ends with a set of at most five records, none of which has an
    identifier of the two lists as read at call time; the set is in the
    store and in local storage, and the save comes in the log before the
    call of the completion callback with the same set; before them the log
    holds requests only. *)
Theorem getMovieSuggestions_success (w : World) (cb : callbacks) (s : Store)
        (t : list event) (items : list value) :
  toWatch (mediaData s) <> [] \/ watched (mediaData s) <> [] ->
  result_of (bulk_call w (mediaData s)) = Normal (VArr items) ->
  exists v requests s',
    getMovieSuggestions w cb s t
    = (Normal tt, s',
       t ++ notified (on_start cb) LoadStart ++ requests
         ++ [SavedSuggestions v]
         ++ notified (on_complete cb) (LoadComplete v))
    /\ forallb is_request requests = true
    /\ (List.length v <= 5)%nat
    /\ Forall (fun m => ~ In (imdbID m) (list_ids (mediaData s))) v
    /\ suggestions (mediaData s') = v
    /\ localStorage s' = Some (mediaData s').
Proof.
  intros Hne Hreply. apply has_movies_iff in Hne.
  rewrite (getMovieSuggestions_run w cb s t Hne). cbv zeta.
  rewrite Hreply. cbn [slice_0_5].
  destruct (mapM_resolve_result w (list_ids (mediaData s)) (firstn 5 items))
    as (found & Hf & Hlen & Hall).
  rewrite Hf.
  exists (non_null found),
    (calls_of (bulk_call w (mediaData s))
     ++ calls_of (mapM (resolve_candidate w (list_ids (mediaData s)))
                       (firstn 5 items))),
    (saved (interference w 1 (interference w 0 s)) (non_null found)).
  split; [now rewrite <- !app_assoc|].
  split.
  { rewrite forallb_app.
    rewrite (proj2 (client_bulk_call w _)).
    now rewrite (proj2 (client_resolve_all w _ _)). }
  split.
  { pose proof (non_null_length found) as Hn.
    pose proof (firstn_le_length 5 items) as H5.
    rewrite Hlen in Hn. lia. }
  split; [now apply non_null_fresh|]. now split.
Qed.

(** Any other answer of the suggestion client, an exception or a value
    that is not an array, ends in the error callback with nothing saved. *)
Lemma getMovieSuggestions_failure (w : World) (cb : callbacks) (s : Store)
      (t : list event) :
  has_movies (mediaData s) = true ->
  (forall items, result_of (bulk_call w (mediaData s)) <> Normal (VArr items)) ->
  exists e requests,
    getMovieSuggestions w cb s t
    = (Normal tt, interference w 0 s,
       t ++ notified (on_start cb) LoadStart ++ requests
         ++ notified (on_error cb) (OnError e))
    /\ forallb is_request requests = true.
Proof.
  intros Hne Hreply.
  rewrite (getMovieSuggestions_run w cb s t Hne). cbv zeta.
  destruct (result_of (bulk_call w (mediaData s))) as [v|e] eqn:E.
  - destruct v; try (now elim (Hreply items));
      (exists TypeError, (calls_of (bulk_call w (mediaData s)));
       split; [simpl; now rewrite <- !app_assoc
              |apply (proj2 (client_bulk_call w _))]).
  - exists e, (calls_of (bulk_call w (mediaData s))).
    split; [now rewrite <- !app_assoc|apply (proj2 (client_bulk_call w _))].
Qed.

(** C3: when the call of the suggestion client throws, the run ends
    normally with nothing saved: the log holds the requests made and then
    the call of the error callback with that exception, and the store is
    the one the other handlers of the page left, the original one if they
    did nothing. *)
Theorem getMovieSuggestions_client_failure (w : World) (cb : callbacks)
        (s : Store) (t : list event) (e : error) :
  toWatch (mediaData s) <> [] \/ watched (mediaData s) <> [] ->
  result_of (bulk_call w (mediaData s)) = Throw e ->
  exists requests s',
    getMovieSuggestions w cb s t
    = (Normal tt, s',
       t ++ notified (on_start cb) LoadStart ++ requests
         ++ notified (on_error cb) (OnError e))
    /\ forallb is_request requests = true
    /\ s' = interference w 0 s
    /\ (quiet w ->
        s' = s /\ suggestions (mediaData s') = suggestions (mediaData s)).
Proof.
  intros Hne Hreply. apply has_movies_iff in Hne.
  rewrite (getMovieSuggestions_run w cb s t Hne). cbv zeta.
  rewrite Hreply.
  exists (calls_of (bulk_call w (mediaData s))), (interference w 0 s).
  split; [now rewrite <- !app_assoc|].
  split; [apply (proj2 (client_bulk_call w _))|].
  split; [reflexivity|].
  intros Hq. now rewrite Hq.
Qed.

Lemma getMovieSuggestions_success_witness :
  exists v requests s',
    getMovieSuggestions twice_dune all_callbacks (store_of [alien] [] [heat]) []
    = (Normal tt, s',
       [] ++ [LoadStart] ++ requests ++ [SavedSuggestions v]
          ++ [LoadComplete v])
    /\ forallb is_request requests = true
    /\ (List.length v <= 5)%nat
    /\ Forall (fun m => ~ In (imdbID m) [imdbID alien]) v
    /\ suggestions (mediaData s') = v
    /\ localStorage s' = Some (mediaData s').
Proof.
  apply (getMovieSuggestions_success twice_dune all_callbacks
           (store_of [alien] [] [heat]) [] dune_candidates).
  - left. discriminate.
  - vm_compute. reflexivity.
Defined.

Lemma getMovieSuggestions_client_failure_witness :
  (exists requests s',
      getMovieSuggestions offline all_callbacks (store_of [alien] [] [heat]) []
      = (Normal tt, s',
         [] ++ [LoadStart] ++ requests ++ [OnError FetchFailed])
      /\ forallb is_request requests = true
      /\ s' = store_of [alien] [] [heat]
      /\ (quiet offline ->
          s' = store_of [alien] [] [heat]
          /\ suggestions (mediaData s') = [heat]))
  /\ (exists requests s',
         getMovieSuggestions no_candidates all_callbacks
                             (store_of [alien] [] [heat]) []
         = (Normal tt, s',
            [] ++ [LoadStart] ++ requests
               ++ [OnError (Error "Could not extract movie suggestion(s) from response")])
         /\ forallb is_request requests = true
         /\ s' = store_of [alien] [] [heat]
         /\ (quiet no_candidates ->
             s' = store_of [alien] [] [heat]
             /\ suggestions (mediaData s') = [heat])).
Proof.
  split.
  - apply (getMovieSuggestions_client_failure offline all_callbacks
             (store_of [alien] [] [heat]) [] FetchFailed).
    + left. discriminate.
    + vm_compute. reflexivity.
  - apply (getMovieSuggestions_client_failure no_candidates all_callbacks
             (store_of [alien] [] [heat]) []
             (Error "Could not extract movie suggestion(s) from response")).
    + left. discriminate.
    + vm_compute. reflexivity.
Defined.

(** ** replaceSuggestion *)

Lemma findIndex_first {A} (p : A -> bool) (pre : list A) (x : A)
      (post : list A) :
  Forall (fun y => p y = false) pre ->
  p x = true ->
  findIndex p (pre ++ x :: post) = Some (List.length pre).
Proof.
  intros Hpre Hx. induction Hpre as [|a pre Ha _ IH]; simpl.
  - now rewrite Hx.
  - now rewrite Ha, IH.
Qed.

Lemma set_index_middle {A} (pre : list A) (x z : A) (post : list A) :
  set_index (List.length pre) z (pre ++ x :: post) = pre ++ z :: post.
Proof. induction pre as [|a pre IH]; simpl; [reflexivity | now rewrite IH]. Qed.

Lemma get_prop_reason (v : value) (title : value) :
  get_prop v (u "title") = Normal title ->
  exists r, get_prop v (u "reason") = Normal r
            /\ exists year, get_prop v (u "year") = Normal year.
Proof. destruct v; simpl; intros H; try discriminate; eauto. Qed.

(** A run that returns a new suggestion: the record is not among the
    identifiers known at call time, and it was written over the first entry
    that carries the target identifier in the set as it stood after the
    two awaits. *)
Lemma replaceSuggestion_success (w : World) (id : jsstring) (cb : callbacks)
      (s s' : Store) (t t' : list event) (n : Movie) :
  replaceSuggestion w id cb s t = (Normal (NewSuggestion n), s', t') ->
  let s2 := interference w 1 (interference w 0 s) in
  ~ In (imdbID n) (known_ids (mediaData s))
  /\ exists index requests,
      findIndex (has_id id) (suggestions (mediaData s2)) = Some index
      /\ s' = saved s2 (set_index index n (suggestions (mediaData s2)))
      /\ t' = t ++ notified (on_start cb) (ReplaceStart id) ++ requests
                ++ [SavedSuggestions
                      (set_index index n (suggestions (mediaData s2)))]
                ++ notified (on_complete cb) (ReplaceComplete id n)
      /\ forallb is_request requests = true.
Proof.
  rewrite replaceSuggestion_run. cbv zeta.
  destruct (result_of (single_call w (mediaData s))) as [sd|e];
    [|discriminate].
  destruct (get_prop sd (u "title")) as [title|]; [|discriminate].
  destruct (get_prop sd (u "year")) as [year|]; [|discriminate].
  destruct (get_prop sd (u "reason")) as [r|]; [|discriminate].
  destruct (result_of (searchMovieByTitle w title year)) as [[details|]|e];
    [|discriminate..].
  destruct (includes _ _) eqn:Hin; [discriminate|].
  destruct (findIndex _ _) as [index|] eqn:Hix; [|discriminate].
  intros H. injection H as <- <- <-.
  split; [now apply includes_not_In in Hin|].
  exists index,
    (calls_of (single_call w (mediaData s))
     ++ calls_of (searchMovieByTitle w title year)).
  split; [reflexivity|]. split; [reflexivity|].
  split; [now rewrite <- !app_assoc|].
  rewrite forallb_app, (proj2 (client_single_call w _)).
  apply (proj2 (client_searchMovieByTitle w title year)).
Qed.



(** C5, as amended: when the candidate resolves to a record that is not a
    duplicate and the target identifier is no longer in the suggestion set,
    the run writes nothing: the store is the one the other handlers left,
    nothing is saved, the completion callback is not called and the new
    suggestion is dropped; the run reports this through the error callback,
    with the error [not_resolved], and returns [null]. *)
Theorem replaceSuggestion_target_gone (w : World) (id : jsstring)
        (cb : callbacks) (s : Store) (t : list event)
        (candidate title year : value) (details : Movie) :
  let s2 := interference w 1 (interference w 0 s) in
  result_of (single_call w (mediaData s)) = Normal candidate ->
  get_prop candidate (u "title") = Normal title ->
  get_prop candidate (u "year") = Normal year ->
  result_of (searchMovieByTitle w title year) = Normal (Some details) ->
  ~ In (imdbID details) (known_ids (mediaData s)) ->
  ~ In id (ids (suggestions (mediaData s2))) ->
  exists requests,
    replaceSuggestion w id cb s t
    = (Normal ReturnedNull, s2,
       t ++ notified (on_start cb) (ReplaceStart id) ++ requests
         ++ notified (on_error cb) (OnError not_resolved))
    /\ forallb is_request requests = true
    /\ (quiet w -> s2 = s).
Proof.
  intros s2 Hcand Htitle Hyear Hlookup Hfresh Hgone.
  rewrite replaceSuggestion_run. cbv zeta.
  rewrite Hcand, Htitle, Hyear.
  destruct (get_prop_reason _ _ Htitle) as (r & -> & _).
  rewrite Hlookup.
  apply includes_not_In in Hfresh. rewrite Hfresh.
  apply has_id_none, findIndex_None in Hgone. fold s2. rewrite Hgone.
  exists (calls_of (single_call w (mediaData s))
          ++ calls_of (searchMovieByTitle w title year)).
  split; [now rewrite <- !app_assoc|].
  split.
  - rewrite forallb_app, (proj2 (client_single_call w _)).
    apply (proj2 (client_searchMovieByTitle w title year)).
  - intros Hq. unfold s2. now rewrite !Hq.
Qed.

Lemma replaceSuggestion_target_gone_witness :
  exists requests,
    replaceSuggestion one_dune (imdbID contact) all_callbacks
                      (store_of [alien] [] [brazil; heat]) []
    = (Normal ReturnedNull, store_of [alien] [] [brazil; heat],
       [] ++ [ReplaceStart (imdbID contact)] ++ requests
          ++ [OnError not_resolved])
    /\ forallb is_request requests = true
    /\ (quiet one_dune ->
        store_of [alien] [] [brazil; heat] = store_of [alien] [] [brazil; heat]).
Proof.
  apply (replaceSuggestion_target_gone one_dune (imdbID contact) all_callbacks
           (store_of [alien] [] [brazil; heat]) []
           (suggestion_object (VStr (u "Dune")) (VStr (u "2021"))
                              (VStr (u "epic scale")))
           (VStr (u "Dune")) (VStr (u "2021")) dune).
  - vm_compute. reflexivity.
  - reflexivity.
  - reflexivity.
  - vm_compute. reflexivity.
  - simpl. intuition discriminate.
  - simpl. intuition discriminate.
Defined.

(** C5 as stated fails: the target is not in the set, the candidate found
    is no duplicate, the stored set stays as it was, and yet the error
    callback is called. *)
Lemma replaceSuggestion_target_gone_reports_error :
  let s := store_of [alien] [] [brazil; heat] in
  ~ In (imdbID contact) (ids (suggestions (mediaData s)))
  /\ result_of (searchMovieByTitle one_dune (VStr (u "Dune")) (VStr (u "2021")))
     = Normal (Some dune)
  /\ ~ In (imdbID dune) (known_ids (mediaData s))
  /\ replaceSuggestion one_dune (imdbID contact) all_callbacks s []
     = (Normal ReturnedNull, s,
        [ ReplaceStart (imdbID contact);
          CallMistral (mkMistralRequest PromptOne (single_sample (mediaData s))
                                        (single_excluded (mediaData s)) 95);
          CallOmdb (ByTitle (VStr (u "Dune")) (Some (VStr (u "2021"))));
          OnError not_resolved ]).
Proof.
  cbv zeta. split; [simpl; intuition discriminate|].
  split; [vm_compute; reflexivity|].
  split; [simpl; intuition discriminate|].
  vm_compute. reflexivity.
Qed.

(** ** The invariant of the suggestion set *)

(** C2 as stated fails: the model names one film under two titles, the
    metadata service resolves both to the same record, the run succeeds and
    the stored set holds that identifier twice. *)
Lemma getMovieSuggestions_saves_duplicates :
  let '(r, s', t') :=
    getMovieSuggestions twice_dune all_callbacks (store_of [alien] [] []) [] in
  r = Normal tt
  /\ suggestions (mediaData s')
     = [dune_suggested; with_reason dune (VStr (u "desert politics"))]
  /\ In (LoadComplete (suggestions (mediaData s'))) t'
  /\ existsb is_error t' = false
  /\ ~ NoDup (ids (suggestions (mediaData s'))).
Proof.
  destruct (getMovieSuggestions twice_dune all_callbacks
              (store_of [alien] [] []) []) as [[r s'] t'] eqn:Hrun.
  vm_compute in Hrun. injection Hrun as <- <- <-.
  split; [reflexivity|]. split; [reflexivity|].
  split; [simpl; tauto|]. split; [reflexivity|].
  intros H. inversion H as [|x l Hnot _]; subst. apply Hnot. now left.
Qed.

Lemma NoDup_replace {A} (pre post : list A) (x y : A) :
  NoDup (pre ++ x :: post) ->
  ~ In y (pre ++ x :: post) ->
  NoDup (pre ++ y :: post).
Proof.
  intros Hnd Hy.
  apply (Permutation_NoDup (Permutation_middle pre post y)).
  constructor.
  - intros Hin. apply Hy. apply in_app_or in Hin as [Hin|Hin];
      apply in_or_app; [now left | right; now right].
  - now apply NoDup_remove_1 in Hnd.
Qed.

(** C2, as amended.  After a successful [getMovieSuggestions], no member of
    the stored set has an identifier of the two lists as read at call time
    (two members may share an identifier).  A successful
    [replaceSuggestion] stores a record whose identifier is in neither list
    nor in the set as read at call time, in the place of the target and
    with the other members untouched; so, when no other handler runs in
    between, a set without repeated identifiers whose members other than
    the target are in neither list becomes a set without repeated
    identifiers and with no member in either list. *)
Theorem suggestion_set_invariant (w : World) (cb : callbacks) (s : Store)
        (t : list event) :
  (forall items,
      toWatch (mediaData s) <> [] \/ watched (mediaData s) <> [] ->
      result_of (bulk_call w (mediaData s)) = Normal (VArr items) ->
      let '(_, s', _) := getMovieSuggestions w cb s t in
      Forall (fun m => ~ In (imdbID m) (list_ids (mediaData s)))
             (suggestions (mediaData s')))
  /\ (forall id n s' t',
         replaceSuggestion w id cb s t = (Normal (NewSuggestion n), s', t') ->
         ~ In (imdbID n) (known_ids (mediaData s))
         /\ (exists pre old post,
                suggestions (mediaData (interference w 1 (interference w 0 s)))
                = pre ++ old :: post
                /\ imdbID old = id
                /\ ~ In id (ids pre)
                /\ suggestions (mediaData s') = pre ++ n :: post)
         /\ (quiet w ->
             NoDup (ids (suggestions (mediaData s))) ->
             Forall (fun m => imdbID m <> id ->
                              ~ In (imdbID m) (list_ids (mediaData s)))
                    (suggestions (mediaData s)) ->
             NoDup (ids (suggestions (mediaData s')))
             /\ Forall (fun m => ~ In (imdbID m) (list_ids (mediaData s')))
                       (suggestions (mediaData s')))).
Proof.
  split.
  - intros items Hne Hreply. apply has_movies_iff in Hne.
    rewrite (getMovieSuggestions_run w cb s t Hne). cbv zeta.
    rewrite Hreply. cbn [slice_0_5].
    destruct (mapM_resolve_result w (list_ids (mediaData s)) (firstn 5 items))
      as (found & -> & _ & Hall).
    simpl. now apply non_null_fresh.
  - intros id n s' t' Hrun.
    apply replaceSuggestion_success in Hrun
      as (Hfresh & index & requests & Hix & -> & _ & _).
    destruct (findIndex_split _ _ _ Hix)
      as (pre & old & post & Hset & _ & Hold & Hpre & _ & _ & Hupd).
    apply has_id_true in Hold. apply has_id_none in Hpre.
    split; [exact Hfresh|]. split.
    { exists pre, old, post. repeat split; auto. simpl. apply Hupd. }
    intros Hq Hnd Hothers. rewrite !Hq in Hset, Hupd |- *.
    simpl. rewrite Hupd. rewrite Hset in Hnd, Hothers.
    unfold known_ids in Hfresh. rewrite Hset in Hfresh.
    assert (Hn_lists : ~ In (imdbID n) (list_ids (mediaData s))).
    { intros H. apply Hfresh, in_or_app. now left. }
    assert (Hn_set : ~ In (imdbID n) (ids (pre ++ old :: post))).
    { intros H. apply Hfresh, in_or_app. now right. }
    split.
    + unfold ids in *. rewrite map_app in *. simpl in *.
      now apply NoDup_replace with (x := imdbID old).
    + change (list_ids (set_suggestions (mediaData s) (pre ++ n :: post)))
        with (list_ids (mediaData s)).
      apply Forall_app in Hothers as [Hp Ho].
      inversion Ho as [|? ? _ Hpost]; subst.
      apply Forall_app. split; [|constructor; [exact Hn_lists|]].
      * rewrite Forall_forall in Hp |- *. intros m Hm. apply Hp; [exact Hm|].
        intros E. apply Hpre. rewrite <- E. now apply in_map.
      * rewrite Forall_forall in Hpost |- *. intros m Hm.
        apply Hpost; [exact Hm|].
        intros E. unfold ids in Hnd. rewrite map_app in Hnd. simpl in Hnd.
        apply NoDup_remove_2 in Hnd. apply Hnd.
        apply in_or_app. right. rewrite <- E. now apply in_map.
Qed.

Lemma suggestion_set_invariant_witness :
  (let '(_, s', _) :=
     getMovieSuggestions twice_dune all_callbacks (store_of [alien] [] []) [] in
   Forall (fun m => ~ In (imdbID m) [imdbID alien])
          (suggestions (mediaData s')))
  /\ (let '(_, s', _) :=
        replaceSuggestion one_dune (imdbID contact) all_callbacks
                          (store_of [contact; alien] []
                                    [brazil; contact; heat]) [] in
      suggestions (mediaData s') = [brazil; dune_suggested; heat]
      /\ NoDup (ids (suggestions (mediaData s')))
      /\ Forall (fun m => ~ In (imdbID m) (list_ids (mediaData s')))
                (suggestions (mediaData s'))).
Proof.
  split.
  - apply (proj1 (suggestion_set_invariant twice_dune all_callbacks
                    (store_of [alien] [] []) []) dune_candidates).
    + left. discriminate.
    + vm_compute. reflexivity.
  - destruct (replaceSuggestion one_dune (imdbID contact) all_callbacks
                (store_of [contact; alien] [] [brazil; contact; heat]) [])
      as [[r s'] t'] eqn:Hrun.
    assert (Hr : r = Normal (NewSuggestion dune_suggested)
                 /\ suggestions (mediaData s')
                    = [brazil; dune_suggested; heat]).
    { vm_compute in Hrun. injection Hrun as <- <- _. now split. }
    destruct Hr as [-> Hset]. split; [exact Hset|].
    apply (proj2 (proj2 (proj2 (suggestion_set_invariant one_dune
                    all_callbacks
                    (store_of [contact; alien] [] [brazil; contact; heat]) [])
                    (imdbID contact) dune_suggested s' t' Hrun))).
    + intros i s. reflexivity.
    + repeat constructor; simpl; intuition discriminate.
    + repeat constructor; simpl; intros Hne; intuition discriminate.
Defined.

(** ** JSON.parse: the fuel is enough *)

Lemma skip_ws_le (s : jsstring) : (List.length (skip_ws s) <= List.length s)%nat.
Proof.
  induction s as [|c s IH]; simpl; [lia|].
  destruct (is_json_ws c); simpl; lia.
Qed.

Lemma take_digits_le (s : jsstring) : (List.length (snd (take_digits s)) <= List.length s)%nat.
Proof.
  induction s as [|c s IH]; simpl; [lia|].
  destruct (is_digit c); simpl; [|lia].
  destruct (take_digits s); simpl in *. lia.
Qed.

Lemma lex_digits_le s d r : lex_digits s = Some (d, r) -> (List.length r <= List.length s)%nat.
Proof.
  unfold lex_digits. pose proof (take_digits_le s) as H.
  destruct (take_digits s) as [[|x d'] r']; [discriminate|].
  intros E. injection E as <- <-. exact H.
Qed.

Lemma lex_fraction_le s d r : lex_fraction s = Some (d, r) -> (List.length r <= List.length s)%nat.
Proof.
  unfold lex_fraction. destruct s as [|c s]; [intros E; injection E as <- <-; lia|].
  destruct (c =? 46).
  - destruct (lex_digits s) as [[d' r']|] eqn:E; [|discriminate].
    apply lex_digits_le in E. intros H. injection H as <- <-. simpl. lia.
  - intros H. injection H as <- <-. lia.
Qed.

Lemma lex_exponent_le s d r : lex_exponent s = Some (d, r) -> (List.length r <= List.length s)%nat.
Proof.
  unfold lex_exponent. destruct s as [|c s]; [intros E; injection E as <- <-; lia|].
  destruct ((c =? 101) || (c =? 69)).
  - destruct s as [|x s'].
    + simpl. discriminate.
    + destruct ((x =? 43) || (x =? 45)).
      * destruct (lex_digits s') as [[d' r']|] eqn:E; [|discriminate].
        apply lex_digits_le in E. intros H. injection H as <- <-. simpl. lia.
      * destruct (lex_digits (x :: s')) as [[d' r']|] eqn:E; [|discriminate].
        apply lex_digits_le in E. intros H. injection H as <- <-. simpl in *. lia.
  - intros H. injection H as <- <-. lia.
Qed.

Lemma lex_number_le s d r : lex_number s = Some (d, r) -> (List.length r <= List.length s)%nat.
Proof.
  unfold lex_number.
  assert (Htail : forall sg s1 : jsstring,
             (List.length s1 <= List.length s)%nat ->
             match s1 with
             | c :: r1 =>
                 if is_digit c then
                   let (int, s2) :=
                     if c =? 48 then ([c], r1) else take_digits s1 in
                   match lex_fraction s2 with
                   | Some (frac, s3) =>
                       match lex_exponent s3 with
                       | Some (ex, s4) => Some (sg ++ int ++ frac ++ ex, s4)
                       | None => None
                       end
                   | None => None
                   end
                 else None
             | [] => None
             end = Some (d, r) -> (List.length r <= List.length s)%nat).
  { intros sg s1 Hs1. destruct s1 as [|c r1]; [discriminate|].
    destruct (is_digit c); [|discriminate].
    assert (Hint : (List.length (snd (if (c =? 48)%N then ([c], r1)
                              else take_digits (c :: r1)))
                    <= List.length (c :: r1))%nat).
    { destruct (c =? 48); [simpl; lia | apply take_digits_le]. }
    destruct (if c =? 48 then _ else _) as [i s2]. simpl snd in Hint.
    destruct (lex_fraction s2) as [[f s3]|] eqn:Ef; [|discriminate].
    apply lex_fraction_le in Ef.
    destruct (lex_exponent s3) as [[ex s4]|] eqn:Ee; [|discriminate].
    apply lex_exponent_le in Ee.
    intros H. injection H as <- <-. lia. }
  destruct s as [|c0 s0]; [discriminate|].
  destruct (c0 =? 45); intros H;
    [apply (Htail [c0] s0) | apply (Htail [] (c0 :: s0))];
    (simpl; lia) || exact H.
Qed.

Lemma strip_prefix_le p s r : strip_prefix p s = Some r -> (List.length r <= List.length s)%nat.
Proof.
  revert s. induction p as [|x p IH]; intros s; simpl.
  - intros E. injection E as <-. lia.
  - destruct s as [|y s]; [discriminate|].
    destruct (x =? y); [|discriminate]. intros E. apply IH in E. simpl. lia.
Qed.

Lemma parse_scalar_le s v r : parse_scalar s = Some (v, r) -> (List.length r <= List.length s)%nat.
Proof.
  unfold parse_scalar.
  destruct (strip_prefix (u "true") s) eqn:E1;
    [intros H; injection H as <- <-; now apply strip_prefix_le in E1|].
  destruct (strip_prefix (u "false") s) eqn:E2;
    [intros H; injection H as <- <-; now apply strip_prefix_le in E2|].
  destruct (strip_prefix (u "null") s) eqn:E3;
    [intros H; injection H as <- <-; now apply strip_prefix_le in E3|].
  destruct (lex_number s) as [[lx rest]|] eqn:E4; [|discriminate].
  intros H; injection H as <- <-. now apply lex_number_le in E4.
Qed.

Lemma lex_string_le (n : nat) :
  forall s t r, (List.length s <= n)%nat -> lex_string s = Some (t, r) -> (List.length r <= List.length s)%nat.
Proof.
  induction n as [|n IH]; intros s t r Hn; destruct s as [|c s]; simpl in *;
    try discriminate; try lia.
  destruct (c =? dq); [intros E; injection E as <- <-; lia|].
  destruct (c =? 92).
  - destruct s as [|e s]; [discriminate|].
    destruct (e =? 117).
    + destruct s as [|h1 [|h2 [|h3 [|h4 s]]]]; try discriminate.
      destruct (hex_value h1), (hex_value h2), (hex_value h3), (hex_value h4);
        try discriminate.
      destruct (lex_string s) as [[t' r']|] eqn:E; [|discriminate].
      apply IH in E; [|simpl in Hn; lia].
      intros H. injection H as <- <-. simpl. lia.
    + destruct (simple_escape e); [|discriminate].
      destruct (lex_string s) as [[t' r']|] eqn:E; [|discriminate].
      apply IH in E; [|simpl in Hn; lia].
      intros H. injection H as <- <-. simpl. lia.
  - destruct (c <? 32); [discriminate|].
    destruct (lex_string s) as [[t' r']|] eqn:E; [|discriminate].
    apply IH in E; [|lia].
    intros H. injection H as <- <-. lia.
Qed.

Lemma parse_key_le s k r : parse_key s = Some (k, r) -> (List.length r < List.length s)%nat.
Proof.
  unfold parse_key. pose proof (skip_ws_le s) as Hs.
  destruct (skip_ws s) as [|c r0]; [discriminate|].
  destruct (c =? dq); [|discriminate].
  destruct (lex_string r0) as [[k' r1]|] eqn:E; [|discriminate].
  apply (lex_string_le (List.length r0)) in E; [|lia].
  pose proof (skip_ws_le r1) as H1.
  destruct (skip_ws r1) as [|c1 r2]; [discriminate|].
  destruct (c1 =? 58); [|discriminate].
  intros H. injection H as <- <-. simpl in *. lia.
Qed.

Lemma parse_le (n : nat) :
  (forall s v r, parse_value n s = Some (v, r) -> (List.length r <= List.length s)%nat)
  /\ (forall s acc v r, parse_elements n s acc = Some (v, r) -> (List.length r <= List.length s)%nat)
  /\ (forall s acc v r, parse_members n s acc = Some (v, r) -> (List.length r <= List.length s)%nat).
Proof.
  induction n as [|n (IHv & IHe & IHm)]; [repeat split; discriminate|].
  repeat split.
  - intros s v r. simpl. pose proof (skip_ws_le s) as Hs.
    destruct (skip_ws s) as [|c r0]; [discriminate|]. simpl in Hs.
    destruct (c =? 91).
    { pose proof (skip_ws_le r0) as H0.
      destruct (skip_ws r0) as [|c2 r2]; [discriminate|]. simpl in H0.
      destruct (c2 =? 93); [intros E; injection E as <- <-; lia|].
      destruct (parse_value n r0) as [[v1 r3]|] eqn:E1; [|discriminate].
      apply IHv in E1. intros E. apply IHe in E. lia. }
    destruct (c =? 123).
    { pose proof (skip_ws_le r0) as H0.
      destruct (skip_ws r0) as [|c2 r2]; [discriminate|]. simpl in H0.
      destruct (c2 =? 125); [intros E; injection E as <- <-; lia|].
      destruct (parse_key r0) as [[k r3]|] eqn:Ek; [|discriminate].
      apply parse_key_le in Ek.
      destruct (parse_value n r3) as [[v1 r4]|] eqn:E1; [|discriminate].
      apply IHv in E1. intros E. apply IHm in E. lia. }
    destruct (c =? dq).
    { destruct (lex_string r0) as [[t rest]|] eqn:E; [|discriminate].
      apply (lex_string_le (List.length r0)) in E; [|lia].
      intros H. injection H as <- <-. lia. }
    intros E. apply parse_scalar_le in E. simpl in E. lia.
  - intros s acc v r. simpl. pose proof (skip_ws_le s) as Hs.
    destruct (skip_ws s) as [|c r0]; [discriminate|]. simpl in Hs.
    destruct (c =? 93); [intros E; injection E as <- <-; lia|].
    destruct (c =? 44); [|discriminate].
    destruct (parse_value n r0) as [[v1 r1]|] eqn:E1; [|discriminate].
    apply IHv in E1. intros E. apply IHe in E. lia.
  - intros s acc v r. simpl. pose proof (skip_ws_le s) as Hs.
    destruct (skip_ws s) as [|c r0]; [discriminate|]. simpl in Hs.
    destruct (c =? 125); [intros E; injection E as <- <-; lia|].
    destruct (c =? 44); [|discriminate].
    destruct (parse_key r0) as [[k r1]|] eqn:Ek; [|discriminate].
    apply parse_key_le in Ek.
    destruct (parse_value n r1) as [[v1 r2]|] eqn:E1; [|discriminate].
    apply IHv in E1. intros E. apply IHm in E. lia.
Qed.

(** Fuel beyond the length of the text changes nothing. *)
Lemma parse_fuel (n : nat) :
  forall m s, (List.length s < n)%nat -> (List.length s < m)%nat ->
    parse_value n s = parse_value m s
    /\ (forall acc, parse_elements n s acc = parse_elements m s acc)
    /\ (forall acc, parse_members n s acc = parse_members m s acc).
Proof.
  induction n as [|n IH]; intros m s Hn Hm; [lia|].
  destruct m as [|m]; [lia|].
  pose proof (skip_ws_le s) as Hs.
  repeat split; [|intros acc..]; simpl;
    destruct (skip_ws s) as [|c r0]; try reflexivity; simpl in Hs.
  - destruct (c =? 91).
    { pose proof (skip_ws_le r0) as H0.
      destruct (skip_ws r0) as [|c2 r2]; [reflexivity|].
      destruct (c2 =? 93); [reflexivity|].
      destruct (IH m r0) as (-> & _ & _); [lia..|].
      destruct (parse_value m r0) as [[v1 r3]|] eqn:E1; [|reflexivity].
      apply (proj1 (parse_le m)) in E1.
      now destruct (IH m r3) as (_ & -> & _); [lia..|]. }
    destruct (c =? 123); [|reflexivity].
    destruct (skip_ws r0) as [|c2 r2]; [reflexivity|].
    destruct (c2 =? 125); [reflexivity|].
    destruct (parse_key r0) as [[k r3]|] eqn:Ek; [|reflexivity].
    apply parse_key_le in Ek.
    destruct (IH m r3) as (-> & _ & _); [lia..|].
    destruct (parse_value m r3) as [[v1 r4]|] eqn:E1; [|reflexivity].
    apply (proj1 (parse_le m)) in E1.
    now destruct (IH m r4) as (_ & _ & ->); [lia..|].
  - destruct (c =? 93); [reflexivity|].
    destruct (c =? 44); [|reflexivity].
    destruct (IH m r0) as (-> & _ & _); [lia..|].
    destruct (parse_value m r0) as [[v1 r1]|] eqn:E1; [|reflexivity].
    apply (proj1 (parse_le m)) in E1.
    now destruct (IH m r1) as (_ & -> & _); [lia..|].
  - destruct (c =? 125); [reflexivity|].
    destruct (c =? 44); [|reflexivity].
    destruct (parse_key r0) as [[k r1]|] eqn:Ek; [|reflexivity].
    apply parse_key_le in Ek.
    destruct (IH m r1) as (-> & _ & _); [lia..|].
    destruct (parse_value m r1) as [[v1 r2]|] eqn:E1; [|reflexivity].
    apply (proj1 (parse_le m)) in E1.
    now destruct (IH m r2) as (_ & _ & ->); [lia..|].
Qed.

(** [JSON_parse] never runs out of fuel: any larger amount gives the same
    parse. *)
Lemma parse_value_fuel (text : jsstring) (m : nat) :
  (List.length text < m)%nat ->
  parse_value (S (List.length text)) text = parse_value m text.
Proof. intros H. apply parse_fuel; lia. Qed.

(** ** The regular expressions: what a match has captured *)

Section Reach.
Context {A : Type}.

Lemma one_reaches cc (k : jsstring -> option A) s x :
  one cc k s = Some x -> exists s', k s' = Some x.
Proof.
  unfold one. destruct s as [|c s]; [discriminate|].
  destruct (accepts cc c); [eauto|discriminate].
Qed.

Lemma star_greedy_reaches cc (k : jsstring -> option A) s x :
  star_greedy cc k s = Some x -> exists s', k s' = Some x.
Proof.
  induction s as [|c s IH]; simpl; [eauto|].
  destruct (accepts cc c); [|eauto].
  destruct (star_greedy cc k s); [|eauto].
  intros H. injection H as ->. now apply IH.
Qed.

Lemma star_lazy_reaches cc (k : jsstring -> option A) s x :
  star_lazy cc k s = Some x -> exists s', k s' = Some x.
Proof.
  induction s as [|c s IH]; simpl.
  - destruct (k []) eqn:E; [|discriminate]. intros H. injection H as ->. eauto.
  - destruct (k (c :: s)) eqn:E.
    + intros H. injection H as ->. eauto.
    + destruct (accepts cc c); [exact IH|discriminate].
Qed.

Lemma repeat_exact_reaches n cc (k : jsstring -> option A) s x :
  repeat_exact n cc k s = Some x -> exists s', k s' = Some x.
Proof.
  revert s. induction n as [|n IH]; simpl; intros s H; [eauto|].
  apply one_reaches in H as [s' H]. now apply IH in H.
Qed.

Lemma run_reaches (r : regex) :
  forall (k : jsstring -> captures -> option A) s cs x,
    run r k s cs = Some x ->
    exists s' cs',
      k s' cs' = Some x
      /\ (forall i, captured cs i -> captured cs' i)
      /\ (forall i, In i (sure_groups r) -> captured cs' i).
Proof.
  induction r as [cc|cc|cc|cc|cc|n cc|r1 IH1 r2 IH2|r1 IH1 r2 IH2|i r IH];
    intros k s cs x H; simpl in H.
  - apply one_reaches in H as [s' H]. exists s', cs. simpl. intuition.
  - destruct (one cc _ s) eqn:E.
    + injection H as ->. apply one_reaches in E as [s' E].
      exists s', cs. simpl. intuition.
    + exists s, cs. simpl. intuition.
  - apply star_greedy_reaches in H as [s' H]. exists s', cs. simpl. intuition.
  - apply star_lazy_reaches in H as [s' H]. exists s', cs. simpl. intuition.
  - apply one_reaches in H as [s1 H].
    apply star_lazy_reaches in H as [s' H]. exists s', cs. simpl. intuition.
  - apply repeat_exact_reaches in H as [s' H]. exists s', cs. simpl. intuition.
  - apply IH1 in H as (s1 & cs1 & H & Hmono1 & Hsure1).
    apply IH2 in H as (s2 & cs2 & H & Hmono2 & Hsure2).
    exists s2, cs2. split; [exact H|]. split; [auto|].
    intros i Hi. simpl in Hi. apply in_app_or in Hi as [Hi|Hi]; auto.
  - destruct (run r1 k s cs) eqn:E.
    + injection H as ->. apply IH1 in E as (s1 & cs1 & E & Hmono & _).
      exists s1, cs1. simpl. intuition.
    + apply IH2 in H as (s1 & cs1 & E' & Hmono & _).
      exists s1, cs1. simpl. intuition.
  - apply IH in H as (s1 & cs1 & H & Hmono & Hsure).
    eexists _, _. split; [exact H|].
    assert (Hi : forall j, captured cs1 j ->
               captured ((i, firstn (List.length s - List.length s1) s) :: cs1) j).
    { intros j [text Hj]. unfold captured. simpl.
      destruct (Nat.eqb j i); eauto. }
    split; [auto|].
    intros j [<-|Hj]; [|auto].
    unfold captured. simpl. rewrite Nat.eqb_refl. eauto.
Qed.
End Reach.

Lemma match_at_groups (r : regex) (s : jsstring) (m : match_array) (rest : jsstring) :
  match_at r s = Some (m, rest) ->
  forall j, In j (sure_groups r) -> (1 <= j <= group_count r)%nat ->
            exists text, at_index m j = VStr text.
Proof.
  unfold match_at. intros H j Hj Hrange.
  apply run_reaches in H as (s' & cs' & H & _ & Hsure).
  injection H as <- _.
  destruct (Hsure j Hj) as [text Ht]. exists text.
  unfold at_index. destruct j as [|j]; [lia|]. simpl.
  rewrite (nth_indep _ VUndefined (capture cs' 0%nat)).
  - rewrite map_nth. rewrite seq_nth by lia. exact Ht.
  - rewrite length_map, length_seq. lia.
Qed.

Lemma search_groups (r : regex) (s : jsstring) (m : match_array) (rest : jsstring) :
  search r s = Some (m, rest) ->
  forall j, In j (sure_groups r) -> (1 <= j <= group_count r)%nat ->
            exists text, at_index m j = VStr text.
Proof.
  induction s as [|c s IH]; simpl.
  - destruct (match_at r []) as [[m' rest']|] eqn:E; [|discriminate].
    intros H. injection H as -> ->. now apply match_at_groups with (s := []) (rest := rest).
  - destruct (match_at r (c :: s)) as [[m' rest']|] eqn:E; [|exact IH].
    intros H. injection H as -> ->. now apply match_at_groups with (s := c :: s) (rest := rest).
Qed.

Lemma matchAll_from_groups (fuel : nat) (r : regex) (s : jsstring)
      (m : match_array) (j : nat) :
  In j (sure_groups r) -> (1 <= j <= group_count r)%nat ->
  In m (matchAll_from fuel r s) ->
  exists text, at_index m j = VStr text.
Proof.
  intros Hj Hrange. revert s.
  induction fuel as [|fuel IH]; simpl; intros s H; [contradiction|].
  destruct (search r s) as [[m' rest]|] eqn:E; [|contradiction].
  destruct H as [<-|H]; [eapply search_groups; eassumption|].
  destruct (nth 0 m' VUndefined) as [| | | |[|]| |], rest; simpl in H;
    try contradiction; now apply IH in H.
Qed.

Lemma has_title_year_object (a b c : jsstring) (r : value) :
  has_title_year (suggestion_object (VStr a) (VStr b) r) = true.
Proof. reflexivity. Qed.

Lemma extract_movies_pairs (content : jsstring) :
  forallb has_title_year (extract_movies content) = true.
Proof.
  unfold extract_movies, String_matchAll.
  generalize (matchAll_from_groups (S (List.length content)) re_movie content).
  generalize (matchAll_from (S (List.length content)) re_movie content).
  intros l. induction l as [|m l IH]; intros H; cbn [flat_map];
    [reflexivity|].
  rewrite forallb_app.
  rewrite IH by (intros m' j Hj Hr Hin; apply (H m' j Hj Hr); now right).
  rewrite andb_true_r.
  destruct (4 <=? List.length m)%nat; [|reflexivity].
  destruct (H m 1%nat) as [a Ha]; [vm_compute; tauto|vm_compute; lia|now left|].
  destruct (H m 2%nat) as [b Hb]; [vm_compute; tauto|vm_compute; lia|now left|].
  rewrite Ha, Hb. reflexivity.
Qed.

Lemma String_match_group1 (content : jsstring) (r : regex) (m : match_array) :
  String_match content r = Some m ->
  In 1%nat (sure_groups r) -> (1 <= group_count r)%nat ->
  exists text, at_index m 1 = VStr text.
Proof.
  unfold String_match. destruct (search r content) as [[m' rest]|] eqn:E; [|discriminate].
  simpl. intros H Hin Hc. injection H as ->.
  apply (search_groups r content m rest E 1%nat Hin). lia.
Qed.

Lemma extract_by_pattern_pair (content : jsstring) (v : value) :
  extract_by_pattern content = Normal v -> yields_pair (Normal v) = true.
Proof.
  unfold extract_by_pattern.
  pose proof (extract_movies_pairs content) as Hall.
  destruct (extract_movies content) as [|x l]; simpl.
  - destruct (String_match content re_title) as [t|] eqn:Et; [|discriminate].
    destruct (String_match content re_year) as [y|] eqn:Ey; [|discriminate].
    destruct (String_match_group1 _ _ _ Et) as [a Ha]; [vm_compute; tauto|vm_compute; lia|].
    destruct (String_match_group1 _ _ _ Ey) as [b Hb]; [vm_compute; tauto|vm_compute; lia|].
    rewrite Ha, Hb. intros H. injection H as <-. reflexivity.
  - intros H. injection H as <-. simpl in Hall |- *.
    apply andb_true_iff in Hall as [-> _]. reflexivity.
Qed.

(** ** parseResponseJson *)

(** C6, as amended.  The text of the example holds no bracket and no
    brace; the fallback extracts its triple, returned as a list of one
    element.  In general a literal that parses is returned as it is,
    whatever it holds; the fallback runs only when the first strategy
    throws, and what it returns always holds a title and a year; so the
    function throws exactly when the first strategy throws and the
    fallback finds no title-year pair. *)
Theorem parseResponseJson_outcome :
  parseResponseJson dune_text
  = Normal (VArr [suggestion_object (VStr (u "Dune")) (VStr (u "2021"))
                                    (VStr (u "epic scale"))])
  /\ String_match dune_text re_json = None
  /\ forall content,
      (forall v, parse_literal content = Normal v ->
                 parseResponseJson content = Normal v)
      /\ (forall e, parse_literal content = Throw e ->
                    parseResponseJson content = extract_by_pattern content)
      /\ (forall v, extract_by_pattern content = Normal v ->
                    yields_pair (Normal v) = true)
      /\ ((exists e, parseResponseJson content = Throw e)
          <-> (exists e, parse_literal content = Throw e)
              /\ yields_pair (extract_by_pattern content) = false).
Proof.
  split; [vm_compute; reflexivity|]. split; [vm_compute; reflexivity|].
  intros content. unfold parseResponseJson, try_catch.
  split; [now intros v ->|]. split; [now intros e ->|].
  split; [apply extract_by_pattern_pair|].
  split.
  - intros [e H]. destruct (parse_literal content) as [v|e1]; [discriminate|].
    split; [now exists e1|]. now rewrite H.
  - intros [[e1 H1] H2]. rewrite H1.
    destruct (extract_by_pattern content) as [v|e] eqn:E; [|now exists e].
    apply extract_by_pattern_pair in E. congruence.
Qed.

Lemma parseResponseJson_outcome_witness :
  (exists e, parseResponseJson (u "I cannot recommend anything today.")
             = Throw e)
  /\ parseResponseJson (u "{}") = Normal (VObj []).
Proof.
  destruct (proj2 (proj2 parseResponseJson_outcome)
              (u "I cannot recommend anything today."))
    as (_ & _ & _ & Hthrows).
  destruct (proj2 (proj2 parseResponseJson_outcome) (u "{}"))
    as (Hliteral & _).
  split.
  - apply Hthrows. split; [eexists; vm_compute; reflexivity|].
    vm_compute. reflexivity.
  - apply Hliteral. vm_compute. reflexivity.
Defined.

(** Two more texts for the fallback: without a reason the default reason
    is used; with the fields in another order the single-field expressions
    still find them. *)
Lemma fallback_examples :
  parseResponseJson (u "Try title: 'Heat' (year: 1995).")
  = Normal (suggestion_object (VStr (u "Heat")) (VStr (u "1995"))
                              default_reason)
  /\ parseResponseJson
       (u "year: 1995, reason: 'a duel', title: 'Heat'")
     = Normal (suggestion_object (VStr (u "Heat")) (VStr (u "1995"))
                                 (VStr (u "a duel"))).
Proof. split; vm_compute; reflexivity. Qed.

(** C6 as stated fails: on the text of an empty array neither strategy
    yields a title-year pair, and the function does not throw; it returns
    the empty array. *)
Lemma parseResponseJson_returns_empty_literal :
  yields_pair (parse_literal (u "[]")) = false
  /\ yields_pair (extract_by_pattern (u "[]")) = false
  /\ parseResponseJson (u "[]") = Normal (VArr []).
Proof. repeat split; vm_compute; reflexivity. Qed.

(** * The rest of the application *)

(** ** The list operations of the store *)

Lemma find_first_split {A} (p : A -> bool) (l : list A) :
  match find_first p l with
  | Some x =>
      exists pre post,
        l = pre ++ x :: post /\ p x = true
        /\ Forall (fun y => p y = false) pre
        /\ findIndex p l = Some (List.length pre)
        /\ forall f, update_first p f l = pre ++ f x :: post
  | None => Forall (fun y => p y = false) l
  end.
Proof.
  unfold find_first. induction l as [|a l IH]; simpl; [constructor|].
  destruct (p a) eqn:Pa.
  - exists [], l. repeat split; auto.
  - destruct (find p l) as [x|].
    + destruct IH as (pre & post & -> & Px & Hpre & Hix & Hup).
      exists (a :: pre), post. repeat split; auto.
      * rewrite Hix. reflexivity.
      * intros f. simpl. now rewrite Hup.
    + now constructor.
Qed.

Lemma in_ids_app (l1 l2 : list Movie) (id : jsstring) :
  In id (ids (l1 ++ l2)) <-> In id (ids l1) \/ In id (ids l2).
Proof. unfold ids. rewrite map_app. apply in_app_iff. Qed.

(** X1: [addToWatchList] adds the movie at the head of the to-watch list
    exactly when its identifier is in neither list, and [findMovieInLists]
    then finds that very record; an identifier already present makes it
    return false and leave the store and the log as they were. *)
Theorem addToWatchList_lookup (movie : Movie) (s : Store) (t : list event) :
  exists added s' t',
    addToWatchList movie s t = (Normal added, s', t')
    /\ (added = true <-> ~ In (imdbID movie) (list_ids (mediaData s)))
    /\ (added = false -> s' = s /\ t' = t)
    /\ (added = true ->
        toWatch (mediaData s') = movie :: toWatch (mediaData s)
        /\ watched (mediaData s') = watched (mediaData s)
        /\ lists_saved s'
        /\ t' = t ++ [UIUpdate (Some toWatchList)]
        /\ findMovieInLists (imdbID movie) s' t' = (Normal (Some movie), s', t')).
Proof.
  unfold addToWatchList, findMovieInLists, bind, read, ret.
  pose proof (find_first_split (has_id (imdbID movie)) (toWatch (mediaData s))) as Htw.
  pose proof (find_first_split (has_id (imdbID movie)) (watched (mediaData s))) as Hwd.
  unfold list_ids. setoid_rewrite in_ids_app.
  destruct (find_first _ (toWatch (mediaData s))) as [x|].
  - destruct Htw as (pre & post & Hl & Hx & _).
    exists false, s, t. split; [reflexivity|]. split; [|split; [auto|discriminate]].
    split; [discriminate|]. intros H. exfalso. apply H. left.
    rewrite Hl. apply in_ids_app. right. left. now apply has_id_true.
  - destruct (find_first _ (watched (mediaData s))) as [x|].
    + destruct Hwd as (pre & post & Hl & Hx & _).
      exists false, s, t. split; [reflexivity|]. split; [|split; [auto|discriminate]].
      split; [discriminate|]. intros H. exfalso. apply H. right.
      rewrite Hl. apply in_ids_app. right. left. now apply has_id_true.
    + apply has_id_none in Htw, Hwd.
      do 3 eexists. split; [reflexivity|]. split; [|split; [discriminate|]].
      * split; [intros _ [H|H]; contradiction | reflexivity].
      * intros _. simpl. repeat split.
        -- eexists. split; [reflexivity|]. now repeat split.
        -- unfold find_first, has_id. simpl. now rewrite str_eqb_refl.
Qed.

Lemma list_of_set_list (name : listName) (d : MediaData) (l : list Movie) :
  list_of name (set_list name d l) = l
  /\ list_of (other_list name) (set_list name d l) = list_of (other_list name) d
  /\ suggestions (set_list name d l) = suggestions d
  /\ selectedMovie (set_list name d l) = selectedMovie d.
Proof. destruct name; repeat split. Qed.

Lemma list_ids_by_name (name : listName) (d : MediaData) :
  Permutation (list_ids d)
              (ids (list_of name d) ++ ids (list_of (other_list name) d)).
Proof.
  unfold list_ids, ids. rewrite map_app.
  destruct name; simpl; [reflexivity | apply Permutation_app_comm].
Qed.

(** X2: [removeMovie] takes the first record with the identifier out of
    the named list and saves; the other list is untouched, an absent
    identifier changes nothing.  When the removed movie is the selected one
    the selection is cleared, and the call ends in a [TypeError] if the
    page has no [movie-details] element, the removal being done and saved
    all the same.  From lists without a repeated identifier, the
    identifier is gone from the list afterwards. *)
Theorem removeMovie_effect (details_panel : bool) (id : jsstring)
        (name : listName) (s : Store) (t : list event) :
  exists c s' t',
    removeMovie details_panel id name s t = (c, s', t')
    /\ list_of (other_list name) (mediaData s')
       = list_of (other_list name) (mediaData s)
    /\ ids (suggestions (mediaData s')) = ids (suggestions (mediaData s))
    /\ ((~ In id (ids (list_of name (mediaData s)))
         /\ c = Normal tt /\ s' = s /\ t' = t)
        \/ (exists pre m post,
               list_of name (mediaData s) = pre ++ m :: post
               /\ imdbID m = id
               /\ ~ In id (ids pre)
               /\ list_of name (mediaData s') = pre ++ post
               /\ lists_saved s'
               /\ (selected id (mediaData s) = true ->
                   selectedMovie (mediaData s') = None)
               /\ (c = Throw TypeError
                   <-> selected id (mediaData s) = true
                       /\ details_panel = false)
               /\ (c = Normal tt
                   <-> selected id (mediaData s) = false
                       \/ details_panel = true)))
    /\ (distinct_ids (mediaData s) ->
        ~ In id (ids (list_of name (mediaData s')))
        /\ distinct_ids (mediaData s')).
Proof.
  unfold removeMovie, bind, read.
  destruct (findIndex (has_id id) (list_of name (mediaData s))) as [i|] eqn:Fi.
  - destruct (findIndex_split _ _ _ Fi)
      as (pre & m & post & Hl & _ & Pm & Hpre & _ & Hsp & _).
    apply has_id_true in Pm. apply has_id_none in Hpre.
    destruct (list_of_set_list name (mediaData s) (pre ++ post))
      as (Hsame & Hother & Hsug & Hsel).
    assert (Hdist : distinct_ids (mediaData s) ->
                    ~ In id (ids (pre ++ post))
                    /\ distinct_ids (set_list name (mediaData s) (pre ++ post))).
    { unfold distinct_ids. intros Hd.
      apply (Permutation_NoDup (list_ids_by_name name _)) in Hd.
      rewrite Hl in Hd. unfold ids in Hd |- *. rewrite !map_app in Hd.
      simpl in Hd. rewrite <- app_assoc in Hd. simpl in Hd.
      pose proof (NoDup_remove_2 _ _ _ Hd) as Hnot.
      pose proof (NoDup_remove_1 _ _ _ Hd) as Hnd.
      rewrite Pm in Hnot. split.
      - rewrite map_app. intros Hin. apply Hnot. rewrite in_app_iff in *.
        destruct Hin; [now left|right]. apply in_or_app. now left.
      - apply (Permutation_NoDup
                 (Permutation_sym (list_ids_by_name name _))).
        rewrite Hsame, Hother. unfold ids. rewrite map_app, <- app_assoc.
        exact Hnd. }
    unfold write, saveToLocalStorage, triggerUIUpdate, emit, ret, throw, selected.
    simpl. rewrite Hsp.
    assert (Hsaved : forall sel ls,
               lists_saved
                 (mkStore (set_selectedMovie
                             (set_list name (mediaData s) (pre ++ post)) sel)
                          ls) <->
               lists_saved
                 (mkStore (set_list name (mediaData s) (pre ++ post)) ls)).
    { intros sel ls. unfold lists_saved. simpl. reflexivity. }
    assert (Hbase : lists_saved
               (mkStore (set_list name (mediaData s) (pre ++ post))
                        (Some (set_list name (mediaData s) (pre ++ post))))).
    { eexists. split; [reflexivity|]. now repeat split. }
    rewrite Hsel.
    destruct (selectedMovie (mediaData s)) as [sel|];
      [destruct (has_id id sel)|]; [destruct details_panel| |]; simpl;
      (do 3 eexists; split; [reflexivity|]; simpl;
       split; [destruct name; reflexivity|];
       split; [destruct name; reflexivity|];
       split;
       [right; exists pre, m, post;
        split; [exact Hl|]; split; [exact Pm|]; split; [exact Hpre|];
        split; [destruct name; reflexivity|];
        split; [first [exact Hbase | now apply Hsaved]|];
        split; [first [reflexivity | discriminate | intros _; reflexivity]|];
        split; (split; [try discriminate; try (intros _; now split);
                        try (intros _; now left); try (intros _; now right)
                       |try reflexivity; try (intros [? ?]; discriminate);
                        try (intros [?|?]; discriminate)])
       |intros Hd; destruct (Hdist Hd) as [H1 H2];
        split; [destruct name; exact H1 | destruct name; exact H2]]).
  - apply findIndex_None, has_id_none in Fi.
    exists (Normal tt), s, t. split; [reflexivity|]. split; [reflexivity|].
    split; [reflexivity|]. split; [left; now repeat split|].
    intros Hd. now split.
Qed.

Lemma ids_update_first (p : Movie -> bool) (f : Movie -> Movie) (l : list Movie) :
  (forall m, imdbID (f m) = imdbID m) ->
  ids (update_first p f l) = ids l.
Proof.
  intros Hf. induction l as [|a l IH]; simpl; [reflexivity|].
  destruct (p a); simpl; [now rewrite Hf | now rewrite IH].
Qed.

(** X3: [updateMovieRating] sets the rating of the first watched record
    with the identifier, where it stands, and saves; the to-watch list and
    all identifiers are unchanged.  An identifier that is not in the
    watched list changes nothing, even if it is in the to-watch list. *)
Theorem updateMovieRating_effect (id : jsstring) (rating : Z) (s : Store)
        (t : list event) :
  exists s' t',
    updateMovieRating id rating s t = (Normal tt, s', t')
    /\ toWatch (mediaData s') = toWatch (mediaData s)
    /\ ids (watched (mediaData s')) = ids (watched (mediaData s))
    /\ ids (suggestions (mediaData s')) = ids (suggestions (mediaData s))
    /\ ((~ In id (ids (watched (mediaData s))) /\ s' = s /\ t' = t)
        \/ (exists pre m post,
               watched (mediaData s) = pre ++ m :: post
               /\ imdbID m = id
               /\ ~ In id (ids pre)
               /\ watched (mediaData s')
                  = pre ++ with_userRating m (Some rating) :: post
               /\ lists_saved s')).
Proof.
  unfold updateMovieRating, bind, read.
  pose proof (find_first_split (has_id id) (watched (mediaData s))) as Hf.
  destruct (find_first (has_id id) (watched (mediaData s))) as [m|].
  - destruct Hf as (pre & post & Hl & Pm & Hpre & _ & Hup).
    apply has_id_true in Pm. apply has_id_none in Hpre.
    unfold write, saveToLocalStorage, triggerUIUpdate, emit, refresh_selected,
      bind, read, ret. simpl.
    destruct (selectedMovie (mediaData s)) as [sel|];
      [destruct (has_id id sel)|]; simpl;
      (do 2 eexists; split; [reflexivity|]; simpl;
       split; [reflexivity|];
       split; [now apply ids_update_first|];
       split; [reflexivity|];
       right; exists pre, m, post; rewrite Hup;
       repeat split; auto;
       eexists; split; [reflexivity|]; now repeat split).
  - apply has_id_none in Hf. exists s, t. repeat split; auto.
Qed.

Lemma split_unique {A} (pre pre1 post post1 : list A) (x x1 : A) :
  pre ++ x :: post = pre1 ++ x1 :: post1 ->
  List.length pre = List.length pre1 ->
  pre = pre1 /\ x = x1 /\ post = post1.
Proof.
  revert pre1. induction pre as [|a pre IH]; intros [|b pre1] H Hlen;
    simpl in *; try discriminate.
  - injection H as -> ->. auto.
  - injection H as -> H. injection Hlen as Hlen.
    destruct (IH _ H Hlen) as (-> & -> & ->). auto.
Qed.

(** X4: [markAsWatched] followed by [markAsUnwatched] on an identifier of
    the to-watch list gives back the watched list as it was; the movie is
    then at the head of the to-watch list, not at its old place, and has
    no rating. *)
Theorem watch_then_unwatch (id : jsstring) (rating : option Z) (s : Store)
        (t : list event) (pre post : list Movie) (m : Movie) :
  toWatch (mediaData s) = pre ++ m :: post ->
  imdbID m = id ->
  ~ In id (ids pre) ->
  exists s' t',
    (markAsWatched id rating ;; markAsUnwatched id) s t = (Normal tt, s', t')
    /\ toWatch (mediaData s') = with_userRating m None :: pre ++ post
    /\ watched (mediaData s') = watched (mediaData s).
Proof.
  intros Hl Hid Hpre.
  destruct (markAsWatched_run id rating s t) as (s1 & t1 & Hrun1 & Hcase1).
  destruct Hcase1 as [(Hnot & _)|(pre1 & m1 & post1 & Hl1 & Hid1 & Hpre1 & Htw1 & Hwd1 & _)].
  { exfalso. apply Hnot. rewrite Hl. unfold ids. rewrite map_app. apply in_or_app.
    right. left. exact Hid. }
  assert (Hfirst : findIndex (has_id id) (pre ++ m :: post) = Some (List.length pre)).
  { apply findIndex_first; [now apply has_id_none | now apply has_id_true]. }
  assert (Hfirst1 : findIndex (has_id id) (pre1 ++ m1 :: post1) = Some (List.length pre1)).
  { apply findIndex_first; [now apply has_id_none | now apply has_id_true]. }
  rewrite Hl in Hl1. rewrite Hl1 in Hfirst. rewrite Hfirst in Hfirst1.
  injection Hfirst1 as Hlen.
  assert (Hsame : pre = pre1 /\ m = m1 /\ post = post1)
    by (apply (split_unique _ _ _ _ _ _ Hl1); congruence).
  destruct Hsame as (<- & <- & <-).
  destruct (markAsUnwatched_run id s1 t1) as (s2 & t2 & Hrun2 & Hcase2).
  exists s2, t2. unfold bind. rewrite Hrun1, Hrun2. split; [reflexivity|].
  destruct Hcase2 as [(Hnot & _)|(pre2 & m2 & post2 & Hl2 & Hid2 & Hpre2 & Hwd2 & Htw2 & _)].
  { exfalso. apply Hnot. rewrite Hwd1. simpl. left. now rewrite imdbID_rated. }
  rewrite Hwd1 in Hl2.
  destruct pre2 as [|b pre2].
  - simpl in Hl2. injection Hl2 as <- <-.
    rewrite Htw2, Hwd2, Htw1. split; [|reflexivity].
    now destruct rating.
  - exfalso. simpl in Hl2. injection Hl2 as <- _. apply Hpre2. simpl. left.
    now rewrite imdbID_rated.
Qed.

Lemma lists_saved_intro (d : MediaData) (sel : option Movie) :
  lists_saved (mkStore (set_selectedMovie d sel) (Some d)).
Proof. exists d. now repeat split. Qed.

Lemma lists_saved_same (d : MediaData) : lists_saved (mkStore d (Some d)).
Proof. exists d. now repeat split. Qed.

(** A move, seen from the store: the lists after it, and the blob. *)
Lemma markAsWatched_saved (id : jsstring) (rating : option Z) (s : Store)
      (t : list event) :
  exists s' t',
    markAsWatched id rating s t = (Normal tt, s', t')
    /\ (s' = s \/ lists_saved s')
    /\ Permutation (list_ids (mediaData s)) (list_ids (mediaData s'))
    /\ ids (suggestions (mediaData s')) = ids (suggestions (mediaData s)).
Proof.
  unfold markAsWatched, bind, read.
  destruct (findIndex (has_id id) (toWatch (mediaData s))) as [i|] eqn:Fi.
  - destruct (findIndex_split _ _ _ Fi)
      as (pre & m & post & Hl & _ & _ & _ & Hnth & Hsp & _).
    rewrite Hnth.
    unfold write, saveToLocalStorage, triggerUIUpdate, emit, refresh_selected,
      bind, read, ret. simpl.
    assert (HP : Permutation (list_ids (mediaData s))
                   (ids (splice1 i (toWatch (mediaData s))
                         ++ rated rating m :: watched (mediaData s)))).
    { unfold list_ids, ids. rewrite Hsp, Hl, !map_app. simpl.
      rewrite imdbID_rated, <- !app_assoc. simpl.
      apply Permutation_app_head. apply Permutation_middle. }
    destruct (selectedMovie (mediaData s)) as [sel|];
      [destruct (has_id id sel)|]; simpl;
      (do 2 eexists; split; [reflexivity|];
       split; [right; first [apply lists_saved_intro | apply lists_saved_same]|];
       split; [exact HP | reflexivity]).
  - exists s, t. repeat split; auto.
Qed.

Lemma markAsUnwatched_saved (id : jsstring) (s : Store) (t : list event) :
  exists s' t',
    markAsUnwatched id s t = (Normal tt, s', t')
    /\ (s' = s \/ lists_saved s')
    /\ Permutation (list_ids (mediaData s)) (list_ids (mediaData s'))
    /\ ids (suggestions (mediaData s')) = ids (suggestions (mediaData s)).
Proof.
  unfold markAsUnwatched, bind, read.
  destruct (findIndex (has_id id) (watched (mediaData s))) as [i|] eqn:Fi.
  - destruct (findIndex_split _ _ _ Fi)
      as (pre & m & post & Hl & _ & _ & _ & Hnth & Hsp & _).
    rewrite Hnth.
    unfold write, saveToLocalStorage, triggerUIUpdate, emit, refresh_selected,
      bind, read, ret. simpl.
    assert (HP : Permutation (list_ids (mediaData s))
                   (ids ((with_userRating m None :: toWatch (mediaData s))
                         ++ splice1 i (watched (mediaData s))))).
    { unfold list_ids, ids. rewrite Hsp, Hl, !map_app. simpl.
      rewrite !app_assoc. apply Permutation_sym, Permutation_middle. }
    destruct (selectedMovie (mediaData s)) as [sel|];
      [destruct (has_id id sel)|]; simpl;
      (do 2 eexists; split; [reflexivity|];
       split; [right; first [apply lists_saved_intro | apply lists_saved_same]|];
       split; [exact HP | reflexivity]).
  - exists s, t. repeat split; auto.
Qed.

Lemma addToWatchList_saved (movie : Movie) (s : Store) (t : list event) :
  exists added s' t',
    addToWatchList movie s t = (Normal added, s', t')
    /\ (s' = s \/ lists_saved s')
    /\ (distinct_ids (mediaData s) -> distinct_ids (mediaData s'))
    /\ ids (suggestions (mediaData s')) = ids (suggestions (mediaData s)).
Proof.
  unfold addToWatchList, findMovieInLists, bind, read, ret.
  pose proof (find_first_split (has_id (imdbID movie)) (toWatch (mediaData s))) as Htw.
  pose proof (find_first_split (has_id (imdbID movie)) (watched (mediaData s))) as Hwd.
  destruct (find_first _ (toWatch (mediaData s)));
    [exists false, s, t; repeat split; auto|].
  destruct (find_first _ (watched (mediaData s)));
    [exists false, s, t; repeat split; auto|].
  apply has_id_none in Htw, Hwd.
  do 3 eexists. split; [reflexivity|]. simpl.
  split; [right; apply lists_saved_same|]. split; [|reflexivity].
  unfold distinct_ids, list_ids, ids. simpl. intros Hd.
  constructor; [|exact Hd]. rewrite map_app, in_app_iff. tauto.
Qed.

Lemma removeMovie_saved (panel : bool) (id : jsstring) (name : listName)
      (s : Store) (t : list event) :
  exists c s' t',
    removeMovie panel id name s t = (c, s', t')
    /\ (s' = s \/ lists_saved s')
    /\ (distinct_ids (mediaData s) -> distinct_ids (mediaData s'))
    /\ ids (suggestions (mediaData s')) = ids (suggestions (mediaData s)).
Proof.
  unfold removeMovie, bind, read.
  destruct (findIndex (has_id id) (list_of name (mediaData s))) as [i|] eqn:Fi.
  - destruct (findIndex_split _ _ _ Fi)
      as (pre & m & post & Hl & _ & _ & _ & _ & Hsp & _).
    assert (Hdist : distinct_ids (mediaData s) ->
                    distinct_ids (set_list name (mediaData s) (pre ++ post))).
    { unfold distinct_ids. intros Hd.
      apply (Permutation_NoDup (list_ids_by_name name _)) in Hd.
      apply (Permutation_NoDup (Permutation_sym (list_ids_by_name name _))).
      destruct (list_of_set_list name (mediaData s) (pre ++ post))
        as (-> & -> & _).
      rewrite Hl in Hd. unfold ids in *. rewrite !map_app in *. simpl in Hd.
      rewrite <- app_assoc in *. simpl in Hd.
      now apply NoDup_remove_1 in Hd. }
    unfold write, saveToLocalStorage, triggerUIUpdate, emit, ret, throw.
    simpl. rewrite Hsp.
    destruct (list_of_set_list name (mediaData s) (pre ++ post))
      as (_ & _ & Hsug & Hsel).
    rewrite Hsel.
    destruct (selectedMovie (mediaData s)) as [sel|];
      [destruct (has_id id sel)|]; [destruct panel| |]; simpl;
      (do 3 eexists; split; [reflexivity|]; simpl;
       split; [right; first [apply lists_saved_intro | apply lists_saved_same]|];
       split; [exact Hdist | destruct name; reflexivity]).
  - exists (Normal tt), s, t. repeat split; auto.
Qed.

Lemma updateMovieRating_saved (id : jsstring) (rating : Z) (s : Store)
      (t : list event) :
  exists s' t',
    updateMovieRating id rating s t = (Normal tt, s', t')
    /\ (s' = s \/ lists_saved s')
    /\ list_ids (mediaData s') = list_ids (mediaData s)
    /\ ids (suggestions (mediaData s')) = ids (suggestions (mediaData s)).
Proof.
  unfold updateMovieRating, bind, read.
  destruct (find_first (has_id id) (watched (mediaData s))) as [m|].
  - unfold write, saveToLocalStorage, triggerUIUpdate, emit, refresh_selected,
      bind, read, ret. simpl.
    assert (Hids : forall l, ids (toWatch (mediaData s) ++
                     update_first (has_id id)
                       (fun m0 => with_userRating m0 (Some rating)) l)
                   = ids (toWatch (mediaData s) ++ l)).
    { intros l. unfold ids. rewrite !map_app. f_equal.
      now apply ids_update_first. }
    destruct (selectedMovie (mediaData s)) as [sel|];
      [destruct (has_id id sel)|]; simpl;
      (do 2 eexists; split; [reflexivity|];
       split; [right; first [apply lists_saved_intro | apply lists_saved_same]|];
       split; [apply Hids | reflexivity]).
  - exists s, t. repeat split; auto.
Qed.

(** One call of any of the five operations. *)
Lemma run_store_op_step (o : store_op) (s : Store) (t : list event) :
  exists c s' t',
    run_store_op o s t = (c, s', t')
    /\ (s' = s \/ lists_saved s')
    /\ (distinct_ids (mediaData s) -> distinct_ids (mediaData s'))
    /\ (keeps_records o = true ->
        c = Normal tt
        /\ Permutation (list_ids (mediaData s)) (list_ids (mediaData s')))
    /\ ids (suggestions (mediaData s')) = ids (suggestions (mediaData s)).
Proof.
  destruct o as [movie|id rating|id|panel id name|id rating]; simpl.
  - destruct (addToWatchList_saved movie s t)
      as (added & s' & t' & Hrun & Hsaved & Hd & Hsug).
    exists (Normal tt), s', t'. unfold bind. rewrite Hrun.
    repeat split; auto; discriminate.
  - destruct (markAsWatched_saved id rating s t)
      as (s' & t' & Hrun & Hsaved & HP & Hsug).
    exists (Normal tt), s', t'. repeat split; auto.
    unfold distinct_ids. now apply Permutation_NoDup.
  - destruct (markAsUnwatched_saved id s t)
      as (s' & t' & Hrun & Hsaved & HP & Hsug).
    exists (Normal tt), s', t'. repeat split; auto.
    unfold distinct_ids. now apply Permutation_NoDup.
  - destruct (removeMovie_saved panel id name s t)
      as (c & s' & t' & Hrun & Hsaved & Hd & Hsug).
    exists c, s', t'. repeat split; auto; discriminate.
  - destruct (updateMovieRating_saved id rating s t)
      as (s' & t' & Hrun & Hsaved & Hids & Hsug).
    exists (Normal tt), s', t'. repeat split; auto.
    + unfold distinct_ids. now rewrite Hids.
    + now rewrite Hids.
Qed.

Lemma run_store_ops_steps (ops : list store_op) (s : Store) (t : list event) :
  exists s' t',
    run_store_ops ops s t = (Normal tt, s', t')
    /\ (s' = s \/ lists_saved s')
    /\ (distinct_ids (mediaData s) -> distinct_ids (mediaData s'))
    /\ (forallb keeps_records ops = true ->
        Permutation (list_ids (mediaData s)) (list_ids (mediaData s')))
    /\ ids (suggestions (mediaData s')) = ids (suggestions (mediaData s)).
Proof.
  revert s t. induction ops as [|o ops IH]; intros s t; simpl.
  - exists s, t. repeat split; auto.
  - destruct (run_store_op_step o s t)
      as (c & s1 & t1 & Hrun & Hsaved & Hd & Hkeep & Hsug).
    destruct (IH s1 t1) as (s2 & t2 & Hrest & Hsaved2 & Hd2 & Hkeep2 & Hsug2).
    exists s2, t2. unfold bind, try_catchM, ret. rewrite Hrun.
    split; [now destruct c|].
    split; [destruct Hsaved2 as [->|]; auto|].
    split; [auto|]. split; [|congruence].
    intros H. apply andb_true_iff in H as [Ho Hops].
    destruct (Hkeep Ho) as [_ HP]. now rewrite HP, <- (Hkeep2 Hops).
Qed.

Lemma find_app_first {A} (p : A -> bool) (l1 l2 : list A) :
  find p (l1 ++ l2)
  = match find p l1 with
    | Some x => Some x
    | None => find p l2
    end.
Proof.
  induction l1 as [|a l1 IH]; simpl; [reflexivity|]. now destruct (p a).
Qed.

Lemma find_unique (l : list Movie) (m : Movie) :
  NoDup (ids l) -> In m l -> find (has_id (imdbID m)) l = Some m.
Proof.
  unfold ids. induction l as [|a l IH]; simpl; intros Hnd Hin; [contradiction|].
  inversion Hnd as [|? ? Hnot Hnd']; subst.
  destruct Hin as [->|Hin].
  - unfold has_id. now rewrite str_eqb_refl.
  - destruct (has_id (imdbID m) a) eqn:E; [|now apply IH].
    apply has_id_true in E. exfalso. apply Hnot. rewrite E. now apply in_map.
Qed.

(** X5: the five operations of the store cannot create a repeated
    identifier.  From lists without one, every sequence of
    [addToWatchList], [markAsWatched], [markAsUnwatched], [removeMovie] and
    [updateMovieRating] runs to its end and leaves lists without one; no
    identifier is then in both lists, and [findMovieInLists] returns, for
    the identifier of any record of the lists, that very record. *)
Theorem store_ops_keep_ids_distinct (ops : list store_op) (s : Store)
        (t : list event) :
  distinct_ids (mediaData s) ->
  exists s' t',
    run_store_ops ops s t = (Normal tt, s', t')
    /\ distinct_ids (mediaData s')
    /\ exclusive (mediaData s')
    /\ forall m,
        In m (toWatch (mediaData s') ++ watched (mediaData s')) ->
        findMovieInLists (imdbID m) s' t' = (Normal (Some m), s', t').
Proof.
  intros Hd.
  destruct (run_store_ops_steps ops s t) as (s' & t' & Hrun & _ & Hd' & _).
  exists s', t'. split; [exact Hrun|]. specialize (Hd' Hd). split; [auto|].
  split; [now apply distinct_exclusive|].
  intros m Hin. apply (find_unique _ _ Hd') in Hin.
  rewrite find_app_first in Hin.
  unfold findMovieInLists, find_first, bind, read, ret.
  destruct (find (has_id (imdbID m)) (toWatch (mediaData s')));
    [now injection Hin as ->|]. now rewrite Hin.
Qed.

(** X6: moving and rating never lose or duplicate a movie.  After any
    sequence of [markAsWatched], [markAsUnwatched] and [updateMovieRating],
    whatever the store, the identifiers of the two lists taken together
    are the same, with the same multiplicities, the two lengths add up to
    the same number and the identifiers of the suggestions are the same. *)
Theorem moves_keep_every_record (ops : list store_op) (s : Store)
        (t : list event) :
  forallb keeps_records ops = true ->
  exists s' t',
    run_store_ops ops s t = (Normal tt, s', t')
    /\ Permutation (list_ids (mediaData s)) (list_ids (mediaData s'))
    /\ (List.length (toWatch (mediaData s'))
        + List.length (watched (mediaData s'))
        = List.length (toWatch (mediaData s))
          + List.length (watched (mediaData s)))%nat
    /\ ids (suggestions (mediaData s')) = ids (suggestions (mediaData s)).
Proof.
  intros Hk.
  destruct (run_store_ops_steps ops s t) as (s' & t' & Hrun & _ & _ & HP & Hsug).
  exists s', t'. split; [exact Hrun|]. specialize (HP Hk).
  split; [exact HP|]. split; [|exact Hsug].
  apply Permutation_length in HP. unfold list_ids, ids in HP.
  rewrite !length_map, !length_app in HP. lia.
Qed.

(** X7: local storage follows the lists.  After any sequence of the five
    operations either the store is entirely as it was, or the saved blob
    holds the to-watch list, the watched list and the suggestions exactly
    as they are in memory; so a blob that was current stays current. *)
Theorem store_ops_keep_storage_current (ops : list store_op) (s : Store)
        (t : list event) :
  exists s' t',
    run_store_ops ops s t = (Normal tt, s', t')
    /\ (s' = s \/ lists_saved s')
    /\ (lists_saved s -> lists_saved s').
Proof.
  destruct (run_store_ops_steps ops s t) as (s' & t' & Hrun & Hsaved & _).
  exists s', t'. split; [exact Hrun|]. split; [exact Hsaved|].
  intros Hs. now destruct Hsaved as [->|Hsaved].
Qed.

Lemma addToWatchList_lookup_witness :
  exists s' t',
    addToWatchList dune (store_of [alien] [brazil] []) []
    = (Normal true, s', t')
    /\ toWatch (mediaData s') = [dune; alien]
    /\ findMovieInLists (imdbID dune) s' t' = (Normal (Some dune), s', t').
Proof.
  destruct (addToWatchList_lookup dune (store_of [alien] [brazil] []) [])
    as (added & s' & t' & Hrun & Hiff & _ & Hyes).
  assert (Hadded : added = true).
  { apply Hiff. simpl. intuition discriminate. }
  subst added. exists s', t'. split; [exact Hrun|].
  destruct (Hyes eq_refl) as (Htw & _ & _ & _ & Hfind). now split.
Defined.

Lemma removeMovie_effect_witness :
  exists c s' t',
    removeMovie false (imdbID alien) toWatchList
                (mkStore (mkMediaData [alien; contact] [brazil] (Some alien)
                                      [] [])
                         None) []
    = (c, s', t')
    /\ c = Throw TypeError
    /\ toWatch (mediaData s') = [contact]
    /\ ~ In (imdbID alien) (ids (toWatch (mediaData s'))).
Proof.
  destruct (removeMovie_effect false (imdbID alien) toWatchList
              (mkStore (mkMediaData [alien; contact] [brazil] (Some alien)
                                    [] [])
                       None) [])
    as (c & s' & t' & Hrun & _ & _ & Hcase & Hd).
  exists c, s', t'. split; [exact Hrun|].
  assert (Hdist : distinct_ids
                    (mkMediaData [alien; contact] [brazil] (Some alien) [] [])).
  { unfold distinct_ids. repeat constructor; simpl; intuition discriminate. }
  destruct (Hd Hdist) as [Hgone _].
  destruct Hcase as [(Habs & _)|(pre & m & post & Hl & Hid & Hpre & Hl' & _ & _ & Hthrow & _)].
  - exfalso. apply Habs. simpl. now left.
  - split; [apply Hthrow; now split|]. split; [|exact Hgone].
    simpl in Hl, Hl'. rewrite Hl'.
    destruct pre as [|a pre].
    + simpl in Hl. injection Hl as _ <-. reflexivity.
    + exfalso. simpl in Hl. injection Hl as <- _. apply Hpre. simpl. now left.
Defined.

Lemma watch_then_unwatch_witness :
  exists s' t',
    (markAsWatched (imdbID contact) (Some 8%Z) ;;
     markAsUnwatched (imdbID contact))%monad
      (store_of [alien; contact; heat] [brazil] []) []
    = (Normal tt, s', t')
    /\ toWatch (mediaData s') = [contact; alien; heat]
    /\ watched (mediaData s') = [brazil].
Proof.
  apply (watch_then_unwatch (imdbID contact) (Some 8%Z)
           (store_of [alien; contact; heat] [brazil] []) []
           [alien] [heat] contact).
  - reflexivity.
  - reflexivity.
  - simpl. intuition discriminate.
Defined.

Lemma store_ops_keep_ids_distinct_witness :
  exists s' t',
    run_store_ops [Add alien; Add alien; Watch (imdbID alien) (Some 6%Z);
                   Add brazil; Remove false (imdbID brazil) toWatchList;
                   Rate (imdbID alien) 9%Z; Unwatch (imdbID alien)]
                  empty_store []
    = (Normal tt, s', t')
    /\ distinct_ids (mediaData s')
    /\ exclusive (mediaData s')
    /\ forall m,
        In m (toWatch (mediaData s') ++ watched (mediaData s')) ->
        findMovieInLists (imdbID m) s' t' = (Normal (Some m), s', t').
Proof.
  apply (store_ops_keep_ids_distinct _ empty_store []).
  unfold distinct_ids. simpl. constructor.
Defined.

Lemma moves_keep_every_record_witness :
  exists s' t',
    run_store_ops [Watch (imdbID alien) None; Rate (imdbID alien) 7%Z;
                   Unwatch (imdbID brazil); Unwatch (imdbID heat)]
                  alien_twice []
    = (Normal tt, s', t')
    /\ Permutation (list_ids (mediaData alien_twice)) (list_ids (mediaData s'))
    /\ (List.length (toWatch (mediaData s'))
        + List.length (watched (mediaData s')) = 2 + 0)%nat
    /\ ids (suggestions (mediaData s')) = [].
Proof.
  apply (moves_keep_every_record _ alien_twice []). reflexivity.
Defined.

Lemma store_ops_keep_storage_current_witness :
  exists s' t',
    run_store_ops [Add alien; Watch (imdbID alien) None]
                  (mkStore (mediaData (store_of [brazil] [] []))
                           (Some (mediaData (store_of [brazil] [] [])))) []
    = (Normal tt, s', t')
    /\ lists_saved s'.
Proof.
  destruct (store_ops_keep_storage_current
              [Add alien; Watch (imdbID alien) None]
              (mkStore (mediaData (store_of [brazil] [] []))
                       (Some (mediaData (store_of [brazil] [] [])))) [])
    as (s' & t' & Hrun & _ & Hkeep).
  exists s', t'. split; [exact Hrun|]. apply Hkeep.
  eexists. split; [reflexivity|]. now repeat split.
Defined.

Lemma run_store_op_unselected (o : store_op) (s : Store) (t : list event) :
  selectedMovie (mediaData s) = None ->
  exists s' evs,
    run_store_op o s t = (Normal tt, s', t ++ evs)
    /\ selectedMovie (mediaData s') = None
    /\ forallb is_ui_update evs = true.
Proof.
  intros Hsel.
  assert (Hnil : forall s0 : Store, selectedMovie (mediaData s0) = None ->
            exists s' evs, (Normal tt, s0, t) = (Normal tt, s', t ++ evs)
                           /\ selectedMovie (mediaData s') = None
                           /\ forallb is_ui_update evs = true).
  { intros s0 H0. exists s0, []. rewrite app_nil_r. now repeat split. }
  destruct o as [movie|id rating|id|panel id name|id rating]; simpl.
  - unfold addToWatchList, findMovieInLists, bind, read, ret.
    destruct (find_first _ (toWatch (mediaData s))); [now apply Hnil|].
    destruct (find_first _ (watched (mediaData s))); [now apply Hnil|].
    unfold write, saveToLocalStorage, triggerUIUpdate, emit. simpl.
    do 2 eexists. split; [reflexivity|]. now split.
  - unfold markAsWatched, bind, read.
    destruct (findIndex _ _) as [i|] eqn:Fi; [|now apply Hnil].
    destruct (findIndex_split _ _ _ Fi) as (pre & m & post & _ & _ & _ & _ & -> & _).
    unfold write, saveToLocalStorage, triggerUIUpdate, emit, refresh_selected,
      bind, read, ret. simpl. rewrite Hsel.
    do 2 eexists. split; [reflexivity|]. now split.
  - unfold markAsUnwatched, bind, read.
    destruct (findIndex _ _) as [i|] eqn:Fi; [|now apply Hnil].
    destruct (findIndex_split _ _ _ Fi) as (pre & m & post & _ & _ & _ & _ & -> & _).
    unfold write, saveToLocalStorage, triggerUIUpdate, emit, refresh_selected,
      bind, read, ret. simpl. rewrite Hsel.
    do 2 eexists. split; [reflexivity|]. now split.
  - unfold removeMovie, bind, read.
    destruct (findIndex _ _) as [i|] eqn:Fi; [|now apply Hnil].
    unfold write, saveToLocalStorage, triggerUIUpdate, emit, ret. simpl.
    destruct name; simpl; rewrite Hsel;
      (do 2 eexists; split; [reflexivity|]; now split).
  - unfold updateMovieRating, bind, read.
    destruct (find_first _ _); [|now apply Hnil].
    unfold write, saveToLocalStorage, triggerUIUpdate, emit, refresh_selected,
      bind, read, ret. simpl. rewrite Hsel.
    do 2 eexists. split; [reflexivity|]. now split.
Qed.

(** X8: the store never selects a movie by itself.  From a store without
    a selected movie, each of the five operations, and every sequence of
    them, ends normally with no movie selected, and logs refreshes of the
    lists only: [showMovieDetails] is not called, and [removeMovie] never
    reaches the statement that needs the [movie-details] element. *)
Theorem store_ops_never_select (s : Store) (t : list event) :
  selectedMovie (mediaData s) = None ->
  (forall o, exists s' evs,
      run_store_op o s t = (Normal tt, s', t ++ evs)
      /\ selectedMovie (mediaData s') = None
      /\ forallb is_ui_update evs = true)
  /\ (forall ops, exists s' evs,
         run_store_ops ops s t = (Normal tt, s', t ++ evs)
         /\ selectedMovie (mediaData s') = None
         /\ forallb is_ui_update evs = true).
Proof.
  intros Hsel. split; [intros o; now apply run_store_op_unselected|].
  intros ops. revert s t Hsel.
  induction ops as [|o ops IH]; intros s t Hsel; simpl.
  - exists s, []. rewrite app_nil_r. now repeat split.
  - destruct (run_store_op_unselected o s t Hsel) as (s1 & evs1 & Hrun & Hsel1 & Hui1).
    destruct (IH s1 (t ++ evs1) Hsel1) as (s2 & evs2 & Hrest & Hsel2 & Hui2).
    exists s2, (evs1 ++ evs2). unfold bind, try_catchM. rewrite Hrun, Hrest.
    rewrite app_assoc. split; [reflexivity|]. split; [exact Hsel2|].
    now rewrite forallb_app, Hui1, Hui2.
Qed.

Lemma store_ops_never_select_witness :
  exists s' evs,
    run_store_ops [Add alien; Remove false (imdbID alien) toWatchList]
                  empty_store []
    = (Normal tt, s', [] ++ evs)
    /\ selectedMovie (mediaData s') = None
    /\ forallb is_ui_update evs = true.
Proof.
  apply (proj2 (store_ops_never_select empty_store [] eq_refl)).
Defined.

(** ** Filtering, searching and enhancing *)

Lemma String_includes_empty (s : jsstring) : String_includes s [] = true.
Proof. destruct s; reflexivity. Qed.





(** X10: [searchMovies] raises exactly when the service failed: no answer
    ([FetchFailed]), a status that is not a success (an error carrying the
    status, the body unread) or an unreadable body.  In every other case it
    returns a list: the search results, the single title found, or the
    empty list when nothing is found. *)
Theorem searchMovies_outcome (catalog : Catalog) (query year type : jsstring) :
  let request :=
    SearchFor (if_truthy query) (if_truthy year) (if_truthy type) in
  ((exists e, searchMovies catalog query year type = Throw e)
   <-> catalog request = Rejected
       \/ exists response,
           catalog request = Responded response
           /\ (ok response = false \/ json response = None))
  /\ (catalog request = Rejected ->
      searchMovies catalog query year type = Throw FetchFailed)
  /\ (forall response,
         catalog request = Responded response ->
         ok response = false ->
         searchMovies catalog query year type
         = Throw (request_failed (status response)))
  /\ (forall response data,
         catalog request = Responded response ->
         ok response = true ->
         json response = Some data ->
         searchMovies catalog query year type
         = Normal (if is_True (Response data) then
                     match Search data with
                     | Some found => found
                     | None =>
                         match Title (as_movie data) with
                         | [] => []
                         | _ => [as_movie data]
                         end
                     end
                   else [])).
Proof.
  intros request. unfold searchMovies, try_catch. fold request.
  split; [split|].
  - intros [e H]. destruct (catalog request) as [|response]; [now left|].
    right. exists response. split; [reflexivity|].
    destruct (ok response); [right|now left].
    destruct (json response) as [data|]; [|reflexivity].
    simpl in H. destruct (is_True (Response data)); [|discriminate].
    destruct (Search data); [discriminate|].
    destruct (Title (as_movie data)); discriminate.
  - intros [->|(response & -> & [Hok|Hjson])]; [now eexists| |].
    + rewrite Hok. now eexists.
    + destruct (ok response); simpl; [rewrite Hjson|]; now eexists.
  - split; [now intros ->|]. split.
    + intros response -> ->. reflexivity.
    + intros response data -> -> ->. simpl.
      destruct (is_True (Response data)); [|reflexivity].
      destruct (Search data); [reflexivity|].
      now destruct (Title (as_movie data)).
Qed.

Lemma enhance_one_total (catalog : Catalog) (m : Movie) :
  exists e,
    enhance_one catalog m = Normal e
    /\ (e = m
        \/ exists response details,
            catalog (ShortDetails (imdbID m)) = Responded response
            /\ json response = Some details
            /\ is_True (Response details) = true
            /\ e = as_movie details)
    /\ (catalog (ShortDetails (imdbID m)) = Rejected -> e = m).
Proof.
  unfold enhance_one, try_catch.
  destruct (catalog (ShortDetails (imdbID m))) as [|response];
    [exists m; repeat split; auto|].
  destruct (json response) as [details|] eqn:Ej;
    [|exists m; repeat split; auto; try discriminate].
  destruct (is_True (Response details)) eqn:Et.
  - exists (as_movie details). split; [reflexivity|]. split; [|discriminate].
    right. now exists response, details.
  - exists m. repeat split; auto; try discriminate.
Qed.

Lemma all_of_enhance (catalog : Catalog) (l : list Movie) :
  exists r,
    all_of (map (enhance_one catalog) l) = Normal r
    /\ Forall2 (fun m e => enhance_one catalog m = Normal e) l r.
Proof.
  induction l as [|m l (r & Hr & Hall)]; simpl; [exists []; now split|].
  destruct (enhance_one_total catalog m) as (e & He & _).
  rewrite He, Hr. exists (e :: r). split; [reflexivity|]. now constructor.
Qed.

(** X11: [enhanceSearchResults] never throws and never loses a result.
    It returns as many movies as it was given; from the sixth on they are
    the given ones; each of the first five is either the given movie or
    the details the service returned for its identifier; with the service
    unreachable the list comes back unchanged. *)
Theorem enhanceSearchResults_shape (catalog : Catalog) (movies : list Movie) :
  exists enhanced,
    enhanceSearchResults catalog movies = Normal enhanced
    /\ List.length enhanced = List.length movies
    /\ skipn 5 enhanced = skipn 5 movies
    /\ Forall2 (fun m e =>
                  e = m
                  \/ exists response details,
                      catalog (ShortDetails (imdbID m)) = Responded response
                      /\ json response = Some details
                      /\ is_True (Response details) = true
                      /\ e = as_movie details)
               movies enhanced
    /\ ((forall id, catalog (ShortDetails id) = Rejected) ->
        enhanced = movies).
Proof.
  unfold enhanceSearchResults.
  destruct (all_of_enhance catalog (firstn 5 movies)) as (r & -> & Hall).
  exists (r ++ skipn 5 movies). split; [reflexivity|].
  pose proof (Forall2_length Hall) as Hlen.
  split.
  { rewrite length_app, <- Hlen, <- length_app. now rewrite firstn_skipn. }
  split.
  { assert (Hr : List.length r = Nat.min 5 (List.length movies))
      by (rewrite <- Hlen; apply length_firstn).
    rewrite skipn_app, Hr, (skipn_all2 r) by lia. cbn [app].
    destruct (Nat.le_gt_cases 5 (List.length movies)) as [H|H].
    - rewrite Nat.min_l by exact H. now rewrite Nat.sub_diag.
    - rewrite (skipn_all2 movies) by lia. now rewrite skipn_nil. }
  split.
  { rewrite <- (firstn_skipn 5 movies) at 1. apply Forall2_app.
    - eapply Forall2_impl; [|exact Hall]. intros m e He.
      destruct (enhance_one_total catalog m) as (e' & He' & Hcase & _).
      rewrite He in He'. injection He' as <-. exact Hcase.
    - clear. induction (skipn 5 movies); constructor; auto. }
  intros Hdown. rewrite <- (firstn_skipn 5 movies) at 2. f_equal.
  clear Hlen. induction Hall as [|m e l r He _ IH]; [reflexivity|].
  destruct (enhance_one_total catalog m) as (e' & He' & _ & Hrej).
  rewrite He in He'. injection He' as <-. rewrite (Hrej (Hdown _)).
  now rewrite IH.
Qed.


Lemma searchMovies_outcome_witness :
  searchMovies unreachable (u "Dune") [] [] = Throw FetchFailed
  /\ searchMovies (finds [dune; heat]) (u "Dune") (u "2021") []
     = Normal [dune; heat].
Proof.
  split.
  - apply (proj1 (proj2 (searchMovies_outcome unreachable (u "Dune") [] []))).
    reflexivity.
  - apply (proj2 (proj2 (proj2
             (searchMovies_outcome (finds [dune; heat]) (u "Dune")
                                   (u "2021") [])))
             (mkResponse true 200%Z
                (Some (mkOmdbBody (u "True") [] (Some [dune; heat])
                                  (movie "" "" ""))))
             (mkOmdbBody (u "True") [] (Some [dune; heat]) (movie "" "" "")));
      reflexivity.
Defined.

Lemma enhanceSearchResults_shape_witness :
  enhanceSearchResults unreachable
                       [alien; brazil; contact; dune; heat; alien; brazil]
  = Normal [alien; brazil; contact; dune; heat; alien; brazil].
Proof.
  destruct (enhanceSearchResults_shape unreachable
              [alien; brazil; contact; dune; heat; alien; brazil])
    as (enhanced & Hrun & _ & _ & _ & Hdown).
  rewrite Hrun. f_equal. apply Hdown. reflexivity.
Defined.

(** ** The suggestion service: outcomes, requests, candidates *)









Lemma set_index_length {A} (i : nat) (x : A) (l : list A) :
  List.length (set_index i x l) = List.length l.
Proof.
  revert i; induction l as [|a l IH]; intros [|i]; simpl; auto.
Qed.


Lemma resolve_candidate_lookup (w : World) (known : list jsstring) (c : value) :
  result_of (resolve_candidate w known c)
  = Normal (resolved_by_lookup w known c).
Proof.
  unfold result_of at 1, resolved_by_lookup.
  cbv beta iota zeta delta [resolve_candidate try_catchM bind lift ret].
  destruct (get_prop c (u "title")) as [title|e] eqn:Et; [|reflexivity].
  destruct (get_prop_reason c title Et) as (r & -> & year & ->).
  rewrite (client_run _ (client_searchMovieByTitle w title year)).
  destruct (searchMovieByTitle_total w title year) as [[details|] ->];
    [|reflexivity].
  now destruct (includes known (imdbID details)).
Qed.

Lemma resolve_all_lookup (w : World) (known : list jsstring) (cs : list value) :
  result_of (mapM (resolve_candidate w known) cs)
  = Normal (map (resolved_by_lookup w known) cs).
Proof.
  induction cs as [|c cs IH]; simpl mapM; [reflexivity|].
  rewrite result_of_bind;
    [|apply client_resolve_candidate
     |intros; apply client_bind;
      [apply client_resolve_all|intros; apply client_ret]].
  rewrite resolve_candidate_lookup.
  rewrite result_of_bind; [|apply client_resolve_all|intros; apply client_ret].
  now rewrite IH.
Qed.

(** X14: the set that [getMovieSuggestions] saves is what the first five
    candidates of the reply resolve to, in the order of the reply and
    without the ones that did not resolve: a sixth candidate never enters
    the set, and a candidate without a reason gets the default one. *)
Theorem getMovieSuggestions_saves_resolved (w : World) (cb : callbacks)
        (s : Store) (t : list event) (items : list value) :
  has_movies (mediaData s) = true ->
  result_of (bulk_call w (mediaData s)) = Normal (VArr items) ->
  let v := non_null (map (resolved_by_lookup w (list_ids (mediaData s)))
                         (firstn 5 items)) in
  exists requests,
    getMovieSuggestions w cb s t
    = (Normal tt, saved (interference w 1 (interference w 0 s)) v,
       t ++ notified (on_start cb) LoadStart ++ requests
         ++ SavedSuggestions v :: notified (on_complete cb) (LoadComplete v))
    /\ forallb is_request requests = true.
Proof.
  intros Hm Hr v. rewrite (getMovieSuggestions_run w cb s t Hm). cbv zeta.
  rewrite Hr. cbn [slice_0_5]. rewrite resolve_all_lookup. fold v.
  exists (calls_of (bulk_call w (mediaData s))
          ++ calls_of (mapM (resolve_candidate w (list_ids (mediaData s)))
                            (firstn 5 items))).
  split; [now rewrite <- !app_assoc|].
  rewrite forallb_app, (proj2 (client_bulk_call w (mediaData s))).
  apply (proj2 (client_resolve_all w _ _)).
Qed.

Lemma getMovieSuggestions_saves_resolved_witness :
  exists requests,
    getMovieSuggestions twice_dune all_callbacks (store_of [alien] [] [heat]) []
    = (Normal tt,
       saved (store_of [alien] [] [heat])
             [dune_suggested; with_reason dune (VStr (u "desert politics"))],
       [] ++ [LoadStart] ++ requests
          ++ [SavedSuggestions
                [dune_suggested; with_reason dune (VStr (u "desert politics"))];
              LoadComplete
                [dune_suggested; with_reason dune (VStr (u "desert politics"))]])
    /\ forallb is_request requests = true.
Proof.
  apply (getMovieSuggestions_saves_resolved twice_dune all_callbacks
           (store_of [alien] [] [heat]) [] dune_candidates).
  - reflexivity.
  - vm_compute. reflexivity.
Defined.

(** X15: a replacement whose candidate resolves to a movie of one of the
    lists or of the current set is refused: [replaceSuggestion] returns
    undefined, writes nothing, and calls the error callback with the
    message that the movie is already in the lists, whether or not the
    target is still in the set. *)
Theorem replaceSuggestion_rejects_known (w : World) (id : jsstring)
        (cb : callbacks) (s : Store) (t : list event)
        (suggestionData title year : value) (details : Movie) :
  result_of (single_call w (mediaData s)) = Normal suggestionData ->
  get_prop suggestionData (u "title") = Normal title ->
  get_prop suggestionData (u "year") = Normal year ->
  result_of (searchMovieByTitle w title year) = Normal (Some details) ->
  In (imdbID details) (known_ids (mediaData s)) ->
  exists requests,
    replaceSuggestion w id cb s t
    = (Normal ReturnedUndefined, interference w 1 (interference w 0 s),
       t ++ notified (on_start cb) (ReplaceStart id) ++ requests
         ++ notified (on_error cb) (OnError already_in_lists))
    /\ forallb is_request requests = true.
Proof.
  intros Hsd Ht Hy Hlookup Hknown.
  rewrite replaceSuggestion_run. cbv zeta. rewrite Hsd, Ht, Hy.
  destruct (get_prop_reason _ _ Ht) as (r & -> & _).
  rewrite Hlookup. apply includes_In in Hknown. rewrite Hknown.
  exists (calls_of (single_call w (mediaData s))
          ++ calls_of (searchMovieByTitle w title year)).
  split; [now rewrite <- !app_assoc|].
  rewrite forallb_app, (proj2 (client_single_call w (mediaData s))).
  apply (proj2 (client_searchMovieByTitle w title year)).
Qed.

Lemma replaceSuggestion_rejects_known_witness :
  exists requests,
    replaceSuggestion one_dune (imdbID heat) all_callbacks
                      (store_of [alien] [dune] [heat]) []
    = (Normal ReturnedUndefined, store_of [alien] [dune] [heat],
       [] ++ [ReplaceStart (imdbID heat)] ++ requests
          ++ [OnError already_in_lists])
    /\ forallb is_request requests = true.
Proof.
  apply (replaceSuggestion_rejects_known one_dune (imdbID heat) all_callbacks
           (store_of [alien] [dune] [heat]) []
           (suggestion_object (VStr (u "Dune")) (VStr (u "2021"))
                              (VStr (u "epic scale")))
           (VStr (u "Dune")) (VStr (u "2021")) dune).
  - vm_compute. reflexivity.
  - reflexivity.
  - reflexivity.
  - vm_compute. reflexivity.
  - simpl. auto.
Defined.

(** ** The buttons of a suggestion card *)


(** A move of the first record with the identifier, with the save. *)
Lemma markAsWatched_first (id : jsstring) (rating : option Z) (s : Store)
      (t : list event) (pre post : list Movie) (m : Movie) :
  toWatch (mediaData s) = pre ++ m :: post ->
  imdbID m = id ->
  ~ In id (ids pre) ->
  exists s' t',
    markAsWatched id rating s t = (Normal tt, s', t')
    /\ toWatch (mediaData s') = pre ++ post
    /\ watched (mediaData s') = rated rating m :: watched (mediaData s)
    /\ suggestions (mediaData s') = suggestions (mediaData s)
    /\ lists_saved s'.
Proof.
  intros Htw Hid Hpre.
  assert (Hix : findIndex (has_id id) (toWatch (mediaData s))
                = Some (List.length pre)).
  { rewrite Htw. apply findIndex_first; [now apply has_id_none|].
    now apply has_id_true. }
  assert (Hnth' : nth_error (toWatch (mediaData s)) (List.length pre) = Some m).
  { rewrite Htw, nth_error_app2, Nat.sub_diag; [reflexivity|lia]. }
  assert (Hsp' : splice1 (List.length pre) (toWatch (mediaData s)) = pre ++ post).
  { rewrite Htw. clear. induction pre; simpl; [reflexivity|now f_equal]. }
  unfold markAsWatched, bind, read. rewrite Hix, Hnth'.
  unfold write, saveToLocalStorage, triggerUIUpdate, emit, refresh_selected,
    bind, read, ret. simpl. rewrite Hsp'.
  destruct (selectedMovie (mediaData s)) as [sel|];
    [destruct (has_id id sel)|]; simpl;
    (do 2 eexists; split; [reflexivity|]; simpl; repeat split;
     try (now destruct rating);
     first [apply lists_saved_intro | apply lists_saved_same]).
Qed.









(** ** Rating a movie (components/ratings.js, utils/uiUtils.js) *)

Lemma filled_doubled (v : Z) :
  (0 <= v <= 5)%Z -> filled (createStarRating (2 * v)) = Z.to_nat v.
Proof.
  intros Hv. unfold createStarRating, round_half.
  replace ((2 * v + 1) / 2)%Z with v
    by (apply Z.div_unique with 1%Z; lia).
  assert (v = 0 \/ v = 1 \/ v = 2 \/ v = 3 \/ v = 4 \/ v = 5)%Z
    as [->|[->|[->|[->|[->| ->]]]]] by lia; reflexivity.
Qed.

(** X18: rating from the modal.  After [showRatingModal(movie)], a click on
    a star moves the first to-watch record with the identifier of the movie
    to the head of the watched list and saves the store; the stored rating
    is twice the value of the star, or 10 when the value is not a positive
    number; for the stars one to five, [createStarRating] of the stored
    rating fills as many stars as were clicked.  The state of the modal is
    reset, so that a second [saveRating] changes nothing. *)
Theorem star_click_rates (movie : Movie) (value : option Z) (r0 : RatingState)
        (s : Store) (t : list event) (pre post : list Movie) (m : Movie) :
  toWatch (mediaData s) = pre ++ m :: post ->
  imdbID m = imdbID movie ->
  ~ In (imdbID movie) (ids pre) ->
  exists rating s' t',
    on_star_click value (showRatingModal movie r0) s t
    = (Normal (mkRatingState None (Some 0%Z)), s', t')
    /\ toWatch (mediaData s') = pre ++ post
    /\ watched (mediaData s')
       = with_userRating m (Some rating) :: watched (mediaData s)
    /\ lists_saved s'
    /\ (forall v, value = Some v -> (1 <= v)%Z -> rating = (2 * v)%Z)
    /\ (is_positive value = false -> rating = 10%Z)
    /\ (forall v, value = Some v -> (1 <= v <= 5)%Z ->
                  filled (createStarRating rating) = Z.to_nat v)
    /\ saveRating (mkRatingState None (Some 0%Z)) s' t'
       = (Normal (mkRatingState None (Some 0%Z)), s', t').
Proof.
  intros Htw Hid Hpre.
  set (rating := match value with
                 | Some v => if (0 <? v)%Z then (v * 2)%Z else 10%Z
                 | None => 10%Z
                 end).
  destruct (markAsWatched_first (imdbID movie) (Some rating) s t pre post m
              Htw Hid Hpre)
    as (s' & t' & Hrun & Htw' & Hwd' & _ & Hsaved).
  exists rating, s', t'.
  split.
  { unfold on_star_click, saveRating, showRatingModal, setRating, bind, ret.
    cbn [currentMovie currentRating is_positive].
    destruct value as [v|]; [destruct (0 <? v)%Z eqn:Hv|];
      subst rating; cbv beta iota in Hrun |- *.
    - rewrite Hrun. reflexivity.
    - rewrite Hrun. reflexivity.
    - now rewrite Hrun. }
  split; [exact Htw'|]. split; [exact Hwd'|]. split; [exact Hsaved|].
  split.
  { intros v -> Hv. subst rating. cbv beta iota.
    destruct (Z.ltb_spec 0 v); lia. }
  split.
  { subst rating. destruct value as [v|]; simpl; [intros ->|]; reflexivity. }
  split; [|reflexivity].
  intros v -> Hv. subst rating. cbv beta iota.
  destruct (Z.ltb_spec 0 v); [|lia].
  rewrite Z.mul_comm. apply filled_doubled. lia.
Qed.

(** X19: [createStarRating] draws five stars, the filled ones first; their
    number is half the rating, halves rounded up, kept between zero and
    five: none is filled exactly for ratings up to zero, and all five from
    nine on. *)
Theorem createStarRating_stars (rating : Z) :
  let k := Z.to_nat (Z.min 5 (Z.max 0 (round_half rating))) in
  createStarRating rating = repeat true k ++ repeat false (5 - k)
  /\ filled (createStarRating rating) = k
  /\ (k = 0%nat <-> (rating <= 0)%Z)
  /\ (k = 5%nat <-> (9 <= rating)%Z).
Proof.
  unfold createStarRating.
  assert (Hr : (2 * round_half rating - 1 <= rating <= 2 * round_half rating)%Z).
  { unfold round_half.
    pose proof (Z.div_mod (rating + 1) 2 ltac:(lia)).
    pose proof (Z.mod_pos_bound (rating + 1) 2 ltac:(lia)). lia. }
  set (r := round_half rating) in *. cbv zeta.
  assert (r <= 0 \/ r = 1 \/ r = 2 \/ r = 3 \/ r = 4 \/ 5 <= r)%Z
    as [H|[H|[H|[H|[H|H]]]]] by lia.
  - replace (Z.min 5 (Z.max 0 r)) with 0%Z by lia. simpl.
    repeat match goal with
           | |- context [(?i <=? r)%Z] =>
               replace (i <=? r)%Z with false by (symmetry; apply Z.leb_gt; lia)
           end.
    unfold filled. simpl. repeat split; intros; try lia; try discriminate.
  - rewrite H in *. unfold filled. simpl.
    repeat split; intros; try lia; try discriminate.
  - rewrite H in *. unfold filled. simpl.
    repeat split; intros; try lia; try discriminate.
  - rewrite H in *. unfold filled. simpl.
    repeat split; intros; try lia; try discriminate.
  - rewrite H in *. unfold filled. simpl.
    repeat split; intros; try lia; try discriminate.
  - replace (Z.min 5 (Z.max 0 r)) with 5%Z by lia. simpl.
    repeat match goal with
           | |- context [(?i <=? r)%Z] =>
               replace (i <=? r)%Z with true by (symmetry; apply Z.leb_le; lia)
           end.
    unfold filled. simpl. repeat split; intros; try lia; try discriminate.
Qed.

Lemma star_click_rates_witness :
  exists rating s' t',
    on_star_click (Some 4%Z) (showRatingModal contact (mkRatingState None None))
                  (store_of [alien; contact] [heat] []) []
    = (Normal (mkRatingState None (Some 0%Z)), s', t')
    /\ toWatch (mediaData s') = [alien] ++ []
    /\ watched (mediaData s')
       = with_userRating contact (Some rating) :: [heat]
    /\ lists_saved s'
    /\ (forall v, Some 4%Z = Some v -> (1 <= v)%Z -> rating = (2 * v)%Z)
    /\ (is_positive (Some 4%Z) = false -> rating = 10%Z)
    /\ (forall v, Some 4%Z = Some v -> (1 <= v <= 5)%Z ->
                  filled (createStarRating rating) = Z.to_nat v)
    /\ saveRating (mkRatingState None (Some 0%Z)) s' t'
       = (Normal (mkRatingState None (Some 0%Z)), s', t').
Proof.
  apply (star_click_rates contact (Some 4%Z) (mkRatingState None None)
           (store_of [alien; contact] [heat] []) [] [alien] [] contact).
  - reflexivity.
  - reflexivity.
  - simpl. intuition discriminate.
Defined.

Lemma createStarRating_stars_witness :
  createStarRating 7 = [true; true; true; true; false]
  /\ filled (createStarRating 7) = 4%nat
  /\ (4%nat = 0%nat <-> (7 <= 0)%Z)
  /\ (4%nat = 5%nat <-> (9 <= 7)%Z).
Proof. exact (createStarRating_stars 7). Defined.

(** ** Import and loading (src/models/mediaData.js) *)












(** ** Shuffling (src/utils/uiUtils.js) *)

Lemma random_index_le (r : Q) (i : nat) :
  unit_interval r -> (random_index r i <= i)%nat.
Proof.
  intros [H0 H1]. unfold random_index.
  set (n := QArith_base.inject_Z (Z.of_nat (i + 1))).
  assert (Hn : QArith_base.Qlt (QArith_base.inject_Z 0) n).
  { unfold n. rewrite <- QArith_base.Zlt_Qlt. lia. }
  assert (Hlt : QArith_base.Qlt (QArith_base.Qmult r n) n).
  { apply QArith_base.Qlt_le_trans
      with (QArith_base.Qmult (QArith_base.inject_Z 1) n).
    - apply QArith_base.Qmult_lt_compat_r; assumption.
    - apply QArith_base.Qle_lteq. right. apply QArith_base.Qmult_1_l. }
  pose proof (Qround.Qfloor_le (QArith_base.Qmult r n)) as Hfl.
  assert (Hz : (Qround.Qfloor (QArith_base.Qmult r n) < Z.of_nat (i + 1))%Z).
  { rewrite QArith_base.Zlt_Qlt.
    eapply QArith_base.Qle_lt_trans; [exact Hfl | exact Hlt]. }
  lia.
Qed.

Lemma swap_apart {A} (a b c : list A) (x y : A) :
  Permutation (a ++ x :: b ++ y :: c) (a ++ y :: b ++ x :: c).
Proof.
  apply Permutation_app_head.
  transitivity (x :: y :: b ++ c).
  - constructor. symmetry. apply Permutation_middle.
  - transitivity (y :: x :: b ++ c); [constructor|].
    constructor. apply Permutation_middle.
Qed.

Lemma nth_error_two {A} (l : list A) (i j : nat) (x y : A) :
  (i < j)%nat ->
  nth_error l i = Some x -> nth_error l j = Some y ->
  exists a b c,
    l = a ++ x :: b ++ y :: c
    /\ List.length a = i /\ List.length (a ++ x :: b) = j.
Proof.
  intros Hij Hi Hj.
  apply nth_error_split in Hi as (a & rest & -> & Ha).
  rewrite nth_error_app2 in Hj by lia.
  replace (j - List.length a)%nat with (S (j - List.length a - 1)) in Hj by lia.
  simpl in Hj.
  apply nth_error_split in Hj as (b & c & -> & Hb).
  exists a, b, c. split; [reflexivity|]. split; [exact Ha|].
  rewrite length_app. simpl. lia.
Qed.

Lemma swap_Permutation {A} (i j : nat) (l : list A) :
  (i < List.length l)%nat -> (j < List.length l)%nat ->
  exists swapped,
    swap i j l = Some swapped
    /\ Permutation l swapped
    /\ List.length swapped = List.length l.
Proof.
  intros Hil Hjl. unfold swap.
  destruct (nth_error l i) as [x|] eqn:Hi;
    [|apply nth_error_None in Hi; lia].
  destruct (nth_error l j) as [y|] eqn:Hj;
    [|apply nth_error_None in Hj; lia].
  eexists. split; [reflexivity|].
  split; [|now rewrite !set_index_length].
  destruct (Nat.lt_trichotomy i j) as [Hlt|[->|Hlt]].
  - destruct (nth_error_two l i j x y Hlt Hi Hj) as (a & b & c & -> & Ha & Hb).
    rewrite <- Ha at 1. rewrite set_index_middle.
    change (a ++ y :: b ++ y :: c) with (a ++ (y :: b) ++ y :: c).
    rewrite app_assoc.
    replace j with (List.length (a ++ y :: b))
      by (rewrite <- Hb, !length_app; reflexivity).
    rewrite set_index_middle. rewrite <- app_assoc. simpl.
    apply swap_apart.
  - assert (x = y) as <- by congruence.
    apply nth_error_split in Hi as (a & rest & -> & Ha).
    rewrite <- Ha. now rewrite !set_index_middle.
  - destruct (nth_error_two l j i y x Hlt Hj Hi) as (a & b & c & -> & Ha & Hb).
    change (a ++ y :: b ++ x :: c) with (a ++ (y :: b) ++ x :: c) at 2.
    rewrite app_assoc.
    replace i with (List.length (a ++ y :: b)) by exact Hb.
    rewrite set_index_middle. rewrite <- app_assoc. simpl.
    rewrite <- Ha. rewrite set_index_middle.
    apply swap_apart.
Qed.

(** X22: with random numbers from 0 up to, but not including, 1,
    [shuffleArray] never reads or writes outside the array and returns a
    rearrangement of its argument: the same elements, each as many times,
    in an array of the same length. *)
Theorem shuffleArray_permutes {A} (random : nat -> Q) (array : list A) :
  (forall i, unit_interval (random i)) ->
  exists newArray,
    shuffleArray random array = Some newArray
    /\ Permutation array newArray
    /\ List.length newArray = List.length array
    /\ (forall x, In x newArray <-> In x array).
Proof.
  intros Hr.
  assert (HP : forall i (l : list A),
             (i < List.length l \/ i = 0)%nat ->
             exists l', shuffle_from random i l = Some l' /\ Permutation l l').
  { induction i as [|i IH]; intros l Hi; simpl; [now exists l|].
    pose proof (random_index_le (random (S i)) (S i) (Hr (S i))) as Hj.
    destruct (swap_Permutation (S i) (random_index (random (S i)) (S i)) l)
      as (swapped & -> & Hperm & Hlen); [lia..|].
    destruct (IH swapped) as (l' & Hrun & Hperm'); [lia|].
    exists l'. split; [exact Hrun|]. now transitivity swapped. }
  destruct (HP (List.length array - 1)%nat array) as (l' & Hrun & H); [lia|].
  exists l'. split; [exact Hrun|]. split; [exact H|]. split.
  - symmetry. now apply Permutation_length.
  - intros x. split; apply Permutation_in; [symmetry|]; exact H.
Qed.

Lemma shuffleArray_permutes_witness :
  exists newArray,
    shuffleArray (fun _ => QArith_base.Qmake 1 2) [alien; brazil; contact]
    = Some newArray
    /\ Permutation [alien; brazil; contact] newArray
    /\ List.length newArray = 3%nat
    /\ (forall x, In x newArray <-> In x [alien; brazil; contact]).
Proof.
  apply (shuffleArray_permutes (fun _ => QArith_base.Qmake 1 2)
           [alien; brazil; contact]).
  intros i. split; [intros H; discriminate H | reflexivity].
Defined.
